(** * CellConstructor: the symmetry-enforcement engine

    A shallow embedding of [cellconstructor/symmetries.py] (class
    [QE_Symmetry] and the module-level [CustomASR], [GetQGrid],
    [CheckSupercellQ] and [GetSymmetriesFromSPGLIB]) together with the
    properties stated about it.

    Conventions of the embedding.

    - A Python exception is a value of [exn]; a call that may raise returns
      [res A].  The [print] statements of the source write to stdout only and
      are left out.
    - numpy arrays that Python code reads or writes element by element are
      index functions ([nat -> nat -> R] for a 2-d array) with the shape kept
      next to them; Python lists are Rocq lists, indexed with [!!], updated
      with [<[ i := x ]>] and popped with [delete].
    - float64 values are exact numbers: rationals ([Q]) for distances,
      geometry and the two parts of a complex128 entry, reals ([R]) for the
      force constants and tensors, because [CustomASR] and the error
      propagation take square roots.  Rounding is not modelled.
    - The routines of the Fortran module [symph], of the module [Methods] and
      of the class [Structure] are parameters of the sections below, named
      as in the source. *)

From Stdlib Require Import ZArith QArith Qabs Qround Reals Lra Lia.
From stdpp Require Import base option list strings gmap.

Set Default Proof Using "Type".

(** ** Python run-time: exceptions and results *)

Inductive exn : Type :=
| ValueError (msg : string)
| IndexError (msg : string)
| LinAlgError (msg : string).

Inductive res (A : Type) : Type :=
| Ok (a : A)
| Raise (e : exn).
Arguments Ok {A} a.
Arguments Raise {A} e.

#[global] Instance res_ret : MRet res := fun A a => Ok a.
#[global] Instance res_bind : MBind res := fun A B f m =>
  match m with
  | Ok a => f a
  | Raise e => Raise e
  end.

(** [for x in xs: body] over a state, stopping at the first exception. *)
Fixpoint for_each {A S : Type} (xs : list A) (body : A -> S -> res S) (s : S) : res S :=
  match xs with
  | [] => Ok s
  | x :: xs' => s' ← body x s; for_each xs' body s'
  end.

(** [range(n)] *)
Definition range (n : nat) : list nat := seq 0 n.

(** ** numpy and list primitives used by the source *)

Definition Qltb (x y : Q) : bool := negb (Qle_bool y x).

(** [np.argmin]: index of the first occurrence of the minimum; raises
    [ValueError] on an empty sequence. *)
Fixpoint argmin_aux (l : list Q) : option (nat * Q) :=
  match l with
  | [] => None
  | x :: l' =>
      match argmin_aux l' with
      | None => Some (0%nat, x)
      | Some (i, m) => if Qle_bool x m then Some (0%nat, x) else Some (S i, m)
      end
  end.

Definition msg_argmin_empty : string := "attempt to get argmin of an empty sequence".
Definition msg_pop_range : string := "pop index out of range".
Definition msg_index_range : string := "index out of bounds".

Definition argmin (l : list Q) : res nat :=
  match argmin_aux l with
  | None => Raise (ValueError msg_argmin_empty)
  | Some (i, _) => Ok i
  end.

(** [l.pop(i)] of a Python list, for [0 <= i]. *)
Definition pop {A} (l : list A) (i : nat) : res (list A) :=
  if decide (i < length l)%nat then Ok (delete i l) else Raise (IndexError msg_pop_range).

(** [a[i] = x] on a 1-d array. *)
Definition setitem {A} (a : list A) (i : nat) (x : A) : res (list A) :=
  if decide (i < length a)%nat then Ok (<[ i := x ]> a) else Raise (IndexError msg_index_range).

(** [a[i]] on a list or on the first axis of an array. *)
Definition getitem {A} (a : list A) (i : nat) : res A :=
  match a !! i with
  | Some x => Ok x
  | None => Raise (IndexError msg_index_range)
  end.

(** ** Q-points and the partition into stars *)

(** A q-point is an [ndarray] of floats. *)
Definition qvec : Type := list Q.

(** What [symph.star_q] returns: [nq_new, sxq, isq, imq].  Column [k] of
    [sxq] is [sxq k]. *)
Record star_out : Type := StarOut {
  nq_new : nat;
  sxq : nat -> qvec;
  isq : list Z;
  imq : Z
}.

(** [[sxq[:, k] for k in range(nq_new)]] *)
Definition star_members (s : star_out) : list qvec := map (sxq s) (range (nq_new s)).

Section QStar.
(** [symph.star_q(q, QE_at, QE_bg, QE_nsymq, QE_s, QE_invs, 0)] after
    [self.SetupQPoint()], as a function of [q]. *)
Variable star_q : qvec -> star_out.
(** [Methods.get_min_dist_into_cell(self.QE_bg.transpose(), v1, v2)] *)
Variable get_min_dist_into_cell : qvec -> qvec -> Q.

(** Loop state of [SetupQStar]. *)
Record qstar_state : Type := QStarState {
  q_list : list qvec;
  q_stars : list (list qvec);
  count_q : nat;
  q_indices : list nat
}.

(** Body of [for jq in range(nq_new)]. *)
Definition pop_star_member (q_tot : list qvec) (s : star_out) (jq : nat)
    (st : qstar_state) : res qstar_state :=
  let q_dist := map (get_min_dist_into_cell (sxq s jq)) (q_list st) in
  pop_index ← argmin q_dist;
  q_list' ← pop (q_list st) pop_index;
  let q_dist := map (get_min_dist_into_cell (sxq s jq)) q_tot in
  q_index ← argmin q_dist;
  q_indices' ← setitem (q_indices st) (count_q st) q_index;
  Ok {| q_list := q_list'; q_stars := q_stars st;
        count_q := S (count_q st); q_indices := q_indices' |}.

(** Body of [while len(q_list) > 0]. *)
Definition star_step (q_tot : list qvec) (q : qvec) (st : qstar_state) : res qstar_state :=
  let s := star_q q in
  let q_star := star_members s in
  let st1 := {| q_list := q_list st; q_stars := q_stars st ++ [q_star];
                count_q := count_q st; q_indices := q_indices st |} in
  for_each (range (nq_new s)) (pop_star_member q_tot s) st1.

(** The [while] loop; [None] when the fuel runs out. *)
Fixpoint SetupQStar_loop (fuel : nat) (q_tot : list qvec) (st : qstar_state)
    : option (res (list (list qvec) * list nat)) :=
  match q_list st with
  | [] => Some (Ok (q_stars st, q_indices st))
  | q :: _ =>
      match fuel with
      | O => None
      | S fuel' =>
          match star_step q_tot q st with
          | Raise e => Some (Raise e)
          | Ok st' => SetupQStar_loop fuel' q_tot st'
          end
      end
  end.

Definition SetupQStar_init (q_tot : list qvec) : qstar_state :=
  {| q_list := q_tot; q_stars := []; count_q := 0;
     q_indices := replicate (length q_tot) 0%nat |}.

Definition SetupQStar_fuel (fuel : nat) (q_tot : list qvec) :=
  SetupQStar_loop fuel q_tot (SetupQStar_init q_tot).

End QStar.

(** ** The structure (read-only geometric model) and the symmetry table *)

Definition __EPSILON__ : Q := 1 # 100000.

(** The float64 value of [np.pi]. *)
Definition np_pi : Q := 884279719003555 # 281474976710656.

(** The fields of [Structure.Structure] that the engine reads. *)
Record Structure : Type := MkStructure {
  has_unit_cell : bool;
  N_atoms : nat;
  atoms : list string;
  coords : nat -> nat -> Q;
  unit_cell : nat -> nat -> Q
}.

(** The attributes of a [QE_Symmetry] object.  Arrays are index functions:
    [QE_s i j k] is [QE_s[i, j, k]]. *)
Record QE_Symmetry : Type := MkQE {
  structure : Structure;
  threshold : Q;
  QE_nat : nat;
  QE_s : nat -> nat -> nat -> Z;
  QE_irt : nat -> nat -> Z;
  QE_invs : nat -> Z;
  QE_rtau : nat -> nat -> nat -> Q;
  QE_ft : nat -> nat -> Q;
  QE_minus_q : bool;
  QE_irotmq : Z;
  QE_nsymq : Z;
  QE_nsym : Z;
  QE_tau : nat -> nat -> Q;
  QE_ityp : list Z;
  QE_at : nat -> nat -> Q;
  QE_bg : nat -> nat -> Q
}.

(** State of the Fortran module [symph.symm_base] that [SetupQPoint] copies
    back into Python. *)
Record symm_base : Type := MkSymmBase {
  sb_s : nat -> nat -> nat -> Z;
  sb_ft : nat -> nat -> Q;
  sb_irt : nat -> nat -> Z;
  sb_invs : nat -> Z;
  sb_nrot : Z;
  sb_nsym : Z;
  sb_nsymq : Z;
  sb_minus_q : bool
}.

Definition transpose {A} (m : nat -> nat -> A) : nat -> nat -> A := fun i j => m j i.

Definition zeros3 : qvec := [0; 0; 0]%Q.

(** [a[i]] on a float vector known to be long enough. *)
Definition vget (v : qvec) (i : nat) : Q := nth i v 0%Q.

(** Python [int(x)] on a float: truncation towards zero. *)
Definition int_of_float (x : Q) : Z := if Qle_bool 0 x then Qfloor x else Qceiling x.

(** [x = x - int(x); if x < 0: x += 1] *)
Definition fix_in_BZ (x : Q) : Q :=
  let y := (x - inject_Z (int_of_float x))%Q in
  if Qltb y 0 then (y + 1)%Q else y.

Definition msg_no_unit_cell : string :=
  "Error, symmetry operation can be initialize only if the structure has a unit cell".
Definition msg_q_not_3d : string := "Error, the q point must be a 3d vector".
Definition msg_not_initialized : string := "Error, initialize the symmetries with SetupQPoint.".

(** [QE_Symmetry.GetSymmetries]: the operations as 3x4 arrays. *)
Definition GetSymmetries (self : QE_Symmetry) : list (nat -> nat -> Q) :=
  map (fun i => fun a b : nat =>
         if (b <? 3)%nat then inject_Z (QE_s self b a i) else QE_ft self a i)
      (range (Z.to_nat (QE_nsymq self))).

(** [sym[:, :3].dot(aq)] *)
Definition rot_dot (sym : nat -> nat -> Q) (aq : nat -> Q) : nat -> Q :=
  fun a => (sym a 0%nat * aq 0%nat + sym a 1%nat * aq 1%nat + sym a 2%nat * aq 2%nat)%Q.

(** [np.sum((u - v)**2)] over three components. *)
Definition sqdist3 (u v : nat -> Q) : Q :=
  ((u 0%nat - v 0%nat) * (u 0%nat - v 0%nat)
   + (u 1%nat - v 1%nat) * (u 1%nat - v 1%nat)
   + (u 2%nat - v 2%nat) * (u 2%nat - v 2%nat))%Q.

(** The search [for k, sym in enumerate(syms): ... break] for the operation
    that sends q to -q; [None] when the loop ends without [break]. *)
Fixpoint find_irotmq (aq : nat -> Q) (syms : list (nat -> nat -> Q)) (k : nat) : option Z :=
  match syms with
  | [] => None
  | sym :: rest =>
      let new_q := fun i => fix_in_BZ (rot_dot sym aq i) in
      if Qltb (sqdist3 new_q aq) __EPSILON__ then Some (Z.of_nat k + 1)%Z
      else find_irotmq aq rest (S k)
  end.

(** Python [a[i]] with a possibly negative index on an axis of length [n]. *)
Definition py_index (n : nat) (i : Z) : res nat :=
  if (0 <=? i)%Z && (i <? Z.of_nat n)%Z then Ok (Z.to_nat i)
  else if (i <? 0)%Z && (- Z.of_nat n <=? i)%Z then Ok (Z.to_nat (Z.of_nat n + i))
  else Raise (IndexError msg_index_range).

Section Table.
(** [structure.get_reciprocal_vectors()] *)
Variable get_reciprocal_vectors : Structure -> nat -> nat -> Q.
(** [Methods.covariant_coordinates(basis, vector)] *)
Variable covariant_coordinates : (nat -> nat -> Q) -> qvec -> qvec.
(** The calls [set_at_bg; set_sym_bl; find_sym; smallg_q; copy_sym;
    inverse_s] on [symph.symm_base], as a function of what Python passes in:
    the acceptance threshold, [QE_at], [QE_bg], [QE_tau], [QE_ityp], [QE_nat]
    and the q-point in crystal coordinates. *)
Variable symm_base_run :
  Q -> (nat -> nat -> Q) -> (nat -> nat -> Q) -> (nat -> nat -> Q) -> list Z -> nat -> qvec -> symm_base.
(** [symph.sgam_ph_new(at, bg, nsym, s, irt, tau, nat)] *)
Variable sgam_ph_new :
  (nat -> nat -> Q) -> (nat -> nat -> Q) -> Z -> (nat -> nat -> nat -> Z) ->
  (nat -> nat -> Z) -> (nat -> nat -> Q) -> nat -> nat -> nat -> nat -> Q.
(** [symph.cryst_to_cart(vectors, basis, direction)], on a (3, n) array. *)
Variable cryst_to_cart : (nat -> nat -> Q) -> (nat -> nat -> Q) -> Z -> nat -> nat -> Q.

(** The species ranking loop of [__init__]. *)
Definition rank_atom (st : Structure) (i : nat) (acc : gmap string Z * Z * list Z)
    : res (gmap string Z * Z * list Z) :=
  let '(symbs, counter, ityp) := acc in
  atm ← getitem (atoms st) i;
  let '(symbs, counter) :=
    match symbs !! atm with
    | None => (<[ atm := counter ]> symbs, (counter + 1)%Z)
    | Some _ => (symbs, counter)
    end in
  ityp' ← setitem ityp i (default 0%Z (symbs !! atm));
  Ok (symbs, counter, ityp').

(** [QE_Symmetry.__init__(structure, threshold)] *)
Definition QE_Symmetry__init__ (st : Structure) (thr : Q) : res QE_Symmetry :=
  if negb (has_unit_cell st) then Raise (ValueError msg_no_unit_cell) else
  let nat_ := N_atoms st in
  '(_, _, ityp) ← for_each (range nat_) (rank_atom st)
                     (∅, 1%Z, replicate nat_ 0%Z);
  let bg := get_reciprocal_vectors st in
  Ok {| structure := st;
        threshold := thr;
        QE_nat := nat_;
        QE_s := fun _ _ _ => 0%Z;
        QE_irt := fun _ _ => 0%Z;
        QE_invs := fun _ => 0%Z;
        QE_rtau := fun _ _ _ => 0%Q;
        QE_ft := fun _ _ => 0%Q;
        QE_minus_q := false;
        QE_irotmq := 0;
        QE_nsymq := 0;
        QE_nsym := 0;
        QE_tau := fun j i => coords st i j;
        QE_ityp := ityp;
        QE_at := fun i j => unit_cell st j i;
        QE_bg := fun i j => (bg j i / (2 * np_pi))%Q |}.

(** [QE_Symmetry.SetupQPoint(q_point, verbose)] *)
Definition SetupQPoint (self : QE_Symmetry) (q_point : qvec) : res QE_Symmetry :=
  if negb (length q_point =? 3)%nat then Raise (ValueError msg_q_not_3d) else
  let aq := covariant_coordinates (transpose (QE_bg self)) q_point in
  let sb := symm_base_run (threshold self) (QE_at self) (QE_bg self) (QE_tau self)
              (QE_ityp self) (QE_nat self) aq in
  let self1 :=
    {| structure := structure self;
       threshold := threshold self;
       QE_nat := QE_nat self;
       QE_s := sb_s sb;
       QE_irt := sb_irt sb;
       QE_invs := sb_invs sb;
       QE_rtau := sgam_ph_new (QE_at self) (QE_bg self) (sb_nsym sb) (sb_s sb)
                    (sb_irt sb) (QE_tau self) (QE_nat self);
       QE_ft := sb_ft sb;
       QE_minus_q := sb_minus_q sb;
       QE_irotmq := QE_irotmq self;
       QE_nsymq := sb_nsymq sb;
       QE_nsym := sb_nrot sb;
       QE_tau := QE_tau self;
       QE_ityp := QE_ityp self;
       QE_at := QE_at self;
       QE_bg := QE_bg self |} in
  if QE_minus_q self1 then
    let syms := GetSymmetries self1 in
    let aq' := fun i => fix_in_BZ (vget aq i) in
    match find_irotmq aq' syms 0 with
    | Some k =>
        Ok {| structure := structure self1; threshold := threshold self1;
              QE_nat := QE_nat self1; QE_s := QE_s self1; QE_irt := QE_irt self1;
              QE_invs := QE_invs self1; QE_rtau := QE_rtau self1; QE_ft := QE_ft self1;
              QE_minus_q := QE_minus_q self1; QE_irotmq := k;
              QE_nsymq := QE_nsymq self1; QE_nsym := QE_nsym self1;
              QE_tau := QE_tau self1; QE_ityp := QE_ityp self1;
              QE_at := QE_at self1; QE_bg := QE_bg self1 |}
    | None => Ok self1
    end
  else Ok self1.

(** The table is in its uninitialized state when no operation of a small
    group has been stored: this is the test [ForceSymmetry] makes. *)
Definition Uninitialized (self : QE_Symmetry) : Prop := QE_nsymq self = 0%Z.

(** One pass of the double loop of [ForceSymmetry]: adds the image of atom
    [i] under operation [s_i] to column [irt[s_i, i] - 1]. *)
Definition force_accumulate (self : QE_Symmetry) (n_at : nat) (cr : nat -> nat -> Q)
    (si : nat * nat) (new_coords : nat -> nat -> Q) : res (nat -> nat -> Q) :=
  let '(s_i, i) := si in
  col ← py_index n_at (QE_irt self s_i i - 1)%Z;
  Ok (fun a c =>
        if (c =? col)%nat then
          (new_coords a c
           + (inject_Z (QE_s self a 0%nat s_i) * cr 0%nat i
              + inject_Z (QE_s self a 1%nat s_i) * cr 1%nat i
              + inject_Z (QE_s self a 2%nat s_i) * cr 2%nat i)
           + QE_ft self a s_i)%Q
        else new_coords a c).

(** [QE_Symmetry.ForceSymmetry(structure)]: the structure after the call. *)
Definition ForceSymmetry (self : QE_Symmetry) (st : Structure) : res Structure :=
  if (QE_nsymq self =? 0)%Z then Raise (ValueError msg_not_initialized) else
  let n_at := N_atoms st in
  let cr := cryst_to_cart (transpose (coords st)) (QE_bg self) (-1)%Z in
  let pairs := s_i ← range (Z.to_nat (QE_nsymq self)); i ← range n_at; [(s_i, i)] in
  new_coords ← for_each pairs (force_accumulate self n_at cr) (fun _ _ => 0%Q);
  let averaged := fun a c => (new_coords a c / inject_Z (QE_nsymq self))%Q in
  let cart := cryst_to_cart averaged (QE_at self) 1%Z in
  Ok {| has_unit_cell := has_unit_cell st; N_atoms := N_atoms st; atoms := atoms st;
        coords := transpose cart; unit_cell := unit_cell st |}.

End Table.

(** ** Dynamical matrices *)

(** A complex128 entry: real and imaginary part. *)
Definition complex : Type := (Q * Q)%type.
Definition c0 : complex := (0%Q, 0%Q).
Definition cadd (x y : complex) : complex := ((x.1 + y.1)%Q, (x.2 + y.2)%Q).
(** [z / n] for an integer [n] *)
Definition cdiv_nat (z : complex) (n : nat) : complex :=
  ((z.1 / inject_Z (Z.of_nat n))%Q, (z.2 / inject_Z (Z.of_nat n))%Q).

(** A (3 nat, 3 nat) complex array. *)
Definition cmatrix : Type := nat -> nat -> complex.
(** A (3, 3, nat, nat) complex array, as the Fortran routines take it. *)
Definition cblocks : Type := nat -> nat -> nat -> nat -> complex.

(** [m[3*na : 3*na + 3, 3*nb : 3*nb + 3]] *)
Definition block {A} (m : nat -> nat -> A) (na nb : nat) : nat -> nat -> A :=
  fun a b => m (3 * na + a)%nat (3 * nb + b)%nat.

Definition in_range (n r c : nat) : bool := (r <? 3 * n)%nat && (c <? 3 * n)%nat.

Definition msg_star_mismatch : string :=
  "Error, the passed q star does not match the one computed by QE".
Definition msg_identification : string :=
  "Error, the vector (%.3f, %.3f, %.3f) has %d identification in the star".
Definition msg_broadcast : string := "operands could not be broadcast together".

(** [xq = np.ones(3); xq *= q_point] *)
Definition ones3_times (q_point : qvec) : res qvec :=
  match q_point with
  | [x] => Ok [x; x; x]
  | [x; y; z] => Ok [x; y; z]
  | _ => Raise (ValueError msg_broadcast)
  end.

Section Symmetrize.
Variable covariant_coordinates : (nat -> nat -> Q) -> qvec -> qvec.
Variable symm_base_run :
  Q -> (nat -> nat -> Q) -> (nat -> nat -> Q) -> (nat -> nat -> Q) -> list Z -> nat -> qvec -> symm_base.
Variable sgam_ph_new :
  (nat -> nat -> Q) -> (nat -> nat -> Q) -> Z -> (nat -> nat -> nat -> Z) ->
  (nat -> nat -> Z) -> (nat -> nat -> Q) -> nat -> nat -> nat -> nat -> Q.
(** [Methods.convert_matrix_cart_cryst(block, unit_cell, cryst_to_cart)] *)
Variable convert_matrix_cart_cryst :
  (nat -> nat -> complex) -> (nat -> nat -> Q) -> bool -> nat -> nat -> complex.
(** [symph.symdynph_gq_new(xq, QE_dyn, s, invs, rtau, irt, irotmq, minus_q,
    nsymq, nat)]: the array [QE_dyn] after the call. *)
Variable symdynph_gq_new :
  qvec -> cblocks -> (nat -> nat -> nat -> Z) -> (nat -> Z) -> (nat -> nat -> nat -> Q) ->
  (nat -> nat -> Z) -> Z -> bool -> Z -> nat -> cblocks.
(** [symph.symvector(nsymq, irt, s, at, bg, vector, nat)]: the (3, nat)
    array [vector] after the call. *)
Variable symvector :
  Z -> (nat -> nat -> Z) -> (nat -> nat -> nat -> Z) -> (nat -> nat -> Q) -> (nat -> nat -> Q) ->
  (nat -> nat -> Q) -> nat -> nat -> nat -> Q.
(** [symph.star_q(q, at, bg, nsymq, s, invs, 0)] *)
Variable star_q :
  qvec -> (nat -> nat -> Q) -> (nat -> nat -> Q) -> Z -> (nat -> nat -> nat -> Z) -> (nat -> Z) ->
  star_out.
(** [symph.q2qstar_out(dyn, at, bg, nsymq, s, invs, irt, rtau, nq_new, sxq,
    isq, imq, nat)]: entry [k a b xat yat] of the (nq, 3, 3, nat, nat) result. *)
Variable q2qstar_out :
  cmatrix -> (nat -> nat -> Q) -> (nat -> nat -> Q) -> Z -> (nat -> nat -> nat -> Z) ->
  (nat -> Z) -> (nat -> nat -> Z) -> (nat -> nat -> nat -> Q) -> star_out -> nat ->
  nat -> cblocks.
Variable get_min_dist_into_cell : (nat -> nat -> Q) -> qvec -> qvec -> Q.

(** [QE_Symmetry.SymmetrizeDynQ(dyn_matrix, q_point)]: the array
    [dyn_matrix] after the call. *)
Definition SymmetrizeDynQ (self : QE_Symmetry) (dyn_matrix : cmatrix) (q_point : qvec)
    : res cmatrix :=
  let n := QE_nat self in
  let uc := unit_cell (structure self) in
  let QE_dyn : cblocks := fun a b na nb =>
    if (na <? n)%nat && (nb <? n)%nat
    then convert_matrix_cart_cryst (block dyn_matrix na nb) uc false a b
    else c0 in
  xq ← ones3_times q_point;
  let QE_dyn' :=
    symdynph_gq_new xq QE_dyn (QE_s self) (QE_invs self) (QE_rtau self) (QE_irt self)
      (QE_irotmq self) (QE_minus_q self) (QE_nsymq self) n in
  Ok (fun r c =>
        if in_range n r c
        then convert_matrix_cart_cryst
               (fun a b => QE_dyn' a b (r / 3)%nat (c / 3)%nat) uc true
               (r mod 3)%nat (c mod 3)%nat
        else dyn_matrix r c).

(** [QE_Symmetry.SymmetrizeVector(vector)]: the (nat, 3) array [vector]
    after the call. *)
Definition SymmetrizeVector (self : QE_Symmetry) (vector : nat -> nat -> Q)
    : res (nat -> nat -> Q) :=
  let n := QE_nat self in
  let tmp_vector := fun a i => if (i <? n)%nat && (a <? 3)%nat then vector i a else 0%Q in
  let tmp' := symvector (QE_nsymq self) (QE_irt self) (QE_s self) (QE_at self) (QE_bg self)
                tmp_vector n in
  Ok (fun i a => if (i <? n)%nat && (a <? 3)%nat then tmp' a i else vector i a).

(** *** [SetupQStar] as a method *)

Definition SetupQStar (fuel : nat) (self : QE_Symmetry) (q_tot : list qvec)
    : option (res (QE_Symmetry * (list (list qvec) * list nat))) :=
  match SetupQPoint covariant_coordinates symm_base_run sgam_ph_new self zeros3 with
  | Raise e => Some (Raise e)
  | Ok self' =>
      match SetupQStar_fuel
              (fun q => star_q q (QE_at self') (QE_bg self') (QE_nsymq self') (QE_s self')
                          (QE_invs self'))
              (get_min_dist_into_cell (transpose (QE_bg self')))
              fuel q_tot with
      | None => None
      | Some (Raise e) => Some (Raise e)
      | Some (Ok r) => Some (Ok (self', r))
      end
  end.

(** *** [ApplyQStar] *)

(** Body of [for yq in range(nq_new)]: records the member of the computed
    star that lies within [__EPSILON__] of [q] and counts the matches. *)
Definition identify_step (dist : qvec -> qvec -> Q) (s : star_out) (q : qvec) (xq : nat)
    (yq : nat) (acc : list nat * nat) : res (list nat * nat) :=
  let '(sorting_q, count) := acc in
  if Qltb (dist (sxq s yq) q) __EPSILON__ then
    sorting_q' ← setitem sorting_q xq yq;
    Ok (sorting_q', S count)
  else Ok (sorting_q, count).

(** Body of the first [for xq in range(nq)]. *)
Definition identify (dist : qvec -> qvec -> Q) (s : star_out) (current_q : list qvec)
    (xq : nat) (sorting_q : list nat) : res (list nat) :=
  q ← getitem current_q xq;
  '(sorting_q', count) ← for_each (range (nq_new s)) (identify_step dist s q xq) (sorting_q, 0%nat);
  if negb (count =? 1)%nat then Raise (ValueError msg_identification)
  else Ok sorting_q'.

(** The loops over [xat] and [yat]:
    [m[3*xat : 3*xat+3, 3*yat : 3*yat+3] += d[:, :, xat, yat]]. *)
Definition add_blocks (n : nat) (m : cmatrix) (d : cblocks) : cmatrix :=
  fun r c =>
    if in_range n r c
    then cadd (m r c) (d (r mod 3)%nat (c mod 3)%nat (r / 3)%nat (c / 3)%nat)
    else m r c.

(** Body of the second [for xq in range(nq)]. *)
Definition accumulate (n : nat) (dyn_star : nat -> cblocks) (sorting_q : list nat)
    (xq : nat) (final_fc : list cmatrix) : res (list cmatrix) :=
  k ← getitem sorting_q xq;
  m ← getitem final_fc xq;
  setitem final_fc xq (add_blocks n m (dyn_star k)).

(** Body of [for i in range(nq)]. *)
Definition star_member_step (self : QE_Symmetry) (fcq : list cmatrix)
    (q_point_group : list qvec) (i : nat) (final_fc : list cmatrix) : res (list cmatrix) :=
  let nq := length q_point_group in
  let n := QE_nat self in
  q ← getitem q_point_group i;
  let s := star_q q (QE_at self) (QE_bg self) (QE_nsymq self) (QE_s self) (QE_invs self) in
  if negb (nq_new s =? nq)%nat then Raise (ValueError msg_star_mismatch) else
  fc_i ← getitem fcq i;
  let new_dyn : cmatrix := fun r c => if in_range n r c then fc_i r c else c0 in
  let dyn_star :=
    q2qstar_out new_dyn (QE_at self) (QE_bg self) (QE_nsymq self) (QE_s self) (QE_invs self)
      (QE_irt self) (QE_rtau self) s n in
  let current_q := q_point_group in
  let dist := get_min_dist_into_cell (transpose (QE_bg self)) in
  sorting_q ← for_each (range nq) (identify dist s current_q) (range nq);
  for_each (range nq) (accumulate n dyn_star sorting_q) final_fc.

(** The array [final_fc] just before it is copied over [fcq]. *)
Definition ApplyQStar_final_fc (self : QE_Symmetry) (fcq : list cmatrix)
    (q_point_group : list qvec) : res (list cmatrix) :=
  let nq := length q_point_group in
  let final_fc := replicate (length fcq) (fun _ _ => c0) in
  final_fc ← for_each (range nq) (star_member_step self fcq q_point_group) final_fc;
  Ok (map (fun m : cmatrix => fun r c => cdiv_nat (m r c) nq) final_fc).

(** [QE_Symmetry.ApplyQStar(fcq, q_point_group)]: the object, the array
    [fcq] and the exception raised, if any, when the call ends. *)
Definition ApplyQStar (self : QE_Symmetry) (fcq : list cmatrix) (q_point_group : list qvec)
    : QE_Symmetry * list cmatrix * option exn :=
  match SetupQPoint covariant_coordinates symm_base_run sgam_ph_new self zeros3 with
  | Raise e => (self, fcq, Some e)
  | Ok self' =>
      match ApplyQStar_final_fc self' fcq q_point_group with
      | Raise e => (self', fcq, Some e)
      | Ok final_fc => (self', final_fc, None)
      end
  end.

(** *** Reading [ApplyQStar] *)

(** The exceptions that the loops of [ApplyQStar] can raise. *)
Definition star_exn (e : exn) : Prop :=
  e = IndexError msg_index_range
  \/ e = ValueError msg_star_mismatch
  \/ e = ValueError msg_identification.


(** The star of [q] recomputed with the operations of the table. *)
Definition star_at (self : QE_Symmetry) (q : qvec) : star_out :=
  star_q q (QE_at self) (QE_bg self) (QE_nsymq self) (QE_s self) (QE_invs self).

(** The members of the computed star [s] that lie within [__EPSILON__] of
    the caller's member [q], by position in [s]. *)
Definition matches (self : QE_Symmetry) (s : star_out) (q : qvec) : list nat :=
  filter (fun yq => Qltb (get_min_dist_into_cell (transpose (QE_bg self)) (sxq s yq) q)
                      __EPSILON__ = true)
         (range (nq_new s)).

(** The position recorded in [sorting_q] for [q]: the last match. *)
Definition sorting (self : QE_Symmetry) (s : star_out) (q : qvec) : nat :=
  default 0%nat (last (matches self s q)).

(** The star of the originating member [q] has as many members as the
    caller's star. *)
Definition size_ok (self : QE_Symmetry) (q_point_group : list qvec) (q : qvec) : bool :=
  (nq_new (star_at self q) =? length q_point_group)%nat.

(** Every member of the caller's star matches exactly one member of the
    star recomputed from [q]. *)
Definition match_ok (self : QE_Symmetry) (q_point_group : list qvec) (q : qvec) : bool :=
  forallb (fun q' => (length (matches self (star_at self q) q') =? 1)%nat) q_point_group.

Definition member_ok (self : QE_Symmetry) (q_point_group : list qvec) (q : qvec) : bool :=
  size_ok self q_point_group q && match_ok self q_point_group q.

(** The matrix of the originating member [i] carried to every member of
    its star: what [q2qstar_out] returns for it. *)
Definition images (self : QE_Symmetry) (fcq : list cmatrix) (q_point_group : list qvec)
    (i : nat) : nat -> cblocks :=
  let n := QE_nat self in
  let fc_i := default (fun _ _ => c0) (fcq !! i) in
  let q := default [] (q_point_group !! i) in
  q2qstar_out (fun r c => if in_range n r c then fc_i r c else c0)
    (QE_at self) (QE_bg self) (QE_nsymq self) (QE_s self) (QE_invs self)
    (QE_irt self) (QE_rtau self) (star_at self q) n.

(** What the originating member [i] adds to the accumulator [final_fc]. *)
Definition add_images (self : QE_Symmetry) (fcq : list cmatrix) (q_point_group : list qvec)
    (i : nat) (final_fc : list cmatrix) : list cmatrix :=
  zip_with (fun M k => add_blocks (QE_nat self) M (images self fcq q_point_group i k))
    final_fc
    (sorting self (star_at self (default [] (q_point_group !! i))) <$> q_point_group).

(** Entry [(r, c)] of the contribution of the originating member [i] to the
    target member [q']. *)
Definition contribution (self : QE_Symmetry) (fcq : list cmatrix) (q_point_group : list qvec)
    (q' : qvec) (r c : nat) (i : nat) : complex :=
  let q := default [] (q_point_group !! i) in
  images self fcq q_point_group i (sorting self (star_at self q) q')
    (r mod 3)%nat (c mod 3)%nat (r / 3)%nat (c / 3)%nat.

(** Sum of the contributions of all originating members, divided by the
    size of the star. *)
Definition star_average (self : QE_Symmetry) (fcq : list cmatrix) (q_point_group : list qvec)
    (q' : qvec) (r c : nat) : complex :=
  let nq := length q_point_group in
  cdiv_nat (fold_left cadd (contribution self fcq q_point_group q' r c <$> range nq) c0) nq.

End Symmetrize.

(** ** Real matrices: the acoustic sum rule and 3x3 tensors *)

(** A 2-d float array: its shape and its entries. *)
Record ndarray2 : Type := MkArray {
  shape0 : nat;
  shape1 : nat;
  entry : nat -> nat -> R
}.

Definition msg_not_square : string := "Error, the provided matrix is not square: (%d, %d)".
Definition msg_not_div3 : string :=
  "Error, the matrix must have a dimension divisible by 3: %d".
Definition msg_axis0_empty : string := "index 0 is out of bounds for axis 0 with size 0".

(** Sum of [f 0 .. f (n-1)]. *)
Fixpoint sum_n (n : nat) (f : nat -> R) : R :=
  match n with
  | O => 0%R
  | S k => (sum_n k f + f k)%R
  end.

(** [u.dot(v)] for vectors of length [n] *)
Definition vdot (n : nat) (u v : nat -> R) : R := sum_n n (fun k => (u k * v k)%R).
(** [A.dot(B)] for (n, n) arrays *)
Definition mdot (n : nat) (A B : nat -> nat -> R) : nat -> nat -> R :=
  fun i j => sum_n n (fun k => (A i k * B k j)%R).
(** [A.dot(v)] *)
Definition mvdot (n : nat) (A : nat -> nat -> R) (v : nat -> R) : nat -> R :=
  fun i => sum_n n (fun k => (A i k * v k)%R).
(** [np.eye(n)] *)
Definition eye : nat -> nat -> R := fun i j => if (i =? j)%nat then 1%R else 0%R.
(** [np.outer(u, v)] *)
Definition outer (u v : nat -> R) : nat -> nat -> R := fun i j => (u i * v j)%R.

(** [v1 = np.zeros(nat*3); v1[3*np.arange(nat) + i] = 1] *)
Definition uniform_translation (n i : nat) : nat -> R :=
  fun k => if (k <? 3 * n)%nat && (k mod 3 =? i)%nat then 1%R else 0%R.

(** Body of [for i in range(3)] in [CustomASR]. *)
Definition project_out (n : nat) (trans : nat -> nat -> R) (i : nat) : nat -> nat -> R :=
  let v1 := uniform_translation n i in
  let norm := sqrt (vdot (3 * n) v1 v1) in
  let v1 := fun k => (v1 k / norm)%R in
  fun r c => (trans r c - outer v1 v1 r c)%R.

(** The array [trans] after the loop. *)
Definition CustomASR_trans (n : nat) : nat -> nat -> R :=
  fold_left (project_out n) (range 3) eye.

(** [CustomASR(fc_matrix)]: the array [fc_matrix] and the exception raised,
    if any, when the call ends. *)
Definition CustomASR (fc_matrix : ndarray2) : ndarray2 * option exn :=
  if negb (shape0 fc_matrix =? shape1 fc_matrix)%nat
  then (fc_matrix, Some (ValueError msg_not_square)) else
  let n := (shape0 fc_matrix / 3)%nat in
  if negb (n * 3 =? shape0 fc_matrix)%nat
  then (fc_matrix, Some (ValueError msg_not_div3)) else
  (* dtype = type(fc_matrix[0,0]) *)
  if (shape0 fc_matrix =? 0)%nat
  then (fc_matrix, Some (IndexError msg_axis0_empty)) else
  let trans := CustomASR_trans n in
  let d := (3 * n)%nat in
  let new := mdot d trans (mdot d (entry fc_matrix) trans) in
  ({| shape0 := shape0 fc_matrix; shape1 := shape1 fc_matrix;
      entry := fun r c => if (r <? d)%nat && (c <? d)%nat then new r c
                          else entry fc_matrix r c |}, None).

(** The uniform displacement along direction [d], normalized. *)
Definition unit_translation (n d : nat) : nat -> R :=
  fun k => (uniform_translation n d k / sqrt (INR n))%R.

(** The projector I - sum_d v_d v_d^T on the complement of the three
    uniform translations. *)
Definition asr_projector (n : nat) : nat -> nat -> R :=
  fun r c => (eye r c - sum_n 3 (fun d => unit_translation n d r * unit_translation n d c))%R.

(** An effective-charge array of shape (N_atoms, 3, 3). *)
Definition zeu_array : Type := nat -> nat -> nat -> R.

(** [np.einsum("ijk -> kji", zeu)] *)
Definition einsum_kji (zeu : zeu_array) : zeu_array := fun k j i => zeu i j k.

(** The array [QE_fc] of shape (3, 3, nat, nat) filled from the blocks of a
    force-constant matrix. *)
Definition to_blocks (n : nat) (m : nat -> nat -> R) : nat -> nat -> nat -> nat -> R :=
  fun a b na nb => if (na <? n)%nat && (nb <? n)%nat then block m na nb a b else 0%R.

Definition EPSILON_R : R := (1 / 100000)%R.
Definition Rgtb (x y : R) : bool := if Rlt_dec y x then true else false.

(** The index pairs of a 3x3 array, in row-major order. *)
Definition positions3 : list (nat * nat) := i ← range 3; j ← range 3; [(i, j)].

(** [m[i, j] = v] *)
Definition upd2 (m : nat -> nat -> R) (i j : nat) (v : R) : nat -> nat -> R :=
  fun a b => if (a =? i)%nat && (b =? j)%nat then v else m a b.

(** [np.sum(xs)] *)
Definition Rsum (xs : list R) : R := fold_right Rplus 0%R xs.

Section RealMatrices.
Variable covariant_coordinates : (nat -> nat -> Q) -> qvec -> qvec.
Variable symm_base_run :
  Q -> (nat -> nat -> Q) -> (nat -> nat -> Q) -> (nat -> nat -> Q) -> list Z -> nat -> qvec -> symm_base.
Variable sgam_ph_new :
  (nat -> nat -> Q) -> (nat -> nat -> Q) -> Z -> (nat -> nat -> nat -> Z) ->
  (nat -> nat -> Z) -> (nat -> nat -> Q) -> nat -> nat -> nat -> nat -> Q.
(** [symph.set_asr(asr, axis, tau, fc, zeu)]: the arrays [fc] and [zeu]
    after the call. *)
Variable set_asr :
  string -> Z -> (nat -> nat -> Q) -> (nat -> nat -> nat -> nat -> R) -> zeu_array ->
  (nat -> nat -> nat -> nat -> R) * zeu_array.
(** [symph.symmatrix(mat, s, nsymq, at, bg)]: the array [mat] after the call. *)
Variable symmatrix :
  (nat -> nat -> R) -> (nat -> nat -> nat -> Z) -> Z -> (nat -> nat -> Q) -> (nat -> nat -> Q) ->
  nat -> nat -> R.

(** [QE_Symmetry.ImposeSumRule(force_constant, asr, axis, zeu)]: the arrays
    [force_constant] and [zeu] and the exception raised, if any, when the
    call ends.  The delegated branch is written for a [force_constant] of
    shape (3 nat, 3 nat). *)
Definition ImposeSumRule (self : QE_Symmetry) (force_constant : ndarray2) (asr : string)
    (axis : Z) (zeu : option zeu_array) : ndarray2 * option zeu_array * option exn :=
  let n := QE_nat self in
  let f_zeu : zeu_array :=
    match zeu with
    | Some z => einsum_kji z
    | None => fun _ _ _ => 0%R
    end in
  if negb (String.eqb asr "custom") then
    let QE_fc := to_blocks n (entry force_constant) in
    let '(QE_fc', f_zeu') := set_asr asr axis (QE_tau self) QE_fc f_zeu in
    let zeu' :=
      match zeu with
      | Some z => Some (fun na a b => if (na <? n)%nat then f_zeu' a b na else z na a b)
      | None => None
      end in
    ({| shape0 := shape0 force_constant; shape1 := shape1 force_constant;
        entry := fun r c =>
          if in_range n r c
          then QE_fc' (r mod 3)%nat (c mod 3)%nat (r / 3)%nat (c / 3)%nat
          else entry force_constant r c |},
     zeu', None)
  else
    let '(fc', e) := CustomASR force_constant in
    (fc', zeu, e).

(** Body of the double loop over [i], [j] in [ApplySymmetryToMatrix]. *)
Definition propagate_error (sym : (nat -> nat -> R) -> nat -> nat -> R) (err : nat -> nat -> R)
    (err_new : nat -> nat -> R) (ij : nat * nat) : nat -> nat -> R :=
  let '(i, j) := ij in
  let work := upd2 (fun _ _ => 0%R) i j 1%R in
  let work := sym work in
  let mask := filter (fun p : nat * nat => Rgtb (Rabs (work p.1 p.2)) EPSILON_R = true) positions3 in
  let naverage := length mask in
  if (naverage =? 0)%nat then upd2 err_new i j 0%R
  else upd2 err_new i j
         (sqrt (Rsum (map (fun p : nat * nat => (err p.1 p.2) ^ 2)%R mask)) / INR naverage)%R.

(** The elements that contribute to position [(i, j)]: the positions where
    the symmetrized indicator tensor of [(i, j)] exceeds the tolerance in
    magnitude. *)
Definition contributing (sym : (nat -> nat -> R) -> nat -> nat -> R) (i j : nat)
    : list (nat * nat) :=
  filter (fun p : nat * nat =>
            Rgtb (Rabs (sym (upd2 (fun _ _ => 0%R) i j 1%R) p.1 p.2)) EPSILON_R = true)
         positions3.

(** The propagated error of position [(i, j)]: the square root of the sum
    of the squared input errors of the contributing elements, divided by
    their number; zero when there is none. *)
Definition propagated_error (sym : (nat -> nat -> R) -> nat -> nat -> R)
    (err : nat -> nat -> R) (i j : nat) : R :=
  let cs := contributing sym i j in
  match cs with
  | [] => 0%R
  | _ => (sqrt (Rsum ((fun p : nat * nat => (err p.1 p.2) ^ 2)%R <$> cs)) / INR (length cs))%R
  end.

(** [QE_Symmetry.ApplySymmetryToMatrix(matrix, err)]: the object and the
    arrays [matrix] and [err] when the call ends. *)
Definition ApplySymmetryToMatrix (self : QE_Symmetry) (matrix : nat -> nat -> R)
    (err : option (nat -> nat -> R))
    : res (QE_Symmetry * (nat -> nat -> R) * option (nat -> nat -> R)) :=
  self' ← SetupQPoint covariant_coordinates symm_base_run sgam_ph_new self zeros3;
  let sym := fun m => symmatrix m (QE_s self') (QE_nsymq self') (QE_at self') (QE_bg self') in
  let mat_f := sym matrix in
  let err' :=
    match err with
    | Some err => Some (fold_left (propagate_error sym err) positions3 err)
    | None => None
    end in
  Ok (self', mat_f, err').

End RealMatrices.

(** ** Initialisation from explicit operations *)

Definition msg_singular : string := "Singular matrix".

(** A symmetry in the CellConstructor format: a 3x4 float array, rotation
    in the first three columns, fractional translation in the last. *)
Definition symmetry : Type := nat -> nat -> Q.

Definition det3 (m : nat -> nat -> Q) : Q :=
  let e := fun i j : nat => m i j in
  let '(a, b, c) := (e 0%nat 0%nat, e 0%nat 1%nat, e 0%nat 2%nat) in
  let '(d, f, g) := (e 1%nat 0%nat, e 1%nat 1%nat, e 1%nat 2%nat) in
  let '(h, k, l) := (e 2%nat 0%nat, e 2%nat 1%nat, e 2%nat 2%nat) in
  (a * (f * l - g * k) - b * (d * l - g * h) + c * (d * k - f * h))%Q.

(** Entry [(i, j)] of the adjugate of a 3x3 array. *)
Definition adj3 (m : nat -> nat -> Q) (i j : nat) : Q :=
  let r1 := ((j + 1) mod 3)%nat in
  let r2 := ((j + 2) mod 3)%nat in
  let c1 := ((i + 1) mod 3)%nat in
  let c2 := ((i + 2) mod 3)%nat in
  (m r1 c1 * m r2 c2 - m r1 c2 * m r2 c1)%Q.

(** [np.linalg.inv(sym[:, :3])] *)
Definition linalg_inv (m : nat -> nat -> Q) : res (nat -> nat -> Q) :=
  if Qeq_bool (det3 m) 0 then Raise (LinAlgError msg_singular)
  else Ok (fun i j => (adj3 m i j / det3 m)%Q).

(** [np.sum((a - b[:, :3])**2)] *)
Definition sqdiff33 (a b : nat -> nat -> Q) : Q :=
  fold_right Qplus 0%Q
    (map (fun p : nat * nat => ((a p.1 p.2 - b p.1 p.2) * (a p.1 p.2 - b p.1 p.2))%Q) positions3).

(** [for k, other_sym in enumerate(symmetries): if ... : break], started at
    index [k]: the value of [k] when the loop is left. *)
Fixpoint inverse_search (inv_sym : nat -> nat -> Q) (symmetries : list symmetry) (k : nat) : nat :=
  match symmetries with
  | [] => (k - 1)%nat
  | other_sym :: rest =>
      if Qltb (sqdiff33 inv_sym other_sym) __EPSILON__ then k
      else inverse_search inv_sym rest (S k)
  end.

(** The lines "Get the inverse symmetry" of the loop body: the value
    stored in [QE_invs[i]]. *)
Definition inverse_index (symmetries : list symmetry) (sym : symmetry) : res Z :=
  inv_sym ← linalg_inv sym;
  Ok (Z.of_nat (inverse_search inv_sym symmetries 0) + 1)%Z.

Section InitFromSymmetries.
Variable get_reciprocal_vectors : Structure -> nat -> nat -> Q.
Variable covariant_coordinates : (nat -> nat -> Q) -> qvec -> qvec.
(** [Methods.put_into_cell(basis, vector)] *)
Variable put_into_cell : (nat -> nat -> Q) -> qvec -> qvec.
(** [aux_atoms = structure.copy(); aux_atoms.apply_symmetry(sym,
    delete_original = True); aux_atoms.fix_coords_in_unit_cell()] *)
Variable apply_symmetry : Structure -> symmetry -> Structure.
(** [structure.get_equivalent_atoms(aux_atoms)] *)
Variable get_equivalent_atoms : Structure -> Structure -> list nat.

(** Body of [for i, sym in enumerate(symmetries)]. *)
Definition init_operation (symmetries : list symmetry) (isym : nat * symmetry)
    (self : QE_Symmetry) : res QE_Symmetry :=
  let '(i, sym) := isym in
  if negb (i <? 48)%nat then Raise (IndexError msg_index_range) else
  let s' := fun a b k => if (k =? i)%nat then int_of_float (sym b a) else QE_s self a b k in
  let aux_atoms := apply_symmetry (structure self) sym in
  let eq_atoms := get_equivalent_atoms (structure self) aux_atoms in
  if negb ((length eq_atoms =? QE_nat self)%nat || (length eq_atoms =? 1)%nat)
  then Raise (ValueError msg_broadcast) else
  let irt' := fun k a =>
    if (k =? i)%nat && (a <? QE_nat self)%nat
    then (Z.of_nat (nth (if (length eq_atoms =? 1)%nat then 0 else a) eq_atoms 0%nat) + 1)%Z
    else QE_irt self k a in
  inv ← inverse_index symmetries sym;
  let invs' := fun k => if (k =? i)%nat then inv else QE_invs self k in
  let rtau' := fun a k at_ =>
    if (k =? i)%nat && (at_ <? QE_nat self)%nat then coords aux_atoms at_ a
    else QE_rtau self a k at_ in
  Ok {| structure := structure self; threshold := threshold self; QE_nat := QE_nat self;
        QE_s := s'; QE_irt := irt'; QE_invs := invs'; QE_rtau := rtau'; QE_ft := QE_ft self;
        QE_minus_q := QE_minus_q self; QE_irotmq := QE_irotmq self;
        QE_nsymq := QE_nsymq self; QE_nsym := QE_nsym self; QE_tau := QE_tau self;
        QE_ityp := QE_ityp self; QE_at := QE_at self; QE_bg := QE_bg self |}.

(** The search for the operation sending q to -q, over
    [enumerate(self.QE_s)], that is over the first axis of [QE_s]. *)
Fixpoint find_minus_q (self : QE_Symmetry) (q target : nat -> Q) (ks : list nat) : option Z :=
  match ks with
  | [] => None
  | k :: rest =>
      let new_q := fun a =>
        (inject_Z (QE_s self a 0%nat k) * q 0%nat + inject_Z (QE_s self a 1%nat k) * q 1%nat
         + inject_Z (QE_s self a 2%nat k) * q 2%nat)%Q in
      if Qltb (sqdist3 target new_q) __EPSILON__ then Some (Z.of_nat k + 1)%Z
      else find_minus_q self q target rest
  end.

(** [QE_Symmetry.InitFromSymmetries(symmetries, q_point)] *)
Definition InitFromSymmetries (self : QE_Symmetry) (symmetries : list symmetry)
    (q_point : qvec) : res QE_Symmetry :=
  let nsym := length symmetries in
  let self0 :=
    {| structure := structure self; threshold := threshold self; QE_nat := QE_nat self;
       QE_s := QE_s self; QE_irt := QE_irt self; QE_invs := QE_invs self;
       QE_rtau := QE_rtau self; QE_ft := QE_ft self;
       QE_minus_q := QE_minus_q self; QE_irotmq := QE_irotmq self;
       QE_nsymq := Z.of_nat nsym; QE_nsym := QE_nsym self; QE_tau := QE_tau self;
       QE_ityp := QE_ityp self; QE_at := QE_at self; QE_bg := QE_bg self |} in
  self1 ← for_each (imap pair symmetries) (init_operation symmetries) self0;
  let b_vectors := get_reciprocal_vectors (structure self1) in
  let q := covariant_coordinates b_vectors q_point in
  let target := vget (put_into_cell b_vectors (map Qopp q_point)) in
  match find_minus_q self1 (vget q) target (range 3) with
  | Some k =>
      Ok {| structure := structure self1; threshold := threshold self1;
            QE_nat := QE_nat self1; QE_s := QE_s self1; QE_irt := QE_irt self1;
            QE_invs := QE_invs self1; QE_rtau := QE_rtau self1; QE_ft := QE_ft self1;
            QE_minus_q := true; QE_irotmq := k;
            QE_nsymq := QE_nsymq self1; QE_nsym := QE_nsym self1;
            QE_tau := QE_tau self1; QE_ityp := QE_ityp self1;
            QE_at := QE_at self1; QE_bg := QE_bg self1 |}
  | None => Ok self1
  end.

End InitFromSymmetries.

(** ** Reading the q-star partition *)

Section QStarReading.
Variable star_q : qvec -> star_out.
Variable get_min_dist_into_cell : qvec -> qvec -> Q.
Variable thr : Q.
Variable q_tot : list qvec.

(** Input number [j]. *)
Definition qat (j : nat) : qvec := default [] (q_tot !! j).

(** The indices of the inputs that lie within the threshold of [s]. *)
Definition within (s : qvec) : list nat :=
  filter (fun j => Qltb (get_min_dist_into_cell s (qat j)) thr = true) (range (length q_tot)).

(** The inputs matched by the members of the star of [q], member by member. *)
Definition matched (q : qvec) : list nat :=
  k ← range (nq_new (star_q q)); within (sxq (star_q q) k).

(** No two inputs are closer than the threshold. *)
Definition separated : Prop :=
  forall i j qi qj, q_tot !! i = Some qi -> q_tot !! j = Some qj -> i <> j ->
    Qltb (get_min_dist_into_cell qi qj) thr = false.

(** The input list is a union of complete stars: every member of the star
    of an input lies within the threshold of exactly one input, distinct
    members match distinct inputs, every input is matched by its own star,
    and the stars of two inputs that share a match cover the same inputs. *)
Definition complete_stars : Prop :=
  forall i q, q_tot !! i = Some q ->
    (forall k, (k < nq_new (star_q q))%nat -> exists j, within (sxq (star_q q) k) = [j])
    /\ NoDup (matched q)
    /\ i ∈ matched q
    /\ (forall j q', j ∈ matched q -> q_tot !! j = Some q' ->
          forall l, l ∈ matched q' <-> l ∈ matched q).

(** Between two pops of [SetupQStar] the counter and the remaining list add
    up to the length of the input, and the index map keeps that length. *)
Definition run_inv (st : qstar_state) : Prop :=
  length (q_indices st) = length q_tot
  /\ (count_q st + length (q_list st))%nat = length q_tot.

(** [s] lies within the threshold of input [j]. *)
Definition near (s : qvec) (j : nat) : Prop :=
  Qltb (get_min_dist_into_cell s (qat j)) thr = true.

(** The state of [SetupQStar] when the inputs [rem] (by index, in order)
    are still in [q_list] and the inputs [done] have been recorded in the
    index map, in this order. *)
Definition assigned (st : qstar_state) (rem done : list nat) : Prop :=
  q_list st = qat <$> rem
  /\ done ++ rem ≡ₚ range (length q_tot)
  /\ length (q_indices st) = length q_tot
  /\ count_q st = length done
  /\ take (length done) (q_indices st) = done.

(** The remaining inputs are a union of stars. *)
Definition closed (rem : list nat) : Prop :=
  forall x q, x ∈ rem -> q_tot !! x = Some q -> forall l, l ∈ matched q -> l ∈ rem.

(** Star members recorded so far plus inputs still to be assigned. *)
Definition star_total (st : qstar_state) : nat :=
  (sum_list (length <$> q_stars st) + length (q_list st))%nat.

End QStarReading.

(** ** A concrete crystal for examples

    An orthorhombic crystal with point group mmm and q-points on the x axis
    of reciprocal space, in units of the reciprocal lattice vector: the star
    of (x, 0, 0) is (x, 0, 0), (-x, 0, 0), and a single point when -x and x
    agree modulo the reciprocal lattice within the threshold. *)

(** Distance of two points of the x axis modulo the reciprocal lattice. *)
Definition axis_dist (u v : qvec) : Q :=
  let d := (vget u 0 - vget v 0)%Q in
  Qabs (d - inject_Z (Qfloor (d + (1 # 2))))%Q.

Definition axis_star (thr : Q) (q : qvec) : star_out :=
  let mq := map Qopp q in
  if Qltb (axis_dist q mq) thr
  then {| nq_new := 1; sxq := fun _ => q; isq := []; imq := 0 |}
  else {| nq_new := 2; sxq := fun k => if (k =? 0)%nat then q else mq; isq := []; imq := 0 |}.

Definition on_axis (x : Q) : qvec := [x; 0; 0]%Q.

(** Three lists of q-points on the axis: the stars of 0 and of 1/4; a point
    with a stranger in place of its image; two points closer to each other
    than the threshold. *)
Definition toy_q_complete : list qvec := [on_axis 0; on_axis (1 # 4); on_axis (- 1 # 4)].
Definition toy_q_open : list qvec := [on_axis (9 # 20); on_axis (1 # 10)].
Definition toy_q_close : list qvec := [on_axis 0; on_axis (1 # 1000000)].

Definition toy_structure : Structure :=
  {| has_unit_cell := true; N_atoms := 1; atoms := ["H"];
     coords := fun _ _ => 0%Q;
     unit_cell := fun i j => if (i =? j)%nat then 1%Q else 0%Q |}.

(** The table [QE_Symmetry(toy_structure)] right after construction. *)
Definition toy_table : QE_Symmetry :=
  {| structure := toy_structure; threshold := __EPSILON__; QE_nat := 1;
     QE_s := fun _ _ _ => 0%Z; QE_irt := fun _ _ => 0%Z; QE_invs := fun _ => 0%Z;
     QE_rtau := fun _ _ _ => 0%Q; QE_ft := fun _ _ => 0%Q;
     QE_minus_q := false; QE_irotmq := 0; QE_nsymq := 0; QE_nsym := 0;
     QE_tau := fun j i => coords toy_structure i j; QE_ityp := [1%Z];
     QE_at := fun i j => unit_cell toy_structure j i;
     QE_bg := fun i j => (unit_cell toy_structure j i / (2 * np_pi))%Q |}.

Definition toy_covariant : (nat -> nat -> Q) -> qvec -> qvec := fun _ q => q.

(** Identity and inversion, both without translation. *)
Definition toy_symm_base :
  Q -> (nat -> nat -> Q) -> (nat -> nat -> Q) -> (nat -> nat -> Q) -> list Z -> nat -> qvec -> symm_base :=
  fun _ _ _ _ _ _ _ =>
    {| sb_s := fun a b k => if (a =? b)%nat then (if (k =? 0)%nat then 1 else -1)%Z else 0%Z;
       sb_ft := fun _ _ => 0%Q; sb_irt := fun _ _ => 1%Z;
       sb_invs := fun k => (Z.of_nat k + 1)%Z;
       sb_nrot := 2; sb_nsym := 2; sb_nsymq := 2; sb_minus_q := true |}.

Definition toy_sgam :
  (nat -> nat -> Q) -> (nat -> nat -> Q) -> Z -> (nat -> nat -> nat -> Z) ->
  (nat -> nat -> Z) -> (nat -> nat -> Q) -> nat -> nat -> nat -> nat -> Q :=
  fun _ _ _ _ _ _ _ _ _ _ => 0%Q.

Definition toy_cryst_to_cart : (nat -> nat -> Q) -> (nat -> nat -> Q) -> Z -> nat -> nat -> Q :=
  fun v _ _ => v.

Definition toy_convert : (nat -> nat -> complex) -> (nat -> nat -> Q) -> bool -> nat -> nat -> complex :=
  fun m _ _ => m.

Definition toy_symdynph :
  qvec -> cblocks -> (nat -> nat -> nat -> Z) -> (nat -> Z) -> (nat -> nat -> nat -> Q) ->
  (nat -> nat -> Z) -> Z -> bool -> Z -> nat -> cblocks :=
  fun _ d _ _ _ _ _ _ _ _ => d.

Definition toy_symvector :
  Z -> (nat -> nat -> Z) -> (nat -> nat -> nat -> Z) -> (nat -> nat -> Q) -> (nat -> nat -> Q) ->
  (nat -> nat -> Q) -> nat -> nat -> nat -> Q :=
  fun _ _ _ _ _ v _ => v.

Definition toy_star_q :
  qvec -> (nat -> nat -> Q) -> (nat -> nat -> Q) -> Z -> (nat -> nat -> nat -> Z) -> (nat -> Z) ->
  star_out :=
  fun q _ _ _ _ _ => axis_star __EPSILON__ q.

(** The inversion leaves the force constants of a one-atom crystal as they
    are and sends the matrix at q to the matrix at -q. *)
Definition toy_q2qstar :
  cmatrix -> (nat -> nat -> Q) -> (nat -> nat -> Q) -> Z -> (nat -> nat -> nat -> Z) ->
  (nat -> Z) -> (nat -> nat -> Z) -> (nat -> nat -> nat -> Q) -> star_out -> nat ->
  nat -> cblocks :=
  fun m _ _ _ _ _ _ _ _ _ _ a b xat yat => m (3 * xat + a)%nat (3 * yat + b)%nat.

Definition toy_dist : (nat -> nat -> Q) -> qvec -> qvec -> Q := fun _ => axis_dist.

Definition toy_fc (x : Q) : cmatrix := fun r c => if (r =? c)%nat then (x, 0%Q) else c0.

(** A stack of two matrices, the star of 1/4, and a list that is no star:
    1/2 is its own star. *)
Definition toy_stack : list cmatrix := [toy_fc 1; toy_fc 3].
Definition toy_star_pair : list qvec := [on_axis (1 # 4); on_axis (- 1 # 4)].
Definition toy_star_wrong : list qvec := [on_axis (9 # 20); on_axis (1 # 2)].

(** The table after [toy_table.SetupQPoint()]. *)
Definition toy_discovered : QE_Symmetry :=
  match SetupQPoint toy_covariant toy_symm_base toy_sgam toy_table zeros3 with
  | Ok t => t
  | Raise _ => toy_table
  end.

(** Averaging over the cubic point group keeps the trace part only. *)
Definition toy_symmatrix :
  (nat -> nat -> R) -> (nat -> nat -> nat -> Z) -> Z -> (nat -> nat -> Q) -> (nat -> nat -> Q) ->
  nat -> nat -> R :=
  fun m _ _ _ _ i j =>
    if (i =? j)%nat then ((m 0%nat 0%nat + m 1%nat 1%nat + m 2%nat 2%nat) / 3)%R else 0%R.

(** The simple sum rule on the force constants; the effective charges are
    made to sum to zero over the atoms. *)
Definition toy_set_asr :
  string -> Z -> (nat -> nat -> Q) -> (nat -> nat -> nat -> nat -> R) -> zeu_array ->
  (nat -> nat -> nat -> nat -> R) * zeu_array :=
  fun _ _ _ fc zeu => (fc, fun a b na => (zeu a b na - zeu a b 0%nat)%R).

(** A one-atom cubic cell with unit lattice constant: the reciprocal
    vectors are 2 pi times the unit vectors, nothing moves under a
    symmetry, and a q-point is its own crystal coordinates. *)
Definition toy_reciprocal : Structure -> nat -> nat -> Q :=
  fun st i j => (2 * np_pi * unit_cell st i j)%Q.
Definition toy_apply_symmetry : Structure -> (nat -> nat -> Q) -> Structure := fun st _ => st.
Definition toy_equivalent_atoms : Structure -> Structure -> list nat := fun _ _ => [0%nat].
Definition toy_put_into_cell : (nat -> nat -> Q) -> qvec -> qvec := fun _ q => q.

(** An error tensor and an effective-charge array. *)
Definition toy_err : nat -> nat -> R := fun i j => (INR i + 2 * INR j + 1)%R.
Definition toy_zeu : zeu_array := fun na a b => (INR a + 2 * INR b + 1)%R.

Definition of_rows (rows : list (list Q)) : nat -> nat -> Q :=
  fun i j => nth j (nth i rows []) 0%Q.

(** The identity and the rotation by a quarter turn about z. *)
Definition sym_identity : symmetry := of_rows [[1; 0; 0; 0]; [0; 1; 0; 0]; [0; 0; 1; 0]]%Q.
Definition sym_c4z : symmetry := of_rows [[0; -1; 0; 0]; [1; 0; 0; 0]; [0; 0; 1; 0]]%Q.
Definition sym_c4z_inv : symmetry := of_rows [[0; 1; 0; 0]; [-1; 0; 0; 0]; [0; 0; 1; 0]]%Q.

Definition array3 (x : R) : ndarray2 :=
  {| shape0 := 3; shape1 := 3; entry := fun _ _ => x |}.
Definition array_empty : ndarray2 :=
  {| shape0 := 0; shape1 := 0; entry := fun _ _ => 0%R |}.
Definition array_2x3 : ndarray2 :=
  {| shape0 := 2; shape1 := 3; entry := fun _ _ => 0%R |}.
Definition array_4x4 : ndarray2 :=
  {| shape0 := 4; shape1 := 4; entry := fun _ _ => 0%R |}.


(** ** The grid of q-points of a supercell *)

Definition msg_q_twice : string := "Error, q point found twice.".

(** [np.tile(supercell_size, (3, 1)).transpose() * unit_cell] *)
Definition supercell_of (supercell_size : nat -> Z) (unit_cell : nat -> nat -> Q)
    : nat -> nat -> Q :=
  fun i j => (inject_Z (supercell_size i) * unit_cell i j)%Q.

(** [n_s.dot(bg_s)] for a vector of three components and a (3, 3) array. *)
Definition vec_dot (n_s : nat -> Q) (bg_s : nat -> nat -> Q) : qvec :=
  map (fun j => (n_s 0%nat * bg_s 0%nat j + n_s 1%nat * bg_s 1%nat j
                 + n_s 2%nat * bg_s 2%nat j)%Q)
      (range 3).

(** The index triples of the loops over [ix], [iy], [iz]. *)
Definition grid_triples (supercell_size : nat -> Z) : list (nat * nat * nat) :=
  ix ← range (Z.to_nat (supercell_size 0%nat));
  iy ← range (Z.to_nat (supercell_size 1%nat));
  iz ← range (Z.to_nat (supercell_size 2%nat));
  [(ix, iy, iz)].

Section QGrid.
(** [Methods.get_reciprocal_vectors(unit_cell)], which may raise. *)
Variable get_reciprocal_vectors : (nat -> nat -> Q) -> res (nat -> nat -> Q).
(** [Methods.put_into_cell(basis, vector)] *)
Variable put_into_cell : (nat -> nat -> Q) -> qvec -> qvec.
Variable get_min_dist_into_cell : (nat -> nat -> Q) -> qvec -> qvec -> Q.

(** [n_s = np.array([ix, iy, iz]); q_vect = n_s.dot(bg_s);
    q_vect = Methods.put_into_cell(bg, q_vect)] *)
Definition grid_point (bg bg_s : nat -> nat -> Q) (n : nat * nat * nat) : qvec :=
  let '(ix, iy, iz) := n in
  let n_s := fun i => inject_Z (Z.of_nat (nth i [ix; iy; iz] 0%nat)) in
  put_into_cell bg (vec_dot n_s bg_s).

(** Body of [for q in q_list], which raises on a point already present. *)
Definition check_new_point (bg : nat -> nat -> Q) (q_vect q : qvec) (_ : unit) : res unit :=
  if Qltb (get_min_dist_into_cell bg q_vect q) __EPSILON__
  then Raise (ValueError msg_q_twice)
  else Ok ().

(** Body of the innermost loop over [iz]. *)
Definition grid_step (bg bg_s : nat -> nat -> Q) (n : nat * nat * nat) (q_list : list qvec)
    : res (list qvec) :=
  let q_vect := grid_point bg bg_s n in
  _ ← for_each q_list (check_new_point bg q_vect) ();
  Ok (q_list ++ [q_vect]).

(** [GetQGrid(unit_cell, supercell_size)] *)
Definition GetQGrid (unit_cell : nat -> nat -> Q) (supercell_size : nat -> Z)
    : res (list qvec) :=
  bg ← get_reciprocal_vectors unit_cell;
  let supercell := supercell_of supercell_size unit_cell in
  bg_s ← get_reciprocal_vectors supercell;
  for_each (grid_triples supercell_size) (grid_step bg bg_s) [].

(** [for jq, qnew in enumerate(correct_q): if ... < __EPSILON__: ...; break],
    started at index [jq]: the index at which the loop breaks, if it does. *)
Fixpoint first_match (bg : nat -> nat -> Q) (q : qvec) (correct_q : list qvec) (jq : nat)
    : option nat :=
  match correct_q with
  | [] => None
  | qnew :: rest =>
      if Qltb (get_min_dist_into_cell bg q qnew) __EPSILON__ then Some jq
      else first_match bg q rest (S jq)
  end.

(** Body of [for iq, q in enumerate(q_list)]: [correct_q.pop(jq)] at the
    first grid point within the tolerance of [q]. *)
Definition strike_out (bg : nat -> nat -> Q) (correct_q : list qvec) (q : qvec) : list qvec :=
  match first_match bg q correct_q 0 with
  | Some jq => delete jq correct_q
  | None => correct_q
  end.

(** [CheckSupercellQ(unit_cell, supercell_size, q_list)] *)
Definition CheckSupercellQ (unit_cell : nat -> nat -> Q) (supercell_size : nat -> Z)
    (q_list : list qvec) : res bool :=
  correct_q ← GetQGrid unit_cell supercell_size;
  bg ← get_reciprocal_vectors unit_cell;
  let correct_q := fold_left (strike_out bg) q_list correct_q in
  if (0 <? length correct_q)%nat then Ok false else Ok true.

(** The points of the grid in the order of the loops, and the test that
    no point lies within the tolerance of an earlier one. *)
Definition grid_points (bg bg_s : nat -> nat -> Q) (supercell_size : nat -> Z) : list qvec :=
  grid_point bg bg_s <$> grid_triples supercell_size.

Definition no_point_twice (bg : nat -> nat -> Q) (qs : list qvec) : Prop :=
  forall i j qi qj, (i < j)%nat -> qs !! i = Some qi -> qs !! j = Some qj ->
    Qltb (get_min_dist_into_cell bg qj qi) __EPSILON__ = false.

(** No point of [pts] lies within the tolerance of a point before it in
    [acc ++ pts]. *)
Definition fresh_points (bg : nat -> nat -> Q) (acc pts : list qvec) : Prop :=
  forall i j qi qj, (i < j)%nat -> (length acc <= j)%nat ->
    (acc ++ pts) !! i = Some qi -> (acc ++ pts) !! j = Some qj ->
    Qltb (get_min_dist_into_cell bg qj qi) __EPSILON__ = false.

End QGrid.

(** ** Operations in the format of spglib *)

(** The values of the dictionary that [spglib.get_symmetry] returns: an
    (n, 3, 3) array of integers or an (n, 3) array of floats. *)
Inductive spglib_value : Type :=
| IntArray3 (a : list (nat -> nat -> Z))
| FloatArray2 (a : list (nat -> Q)).

Definition msg_no_translations : string :=
  "Error, your symmetry dict has no 'translations' key.".
Definition msg_no_rotations : string :=
  "Error, your symmetry dict has no 'rotations' key.".
Definition msg_too_many_indices : string := "too many indices for array".
Definition msg_broadcast_33 : string :=
  "could not broadcast input array from shape (3,3) into shape (3)".

(** [np.shape(a)[0]] *)
Definition spglib_shape0 (v : spglib_value) : nat :=
  match v with
  | IntArray3 a => length a
  | FloatArray2 a => length a
  end.

(** [sym[:, :3] = rotations[i, :, :]]: the block written. *)
Definition rotation_at (rotations : spglib_value) (i : nat) : res (nat -> nat -> Q) :=
  match rotations with
  | IntArray3 a => r ← getitem a i; Ok (fun x y => inject_Z (r x y))
  | FloatArray2 _ => Raise (IndexError msg_too_many_indices)
  end.

(** [sym[:, 3] = translations[i, :]]: the column written. *)
Definition translation_at (translations : spglib_value) (i : nat) : res (nat -> Q) :=
  match translations with
  | FloatArray2 a => getitem a i
  | IntArray3 a => _ ← getitem a i; Raise (ValueError msg_broadcast_33)
  end.

(** [x *= 2; x = np.floor(x + .5); x *= .5; x = x % 1] *)
Definition regolarize_entry (x : Q) : Q :=
  let x := (x * 2)%Q in
  let x := inject_Z (Qfloor (x + (1 # 2))) in
  let x := (x * (1 # 2))%Q in
  (x - inject_Z (Qfloor x))%Q.

(** Body of [for i in range(n_sym)]. *)
Definition spglib_step (rotations translations : spglib_value) (regolarize : bool) (i : nat)
    (out_sym : list symmetry) : res (list symmetry) :=
  rot ← rotation_at rotations i;
  tr ← translation_at translations i;
  let tr := if regolarize then fun a => regolarize_entry (tr a) else tr in
  let sym : symmetry := fun a b => if (b <? 3)%nat then rot a b else tr a in
  Ok (out_sym ++ [sym]).

(** [GetSymmetriesFromSPGLIB(spglib_sym, regolarize)] *)
Definition GetSymmetriesFromSPGLIB (spglib_sym : gmap string spglib_value) (regolarize : bool)
    : res (list symmetry) :=
  match spglib_sym !! "translations" with
  | None => Raise (ValueError msg_no_translations)
  | Some translations =>
      match spglib_sym !! "rotations" with
      | None => Raise (ValueError msg_no_rotations)
      | Some rotations =>
          let n_sym := spglib_shape0 translations in
          for_each (range n_sym) (spglib_step rotations translations regolarize) []
      end
  end.

(** ** Reading the table *)

(** The test of the search for [QE_irotmq] in [SetupQPoint]: the operation
    sends the q-point, folded into the first cell, to itself. *)
Definition sends_to_itself (aq : nat -> Q) (sym : nat -> nat -> Q) : bool :=
  Qltb (sqdist3 (fun i => fix_in_BZ (rot_dot sym aq i)) aq) __EPSILON__.

(** The index that [ForceSymmetry] computes for atom [i] under operation
    [s_i] addresses a column of an array of [n] columns. *)
Definition column_ok (self : QE_Symmetry) (n s_i i : nat) : Prop :=
  (- Z.of_nat n <= QE_irt self s_i i - 1 < Z.of_nat n)%Z.

(** ** More of the concrete crystal *)

(** Reciprocal vectors of an orthogonal cell in units of 2 pi; no set
    exists for a cell with a vanishing edge. *)
Definition toy_cell_reciprocal (cell : nat -> nat -> Q) : res (nat -> nat -> Q) :=
  if Qeq_bool (cell 0%nat 0%nat * cell 1%nat 1%nat * cell 2%nat 2%nat) 0
  then Raise (LinAlgError msg_singular)
  else Ok (fun i j => if (i =? j)%nat then (/ cell i i)%Q else 0%Q).

Definition toy_cell : nat -> nat -> Q := fun i j => if (i =? j)%nat then 1%Q else 0%Q.

(** Two cells along x, one along y and z. *)
Definition toy_size : nat -> Z := fun i => if (i =? 0)%nat then 2%Z else 1%Z.

(** What spglib returns for a group of two operations: the identity and a
    twofold screw rotation about z, its translation off by a rounding
    error. *)
Definition toy_rotations : list (nat -> nat -> Z) :=
  [ (fun i j => if (i =? j)%nat then 1%Z else 0%Z);
    (fun i j => if (i =? j)%nat then (if (i =? 2)%nat then 1%Z else (-1)%Z) else 0%Z) ].
Definition toy_translations : list (nat -> Q) :=
  [ (fun _ => 0%Q); (fun i => if (i =? 2)%nat then (49999 # 100000)%Q else 0%Q) ].
Definition toy_spglib : gmap string spglib_value :=
  {[ "rotations" := IntArray3 toy_rotations; "translations" := FloatArray2 toy_translations ]}.

(** A structure of three atoms of two species. *)
Definition toy_water : Structure :=
  {| has_unit_cell := true; N_atoms := 3; atoms := ["H"; "O"; "H"];
     coords := fun _ _ => 0%Q;
     unit_cell := fun i j => if (i =? j)%nat then 1%Q else 0%Q |}.
(* ================================================================== *)
(** * Properties *)
(** ** Run-time lemmas *)

Lemma Qltb_lt (x y : Q) : Qltb x y = true <-> (x < y)%Q.
Proof.
  unfold Qltb. rewrite negb_true_iff. split.
  - intros H. apply Qnot_le_lt. intros Hle. apply Qle_bool_iff in Hle. congruence.
  - intros H. destruct (Qle_bool y x) eqn:E; [|done].
    apply Qle_bool_iff in E. exfalso. by apply (Qlt_not_le x y).
Qed.

Lemma Qltb_ge (x y : Q) : Qltb x y = false <-> (y <= x)%Q.
Proof.
  unfold Qltb. rewrite negb_false_iff. apply Qle_bool_iff.
Qed.

Lemma for_each_app {A S} (xs ys : list A) (body : A -> S -> res S) (s : S) :
  for_each (xs ++ ys) body s = s' ← for_each xs body s; for_each ys body s'.
Proof.
  revert s. induction xs as [|x xs IH]; intros s; simpl; [done|].
  destruct (body x s) as [s1|e]; simpl; [apply IH|done].
Qed.

Lemma range_S (n : nat) : range (S n) = range n ++ [n].
Proof. unfold range. by rewrite seq_S. Qed.

Lemma argmin_aux_nil (l : list Q) : argmin_aux l = None <-> l = [].
Proof.
  destruct l as [|x l]; simpl; [done|].
  split; [|done]. destruct (argmin_aux l) as [[i m]|]; [|done].
  by destruct (Qle_bool x m).
Qed.

Lemma argmin_aux_spec (l : list Q) (i : nat) (m : Q) :
  argmin_aux l = Some (i, m) ->
  l !! i = Some m
  /\ (forall j y, l !! j = Some y -> (m <= y)%Q)
  /\ (forall j y, (j < i)%nat -> l !! j = Some y -> (m < y)%Q).
Proof.
  revert i m. induction l as [|x l IH]; intros i m; simpl; [done|].
  destruct (argmin_aux l) as [[i' m']|] eqn:E.
  - destruct (IH i' m' eq_refl) as (Hi & Hle & Hlt).
    destruct (Qle_bool x m') eqn:C; intros [= <- <-].
    + apply Qle_bool_iff in C. split_and!; [done| |intros; lia].
      intros [|j] y Hy; simpl in Hy.
      * injection Hy as <-. apply Qle_refl.
      * eapply Qle_trans; [exact C|]. by eapply Hle.
    + assert (m' < x)%Q as Hx.
      { apply Qnot_le_lt. intros Hc. apply Qle_bool_iff in Hc. congruence. }
      split_and!; [done| |].
      * intros [|j] y Hy; simpl in Hy.
        -- injection Hy as <-. by apply Qlt_le_weak.
        -- by eapply Hle.
      * intros [|j] y Hj Hy; simpl in Hy.
        -- by injection Hy as <-.
        -- eapply Hlt; [|done]. lia.
  - apply argmin_aux_nil in E as ->. intros [= <- <-].
    split_and!; [done| |intros; lia].
    intros [|j] y Hy; simpl in Hy; [|done]. injection Hy as <-. apply Qle_refl.
Qed.

Lemma argmin_Ok (l : list Q) (i : nat) :
  argmin l = Ok i -> exists m, argmin_aux l = Some (i, m).
Proof.
  unfold argmin. destruct (argmin_aux l) as [[i' m]|]; [|done].
  intros [= <-]. by exists m.
Qed.

Lemma argmin_cons_Ok (x : Q) (l : list Q) : exists i, argmin (x :: l) = Ok i.
Proof.
  unfold argmin. destruct (argmin_aux (x :: l)) as [[i m]|] eqn:E; [by exists i|].
  by apply argmin_aux_nil in E.
Qed.

Lemma argmin_lt_length (l : list Q) (i : nat) : argmin l = Ok i -> (i < length l)%nat.
Proof.
  intros [m Hm]%argmin_Ok. apply argmin_aux_spec in Hm as (Hi & _).
  by apply lookup_lt_Some in Hi.
Qed.

(** [argmin] finds an entry below a bound that every other entry reaches. *)
Lemma argmin_unique (l : list Q) (p : nat) (x t : Q) :
  l !! p = Some x -> (x < t)%Q ->
  (forall p' y, p' <> p -> l !! p' = Some y -> (t <= y)%Q) ->
  argmin l = Ok p.
Proof.
  intros Hp Hx Hothers. unfold argmin.
  destruct (argmin_aux l) as [[i m]|] eqn:E.
  - f_equal. apply argmin_aux_spec in E as (Hi & Hle & _).
    destruct (decide (i = p)) as [|Hne]; [done|].
    pose proof (Hothers i m Hne Hi) as H1. pose proof (Hle p x Hp) as H2.
    exfalso. apply (Qlt_not_le x t Hx). by eapply Qle_trans.
  - apply argmin_aux_nil in E. by subst.
Qed.

(** [argmin] returns the first of the nearest entries. *)
Lemma argmin_least (l : list Q) (i : nat) :
  argmin l = Ok i ->
  exists m, l !! i = Some m
    /\ (forall y, y ∈ l -> (m <= y)%Q)
    /\ (forall j y, (j < i)%nat -> l !! j = Some y -> (m < y)%Q).
Proof.
  intros [m Hm]%argmin_Ok. apply argmin_aux_spec in Hm as (Hi & Hle & Hlt).
  exists m. split_and!; [done| |done]. intros y [j Hj]%list_elem_of_lookup. by eapply Hle.
Qed.

(** ** The partition into stars: what every run satisfies *)

Section QStarRun.
Variable star_q : qvec -> star_out.
Variable get_min_dist_into_cell : qvec -> qvec -> Q.
Variable q_tot : list qvec.

Local Abbreviation member := (pop_star_member get_min_dist_into_cell q_tot).
Local Abbreviation step := (star_step star_q get_min_dist_into_cell q_tot).
Local Abbreviation loop := (SetupQStar_loop star_q get_min_dist_into_cell).

Lemma member_Ok (s : star_out) (jq : nat) (st st' : qstar_state) :
  member s jq st = Ok st' ->
  exists p j,
    argmin (map (get_min_dist_into_cell (sxq s jq)) (q_list st)) = Ok p
    /\ argmin (map (get_min_dist_into_cell (sxq s jq)) q_tot) = Ok j
    /\ (count_q st < length (q_indices st))%nat
    /\ st' = {| q_list := delete p (q_list st); q_stars := q_stars st;
                count_q := S (count_q st);
                q_indices := <[ count_q st := j ]> (q_indices st) |}.
Proof.
  unfold pop_star_member.
  destruct (argmin (map _ (q_list st))) as [p|e] eqn:Ep; simpl; [|done].
  unfold pop. case_decide; simpl; [|done].
  destruct (argmin (map _ q_tot)) as [j|e] eqn:Ej; simpl; [|done].
  unfold setitem. case_decide; simpl; [|done].
  intros [= <-]. by exists p, j.
Qed.

Lemma member_run (s : star_out) (jq : nat) (st : qstar_state) :
  run_inv q_tot st ->
  match member s jq st with
  | Ok st' => run_inv q_tot st' /\ S (length (q_list st')) = length (q_list st)
              /\ q_stars st' = q_stars st
  | Raise e => e = ValueError msg_argmin_empty /\ q_list st = []
  end.
Proof.
  intros [Hlen Hcount].
  destruct (member s jq st) as [st'|e] eqn:E.
  - apply member_Ok in E as (p & j & Hp & Hj & Hc & ->). simpl.
    apply argmin_lt_length in Hp. rewrite length_map in Hp.
    unfold run_inv; simpl. rewrite length_insert, length_delete by (by apply lookup_lt_is_Some).
    split_and!; [done|lia|lia|done].
  - revert E. unfold pop_star_member.
    destruct (q_list st) as [|q ql] eqn:El.
    { simpl. by intros [= <-]. }
    destruct (argmin_cons_Ok (get_min_dist_into_cell (sxq s jq) q)
                (map (get_min_dist_into_cell (sxq s jq)) ql)) as [p Hp].
    simpl map. rewrite Hp. simpl.
    apply argmin_lt_length in Hp. simpl in Hp. rewrite length_map in Hp.
    unfold pop. rewrite decide_True by (simpl; lia). simpl.
    destruct q_tot as [|q0 qt] eqn:Et.
    { simpl in Hcount. lia. }
    destruct (argmin_cons_Ok (get_min_dist_into_cell (sxq s jq) q0)
                (map (get_min_dist_into_cell (sxq s jq)) qt)) as [j Hj].
    simpl map. rewrite Hj. simpl.
    unfold setitem. rewrite decide_True; [done|].
    rewrite Hlen. simpl in *. lia.
Qed.

Lemma members_run (s : star_out) (ks : list nat) (st : qstar_state) :
  run_inv q_tot st ->
  match for_each ks (member s) st with
  | Ok st' => run_inv q_tot st' /\ (length (q_list st') + length ks)%nat = length (q_list st)
              /\ q_stars st' = q_stars st
  | Raise e => e = ValueError msg_argmin_empty
  end.
Proof.
  revert st. induction ks as [|k ks IH]; intros st Hinv; simpl.
  { split_and!; [done|lia|done]. }
  pose proof (member_run s k st Hinv) as Hm.
  destruct (member s k st) as [st1|e]; simpl; [|by destruct Hm].
  destruct Hm as (Hinv1 & Hlen1 & Hst1). specialize (IH st1 Hinv1).
  destruct (for_each ks (member s) st1) as [st'|e]; [|done].
  destruct IH as (? & ? & ?). split_and!; [done|lia|congruence].
Qed.

Lemma step_run (q : qvec) (st : qstar_state) :
  run_inv q_tot st ->
  match step q st with
  | Ok st' => run_inv q_tot st' /\ star_total st' = star_total st
              /\ (length (q_list st') + nq_new (star_q q))%nat = length (q_list st)
  | Raise e => e = ValueError msg_argmin_empty
  end.
Proof.
  intros Hinv. unfold star_step.
  set (st1 := {| q_list := q_list st; q_stars := q_stars st ++ [star_members (star_q q)];
                 count_q := count_q st; q_indices := q_indices st |}).
  assert (run_inv q_tot st1) as Hinv1 by done.
  pose proof (members_run (star_q q) (range (nq_new (star_q q))) st1 Hinv1) as Hm.
  destruct (for_each _ _ st1) as [st'|e]; [|done].
  destruct Hm as (Hinv' & Hlen & Hstars). unfold range in Hlen. rewrite length_seq in Hlen.
  split_and!; [done| |done].
  unfold star_total. rewrite Hstars. simpl.
  rewrite fmap_app, sum_list_with_app. simpl.
  unfold star_members, range. rewrite length_map, length_seq. simpl in Hlen. lia.
Qed.

Lemma loop_run (fuel : nat) (st : qstar_state) :
  run_inv q_tot st ->
  match loop fuel q_tot st with
  | Some (Ok (stars, idx)) =>
      sum_list (length <$> stars) = star_total st /\ length idx = length q_tot
  | Some (Raise e) => e = ValueError msg_argmin_empty
  | None => True
  end.
Proof.
  revert st. induction fuel as [|fuel IH]; intros st Hinv; simpl.
  - destruct (q_list st) eqn:E; [|done].
    unfold star_total. rewrite E. simpl. split; [lia|apply Hinv].
  - destruct (q_list st) as [|q ql] eqn:E.
    { unfold star_total. rewrite E. simpl. split; [lia|apply Hinv]. }
    pose proof (step_run q st Hinv) as Hs.
    destruct (step q st) as [st'|e]; [|done].
    destruct Hs as (Hinv' & Htot & _). specialize (IH st' Hinv').
    destruct (loop fuel q_tot st') as [[[stars idx]|e]|]; [|done|done].
    by rewrite <- Htot.
Qed.

Lemma init_run : run_inv q_tot (SetupQStar_init q_tot).
Proof. unfold run_inv. simpl. by rewrite length_replicate. Qed.

(** Whenever the partition returns, the sizes of the stars add up to the
    number of inputs; the only exception it can raise is the one of
    [np.argmin] on an exhausted list. *)
Lemma SetupQStar_outcome (fuel : nat) :
  match SetupQStar_fuel star_q get_min_dist_into_cell fuel q_tot with
  | Some (Ok (stars, idx)) =>
      sum_list (length <$> stars) = length q_tot /\ length idx = length q_tot
  | Some (Raise e) => e = ValueError msg_argmin_empty
  | None => True
  end.
Proof.
  unfold SetupQStar_fuel. pose proof (loop_run fuel _ init_run) as H.
  destruct (loop fuel q_tot _) as [[[stars idx]|e]|]; [|done|done].
  destruct H as [H1 H2]. split; [|done]. rewrite H1. unfold star_total. simpl. lia.
Qed.

End QStarRun.

(** ** The partition into stars of a list made of complete stars *)

Section QStarComplete.
Variable star_q : qvec -> star_out.
Variable get_min_dist_into_cell : qvec -> qvec -> Q.
Variable thr : Q.
Variable q_tot : list qvec.

Local Abbreviation member := (pop_star_member get_min_dist_into_cell q_tot).
Local Abbreviation step := (star_step star_q get_min_dist_into_cell q_tot).
Local Abbreviation loop := (SetupQStar_loop star_q get_min_dist_into_cell).
Local Abbreviation npts := (length q_tot).
Local Abbreviation qat' := (qat q_tot).
Local Abbreviation within' := (within get_min_dist_into_cell thr q_tot).
Local Abbreviation matched' := (matched star_q get_min_dist_into_cell thr q_tot).
Local Abbreviation near' := (near get_min_dist_into_cell thr q_tot).
Local Abbreviation assigned' := (assigned q_tot).
Local Abbreviation closed' := (closed star_q get_min_dist_into_cell thr q_tot).

Lemma qat_lookup (j : nat) : (j < npts)%nat -> q_tot !! j = Some (qat' j).
Proof.
  intros Hj. unfold qat. destruct (q_tot !! j) eqn:E; [done|].
  apply lookup_ge_None in E. lia.
Qed.

Lemma within_singleton (s : qvec) (j : nat) :
  within' s = [j] ->
  (j < npts)%nat /\ near' s j
  /\ forall j', (j' < npts)%nat -> j' <> j -> (thr <= get_min_dist_into_cell s (qat' j'))%Q.
Proof.
  intros Hw.
  assert (j ∈ within' s) as Hj by (rewrite Hw; apply list_elem_of_here).
  apply list_elem_of_filter in Hj as [Hnear Hin].
  apply elem_of_seq in Hin. split_and!; [lia|done|].
  intros j' Hj' Hne. apply Qltb_ge.
  destruct (Qltb (get_min_dist_into_cell s (qat' j')) thr) eqn:E; [|done].
  exfalso. apply Hne.
  assert (j' ∈ within' s) as H'.
  { apply list_elem_of_filter. split; [done|]. apply elem_of_seq. lia. }
  rewrite Hw in H'. by apply list_elem_of_singleton in H'.
Qed.

Lemma assigned_facts (st : qstar_state) (rem done : list nat) :
  assigned' st rem done ->
  NoDup rem /\ (forall x, x ∈ rem -> (x < npts)%nat) /\ (length done + length rem)%nat = npts
  /\ (forall x, x ∈ rem -> x ∉ done).
Proof.
  intros (_ & Hperm & _).
  assert (NoDup (done ++ rem)) as Hnd.
  { rewrite Hperm. apply NoDup_seq. }
  apply NoDup_app in Hnd as (_ & Hdisj & Hnd).
  split_and!; [done| | |].
  - intros x Hx. assert (x ∈ range npts) as Hin.
    { rewrite <- Hperm. apply elem_of_app. by right. }
    apply elem_of_seq in Hin. lia.
  - apply Permutation_length in Hperm. rewrite length_app in Hperm.
    unfold range in Hperm. by rewrite length_seq in Hperm.
  - intros x Hx Hd. by apply (Hdisj x).
Qed.

(** A star member with exactly one input within the threshold pops that
    input and records its index. *)
Lemma member_match (s : star_out) (k : nat) (st : qstar_state) (rem done : list nat) (j : nat) :
  assigned' st rem done -> within' (sxq s k) = [j] -> j ∈ rem ->
  exists p st',
    rem !! p = Some j
    /\ member s k st = Ok st'
    /\ assigned' st' (delete p rem) (done ++ [j])
    /\ q_stars st' = q_stars st.
Proof.
  intros Ha Hw Hj.
  destruct (assigned_facts _ _ _ Ha) as (Hnd & Hlt & Hlen & _).
  destruct Ha as (Hql & Hperm & Hqi & Hcq & Htake).
  destruct (within_singleton _ _ Hw) as (HjN & Hnear & Hfar).
  apply Qltb_lt in Hnear.
  apply list_elem_of_lookup in Hj as [p Hp].
  assert (argmin (map (get_min_dist_into_cell (sxq s k)) (q_list st)) = Ok p) as Hpop.
  { apply (argmin_unique _ p (get_min_dist_into_cell (sxq s k) (qat' j)) thr); [|done|].
    - rewrite Hql. change map with (@fmap list _). by rewrite !list_lookup_fmap, Hp.
    - intros p' y Hne. rewrite Hql. change map with (@fmap list _).
      rewrite !list_lookup_fmap. destruct (rem !! p') as [j'|] eqn:E; [|done].
      simpl. intros [= <-]. apply Hfar.
      + apply Hlt. by eapply list_elem_of_lookup_2.
      + intros ->. apply Hne. by eapply NoDup_lookup. }
  assert (argmin (map (get_min_dist_into_cell (sxq s k)) q_tot) = Ok j) as Hidx.
  { apply (argmin_unique _ j (get_min_dist_into_cell (sxq s k) (qat' j)) thr); [|done|].
    - change map with (@fmap list _). by rewrite list_lookup_fmap, qat_lookup.
    - intros j' y Hne. change map with (@fmap list _). rewrite list_lookup_fmap.
      destruct (q_tot !! j') as [q'|] eqn:E; [|done]. simpl. intros [= <-].
      assert (j' < npts)%nat as Hj' by (by eapply lookup_lt_Some).
      rewrite (qat_lookup j' Hj') in E. injection E as <-. by apply Hfar. }
  assert (p < length rem)%nat as Hplen by (by eapply lookup_lt_Some).
  exists p. eexists. split; [done|].
  unfold pop_star_member. rewrite Hpop. simpl.
  unfold pop. rewrite decide_True by (rewrite Hql, length_fmap; lia). simpl.
  rewrite Hidx. simpl.
  unfold setitem. rewrite decide_True by lia. simpl.
  split; [done|]. split; [|done].
  unfold assigned; simpl. split_and!.
  - by rewrite Hql, list_fmap_delete.
  - rewrite <- Hperm, <- app_assoc. apply Permutation_app_head. simpl.
    symmetry. by apply delete_Permutation.
  - by rewrite length_insert.
  - rewrite length_app. simpl. lia.
  - rewrite length_app. simpl. rewrite Nat.add_1_r, Hcq.
    rewrite (take_S_r _ _ j) by (apply list_lookup_insert_eq; lia).
    by rewrite take_insert_ge, Htake by lia.
Qed.

Lemma members_match (s : star_out) (ks js : list nat) (st : qstar_state) (rem done : list nat) :
  Forall2 (fun k j => within' (sxq s k) = [j]) ks js ->
  NoDup js -> (forall j, j ∈ js -> j ∈ rem) ->
  assigned' st rem done ->
  exists st' rem',
    for_each ks (member s) st = Ok st'
    /\ assigned' st' rem' (done ++ js)
    /\ (forall x, x ∈ rem' <-> x ∈ rem /\ x ∉ js)
    /\ q_stars st' = q_stars st.
Proof.
  intros HF. revert st rem done.
  induction HF as [|k j ks js Hkj HF IH]; intros st rem done Hnd Hsub Ha.
  { exists st, rem. rewrite app_nil_r. split_and!; [done|done| |done].
    intros x. split; [|tauto]. intros Hx. split; [done|]. apply not_elem_of_nil. }
  apply NoDup_cons in Hnd as [Hj Hnd].
  destruct (member_match s k st rem done j Ha Hkj) as (p & st1 & Hp & Hm & Ha1 & Hs1).
  { apply Hsub. apply list_elem_of_here. }
  destruct (assigned_facts _ _ _ Ha) as (Hndrem & _).
  pose proof (delete_Permutation _ _ _ Hp) as Hperm.
  assert (forall x, x ∈ delete p rem <-> x ∈ rem /\ x <> j) as Hdel.
  { intros x. rewrite (elem_of_Permutation_proper _ _ _ Hperm), elem_of_cons.
    rewrite Hperm in Hndrem. apply NoDup_cons in Hndrem as [Hnj _].
    split; [|intros [[->|?] ?]; done].
    intros Hx. split; [by right|]. by intros ->. }
  destruct (IH st1 (delete p rem) (done ++ [j]) Hnd) as (st' & rem' & Hfor & Ha' & Hrem' & Hs');
    [|done|].
  { intros x Hx. apply Hdel. split; [apply Hsub; by apply list_elem_of_further|].
    by intros ->. }
  exists st', rem'. simpl. rewrite Hm. simpl. split_and!; [done| | |congruence].
  - by rewrite <- app_assoc in Ha'.
  - intros x. rewrite Hrem', Hdel, not_elem_of_cons. tauto.
Qed.

Lemma matched_members (s : star_out) (ks : list nat) :
  (forall k, k ∈ ks -> exists j, within' (sxq s k) = [j]) ->
  exists js, Forall2 (fun k j => within' (sxq s k) = [j]) ks js
             /\ (k ← ks; within' (sxq s k)) = js.
Proof.
  induction ks as [|k ks IH]; intros H.
  { exists []. by split. }
  destruct (H k) as [j Hj]; [apply list_elem_of_here|].
  destruct IH as (js & HF & Hb).
  { intros k' Hk'. apply H. by apply list_elem_of_further. }
  exists (j :: js). split; [by constructor|].
  by rewrite bind_cons, Hj, Hb.
Qed.

Hypothesis Hcomplete : complete_stars star_q get_min_dist_into_cell thr q_tot.

(** One turn of the [while] loop removes the star of the first remaining
    input, and nothing else. *)
Lemma step_complete (st : qstar_state) (i : nat) (rem done : list nat) :
  assigned' st (i :: rem) done -> closed' (i :: rem) ->
  Forall2 near' (concat (q_stars st)) done ->
  exists st' rem' js,
    step (qat' i) st = Ok st'
    /\ assigned' st' rem' (done ++ js)
    /\ closed' rem'
    /\ (length rem' < length (i :: rem))%nat
    /\ Forall2 near' (concat (q_stars st')) (done ++ js).
Proof using Hcomplete.
  intros Ha Hcl Hnear.
  destruct (assigned_facts _ _ _ Ha) as (Hnd & Hlt & Hlen & _).
  assert (q_tot !! i = Some (qat' i)) as Hi.
  { apply qat_lookup, Hlt, list_elem_of_here. }
  destruct (Hcomplete i (qat' i) Hi) as (Hone & Hndm & Hself & Hsame).
  set (s := star_q (qat' i)) in *.
  destruct (matched_members s (range (nq_new s))) as (js & HF & Hjs).
  { intros k Hk. apply Hone. apply elem_of_seq in Hk. lia. }
  change (matched' (qat' i) = js) in Hjs.
  set (st1 := {| q_list := q_list st; q_stars := q_stars st ++ [star_members s];
                 count_q := count_q st; q_indices := q_indices st |}).
  assert (assigned' st1 (i :: rem) done) as Ha1 by done.
  destruct (members_match s (range (nq_new s)) js st1 (i :: rem) done HF) as
    (st' & rem' & Hfor & Ha' & Hrem' & Hs'); [by rewrite <- Hjs| |done|].
  { intros j Hj. apply (Hcl i (qat' i)); [apply list_elem_of_here|done|by rewrite Hjs]. }
  exists st', rem', js. split_and!; [done|done| | |].
  - intros x q Hx Hq l Hl. apply Hrem' in Hx as [Hx Hxjs]. apply Hrem'.
    split; [by apply (Hcl x q)|].
    intros Hljs. apply Hxjs. rewrite <- Hjs in Hljs |- *.
    assert (l < npts)%nat as HlN.
    { apply Hlt. by apply (Hcl x q). }
    destruct (Hcomplete x q Hq) as (_ & _ & Hxself & Hxsame).
    apply (Hsame l (qat' l) Hljs (qat_lookup l HlN)).
    by apply (Hxsame l (qat' l) Hl (qat_lookup l HlN)).
  - destruct (assigned_facts _ _ _ Ha') as (_ & _ & Hlen' & _).
    rewrite length_app in Hlen'.
    assert (js <> []) as Hne.
    { intros E. rewrite Hjs, E in Hself. by apply not_elem_of_nil in Hself. }
    destruct js; [done|]. simpl in *. lia.
  - rewrite Hs'. simpl. rewrite concat_app. simpl. rewrite app_nil_r.
    apply Forall2_app; [done|].
    unfold star_members. change map with (@fmap list _).
    apply Forall2_fmap_l. eapply Forall2_impl; [exact HF|].
    intros k j Hkj. simpl. by apply within_singleton in Hkj as (_ & ? & _).
Qed.

Lemma loop_complete (fuel : nat) (st : qstar_state) (rem done : list nat) :
  (length rem <= fuel)%nat ->
  assigned' st rem done -> closed' rem ->
  Forall2 near' (concat (q_stars st)) done ->
  exists stars idx,
    loop fuel q_tot st = Some (Ok (stars, idx))
    /\ idx ≡ₚ range npts
    /\ Forall2 near' (concat stars) idx.
Proof using Hcomplete.
  revert st rem done. induction fuel as [|fuel IH]; intros st rem done Hfuel Ha Hcl Hnear.
  - destruct rem; [|simpl in Hfuel; lia].
    destruct (assigned_facts _ _ _ Ha) as (_ & _ & Hlen & _).
    destruct Ha as (Hql & Hperm & Hqi & Hcq & Htake).
    exists (q_stars st), (q_indices st). simpl. rewrite Hql. simpl.
    rewrite app_nil_r in Hperm. simpl in Hlen.
    rewrite take_ge in Htake by lia. subst done. done.
  - destruct rem as [|i rem].
    + destruct (assigned_facts _ _ _ Ha) as (_ & _ & Hlen & _).
      destruct Ha as (Hql & Hperm & Hqi & Hcq & Htake).
      exists (q_stars st), (q_indices st). simpl. rewrite Hql. simpl.
      rewrite app_nil_r in Hperm. simpl in Hlen.
      rewrite take_ge in Htake by lia. subst done. done.
    + destruct (step_complete st i rem done Ha Hcl Hnear) as
        (st' & rem' & js & Hstep & Ha' & Hcl' & Hlen' & Hnear').
      destruct (IH st' rem' (done ++ js)) as (stars & idx & Hloop & Hperm & Hn);
        [simpl in *; lia|done|done|done|].
      exists stars, idx. simpl.
      destruct Ha as (Hql & _). rewrite Hql. simpl. rewrite Hstep. done.
Qed.

Lemma SetupQStar_complete (fuel : nat) :
  (npts <= fuel)%nat ->
  exists stars idx,
    SetupQStar_fuel star_q get_min_dist_into_cell fuel q_tot = Some (Ok (stars, idx))
    /\ sum_list (length <$> stars) = npts
    /\ idx ≡ₚ range npts
    /\ Forall2 near' (concat stars) idx.
Proof using Hcomplete.
  intros Hfuel. unfold SetupQStar_fuel.
  destruct (loop_complete fuel (SetupQStar_init q_tot) (range npts) []) as
    (stars & idx & Hloop & Hperm & Hnear).
  - unfold range. by rewrite length_seq.
  - unfold assigned, SetupQStar_init; simpl. split_and!; [|done|by rewrite length_replicate|done|done].
    unfold qat, range. apply list_eq. intros j.
    rewrite list_lookup_fmap. destruct (decide (j < npts)%nat) as [Hj|Hj].
    + rewrite lookup_seq_lt by done. simpl.
      destruct (q_tot !! j) eqn:E; [done|]. apply lookup_ge_None in E. lia.
    + rewrite lookup_seq_ge by lia. simpl. apply lookup_ge_None. lia.
  - intros x q Hx Hq l Hl.
    destruct (Hcomplete x q Hq) as (Hone & _).
    unfold matched in Hl. apply list_elem_of_bind in Hl as (k & Hl & Hk).
    apply list_elem_of_filter in Hl as [_ Hl]. done.
  - simpl. constructor.
  - exists stars, idx. split_and!; [done| |done|done].
    pose proof (SetupQStar_outcome star_q get_min_dist_into_cell q_tot fuel) as Ho.
    unfold SetupQStar_fuel in Ho. rewrite Hloop in Ho. apply Ho.
Qed.

End QStarComplete.

(** ** [SetupQStar] as a method of the table *)

Section QStarMethod.
Variable covariant_coordinates : (nat -> nat -> Q) -> qvec -> qvec.
Variable symm_base_run :
  Q -> (nat -> nat -> Q) -> (nat -> nat -> Q) -> (nat -> nat -> Q) -> list Z -> nat -> qvec -> symm_base.
Variable sgam_ph_new :
  (nat -> nat -> Q) -> (nat -> nat -> Q) -> Z -> (nat -> nat -> nat -> Z) ->
  (nat -> nat -> Z) -> (nat -> nat -> Q) -> nat -> nat -> nat -> nat -> Q.
Variable star_q :
  qvec -> (nat -> nat -> Q) -> (nat -> nat -> Q) -> Z -> (nat -> nat -> nat -> Z) -> (nat -> Z) ->
  star_out.
Variable get_min_dist_into_cell : (nat -> nat -> Q) -> qvec -> qvec -> Q.

Local Abbreviation discover := (SetupQPoint covariant_coordinates symm_base_run sgam_ph_new).
Local Abbreviation partition :=
  (SetupQStar covariant_coordinates symm_base_run sgam_ph_new star_q get_min_dist_into_cell).

(** Discovery at a 3-component q-point does not raise. *)
Lemma SetupQPoint_3d (self : QE_Symmetry) (q : qvec) :
  length q = 3%nat -> exists self', discover self q = Ok self'.
Proof.
  intros Hq. unfold SetupQPoint. rewrite Hq. simpl.
  match goal with |- context [if ?b then _ else _] => destruct b end; [|by eexists].
  match goal with |- context [match ?o with Some _ => _ | None => _ end] => destruct o end;
    by eexists.
Qed.

Lemma SetupQPoint_Gamma (self : QE_Symmetry) : exists self', discover self zeros3 = Ok self'.
Proof. by apply SetupQPoint_3d. Qed.

(** The only exception of the partition is the one of [np.argmin] on an
    exhausted list. *)
Lemma SetupQStar_raises (self : QE_Symmetry) (q_tot : list qvec) (fuel : nat) (e : exn) :
  partition fuel self q_tot = Some (Raise e) -> e = ValueError msg_argmin_empty.
Proof.
  unfold SetupQStar.
  destruct (SetupQPoint_Gamma self) as [self' ->].
  pose proof (SetupQStar_outcome
                (fun q => star_q q (QE_at self') (QE_bg self') (QE_nsymq self')
                            (QE_s self') (QE_invs self'))
                (get_min_dist_into_cell (transpose (QE_bg self'))) q_tot fuel) as Ho.
  destruct (SetupQStar_fuel _ _ fuel q_tot) as [[[stars idx]|e']|]; [done| |done].
  by intros [= <-].
Qed.

(** C1. Whenever the partition returns, the sizes of the stars add up to
    the number N of input q-points.  When the input list is a union of
    complete stars (every member of the star of an input lies within the
    threshold of exactly one input, distinct members match distinct inputs,
    every input is matched by its own star, and stars that share a match
    cover the same inputs), the partition does return, and its index map is
    a permutation of 0 .. N-1 whose entry for a star member is the one input
    within the threshold of that member: every input appears in exactly one
    star, exactly once. *)
Theorem SetupQStar_partition (self self' : QE_Symmetry) (q_tot : list qvec) (thr : Q) (fuel : nat) :
  discover self zeros3 = Ok self' ->
  let sq := fun q => star_q q (QE_at self') (QE_bg self') (QE_nsymq self') (QE_s self')
                       (QE_invs self') in
  let d := get_min_dist_into_cell (transpose (QE_bg self')) in
  (forall r, partition fuel self q_tot = Some (Ok r) ->
             sum_list (length <$> r.2.1) = length q_tot)
  /\ (complete_stars sq d thr q_tot -> (length q_tot <= fuel)%nat ->
      exists stars idx,
        partition fuel self q_tot = Some (Ok (self', (stars, idx)))
        /\ sum_list (length <$> stars) = length q_tot
        /\ idx ≡ₚ range (length q_tot)
        /\ Forall2 (near d thr q_tot) (concat stars) idx).
Proof.
  intros Hd sq d. unfold SetupQStar. rewrite Hd. fold sq d. split.
  - intros r. pose proof (SetupQStar_outcome sq d q_tot fuel) as Ho.
    destruct (SetupQStar_fuel sq d fuel q_tot) as [[[stars idx]|e]|]; [|done|done].
    intros [= <-]. simpl. apply Ho.
  - intros Hc Hfuel.
    destruct (SetupQStar_complete sq d thr q_tot Hc fuel Hfuel) as
      (stars & idx & Hrun & Hsum & Hperm & Hnear).
    exists stars, idx. by rewrite Hrun.
Qed.

(** C2. [SetupQStar] applies no tolerance when it matches a star member:
    as long as q-points remain, the member is matched with the first of the
    remaining q-points at the least distance, whatever that distance is,
    and that q-point is removed; when none remains the call fails with the
    [ValueError] of [np.argmin] on an empty sequence, and this is the only
    exception a run can raise. *)
Theorem SetupQStar_nearest_match (self self' : QE_Symmetry) (q_tot : list qvec)
    (s : star_out) (jq : nat) (st : qstar_state) :
  discover self zeros3 = Ok self' ->
  run_inv q_tot st ->
  let d := get_min_dist_into_cell (transpose (QE_bg self')) in
  match q_list st with
  | [] => pop_star_member d q_tot s jq st = Raise (ValueError msg_argmin_empty)
  | _ :: _ =>
      exists p q st',
        pop_star_member d q_tot s jq st = Ok st'
        /\ q_list st !! p = Some q
        /\ q_list st' = delete p (q_list st)
        /\ (forall q', q' ∈ q_list st -> (d (sxq s jq) q <= d (sxq s jq) q')%Q)
        /\ (forall p' q', (p' < p)%nat -> q_list st !! p' = Some q' ->
              (d (sxq s jq) q < d (sxq s jq) q')%Q)
  end
  /\ forall fuel e, partition fuel self q_tot = Some (Raise e) ->
                    e = ValueError msg_argmin_empty.
Proof.
  intros Hd Hinv d. split.
  - pose proof (member_run d q_tot s jq st Hinv) as Hm.
    destruct (pop_star_member d q_tot s jq st) as [st'|e] eqn:E.
    + destruct Hm as (_ & Hlen & _).
      destruct (q_list st) as [|q0 ql] eqn:El; [simpl in Hlen; lia|].
      rewrite <- El in *.
      apply member_Ok in E as (p & j & Hp & _ & _ & ->).
      apply argmin_least in Hp as (m & Hpm & Hleast & Hfirst).
      change map with (@fmap list _) in Hpm, Hleast, Hfirst.
      rewrite list_lookup_fmap in Hpm.
      destruct (q_list st !! p) as [q|] eqn:Eq; [|done].
      injection Hpm as <-.
      exists p, q. eexists. split_and!; [done|done|done| |].
      * intros q' Hq'. apply Hleast. by apply list_elem_of_fmap_2.
      * intros p' q' Hp' Hq'. apply (Hfirst p'); [done|].
        by rewrite list_lookup_fmap, Hq'.
    + destruct Hm as [-> ->]. done.
  - intros fuel e. apply SetupQStar_raises.
Qed.

End QStarMethod.

(** *** The partition on concrete lists *)

Lemma toy_complete_stars :
  complete_stars (axis_star __EPSILON__) axis_dist __EPSILON__ toy_q_complete.
Proof.
  intros i q Hi.
  destruct i as [|[|[|i]]]; simpl in Hi; [| | |done]; injection Hi as <-.
  - split_and!.
    + intros k Hk. assert (k = 0%nat) as -> by (vm_compute in Hk; lia).
      exists 0%nat. by vm_compute.
    + apply (bool_decide_unpack _). by vm_compute.
    + apply (bool_decide_unpack _). by vm_compute.
    + intros j q' Hj Hq' l.
      assert (j = 0%nat) as ->.
      { apply (bool_decide_pack _) in Hj. vm_compute in Hj.
        destruct j as [|[|[|j]]]; try done. }
      injection Hq' as <-. done.
  - split_and!.
    + intros k Hk. assert (k = 0 \/ k = 1)%nat as [-> | ->] by (vm_compute in Hk; lia).
      * exists 1%nat. by vm_compute.
      * exists 2%nat. by vm_compute.
    + apply (bool_decide_unpack _). by vm_compute.
    + apply (bool_decide_unpack _). by vm_compute.
    + intros j q' Hj Hq' l.
      assert (matched (axis_star __EPSILON__) axis_dist __EPSILON__ toy_q_complete
                (on_axis (1 # 4)) = [1; 2]%nat) as Hm by (by vm_compute).
      rewrite Hm in Hj |- *.
      apply elem_of_cons in Hj as [-> | Hj]; [|apply list_elem_of_singleton in Hj as ->];
        injection Hq' as <-.
      * by rewrite Hm.
      * assert (matched (axis_star __EPSILON__) axis_dist __EPSILON__ toy_q_complete
                  (on_axis (- 1 # 4)) = [2; 1]%nat) as -> by (by vm_compute).
        rewrite !elem_of_cons, !elem_of_nil. tauto.
  - split_and!.
    + intros k Hk. assert (k = 0 \/ k = 1)%nat as [-> | ->] by (vm_compute in Hk; lia).
      * exists 2%nat. by vm_compute.
      * exists 1%nat. by vm_compute.
    + apply (bool_decide_unpack _). by vm_compute.
    + apply (bool_decide_unpack _). by vm_compute.
    + intros j q' Hj Hq' l.
      assert (matched (axis_star __EPSILON__) axis_dist __EPSILON__ toy_q_complete
                (on_axis (- 1 # 4)) = [2; 1]%nat) as Hm by (by vm_compute).
      rewrite Hm in Hj |- *.
      apply elem_of_cons in Hj as [-> | Hj]; [|apply list_elem_of_singleton in Hj as ->];
        injection Hq' as <-.
      * by rewrite Hm.
      * assert (matched (axis_star __EPSILON__) axis_dist __EPSILON__ toy_q_complete
                  (on_axis (1 # 4)) = [1; 2]%nat) as -> by (by vm_compute).
        rewrite !elem_of_cons, !elem_of_nil. tauto.
Qed.

Lemma toy_discovery_eq :
  SetupQPoint toy_covariant toy_symm_base toy_sgam toy_table zeros3 = Ok toy_discovered.
Proof. reflexivity. Qed.

(** The complete list is partitioned into the stars of 0 and 1/4. *)
Lemma SetupQStar_partition_witness :
  complete_stars (axis_star __EPSILON__) axis_dist __EPSILON__ toy_q_complete
  /\ exists stars idx,
       SetupQStar toy_covariant toy_symm_base toy_sgam toy_star_q toy_dist 3 toy_table
         toy_q_complete = Some (Ok (toy_discovered, (stars, idx)))
       /\ sum_list (length <$> stars) = 3%nat
       /\ idx ≡ₚ range 3.
Proof.
  split; [exact toy_complete_stars|].
  destruct (SetupQStar_partition toy_covariant toy_symm_base toy_sgam toy_star_q toy_dist
              toy_table toy_discovered toy_q_complete __EPSILON__ 3 toy_discovery_eq)
    as [_ H].
  destruct (H toy_complete_stars ltac:(simpl; lia)) as (stars & idx & H1 & H2 & H3 & _).
  by exists stars, idx.
Defined.

(** C1 fails on a list that is not a union of stars: no two of its points
    are closer than the threshold, the partition returns one star of two
    members, and the index map names input 0 twice and input 1 never. *)
Lemma SetupQStar_partition_open_list :
  separated axis_dist __EPSILON__ toy_q_open
  /\ SetupQStar toy_covariant toy_symm_base toy_sgam toy_star_q toy_dist 2 toy_table toy_q_open
     = Some (Ok (toy_discovered, ([[on_axis (9 # 20); on_axis (- 9 # 20)]], [0; 0]%nat)))
  /\ ~ [0; 0]%nat ≡ₚ range (length toy_q_open).
Proof.
  split_and!.
  - intros i j qi qj Hi Hj Hne.
    destruct i as [|[|i]]; destruct j as [|[|j]]; simpl in Hi, Hj; try done;
      injection Hi as <-; injection Hj as <-; by vm_compute.
  - by vm_compute.
  - intros H. assert (1%nat ∈ [0; 0]%nat) as Hin.
    { rewrite H. simpl. apply list_elem_of_further, list_elem_of_here. }
    rewrite !elem_of_cons, elem_of_nil in Hin. lia.
Qed.

(** The first turn of the loop on the open list pops the nearest point. *)
Lemma SetupQStar_nearest_match_witness :
  run_inv toy_q_open (SetupQStar_init toy_q_open)
  /\ (exists p q st',
        pop_star_member axis_dist toy_q_open (axis_star __EPSILON__ (on_axis (9 # 20))) 1
          (SetupQStar_init toy_q_open) = Ok st'
        /\ toy_q_open !! p = Some q
        /\ q_list st' = delete p toy_q_open
        /\ (forall q', q' ∈ toy_q_open ->
              (axis_dist (on_axis (- 9 # 20)) q <= axis_dist (on_axis (- 9 # 20)) q')%Q)
        /\ (forall p' q', (p' < p)%nat -> toy_q_open !! p' = Some q' ->
              (axis_dist (on_axis (- 9 # 20)) q < axis_dist (on_axis (- 9 # 20)) q')%Q))
  /\ forall fuel e,
       SetupQStar toy_covariant toy_symm_base toy_sgam toy_star_q toy_dist fuel toy_table
         toy_q_open = Some (Raise e) ->
       e = ValueError msg_argmin_empty.
Proof.
  split; [apply init_run|].
  exact (SetupQStar_nearest_match toy_covariant toy_symm_base toy_sgam toy_star_q toy_dist
           toy_table toy_discovered toy_q_open (axis_star __EPSILON__ (on_axis (9 # 20))) 1
           (SetupQStar_init toy_q_open) toy_discovery_eq (init_run toy_q_open)).
Defined.

(** C2 fails on the code.  On the open list the second member of the star
    of 9/20 has no input within the threshold, yet it is matched and the
    call returns.  On the close list two inputs lie within the threshold of
    each other, yet the call returns them as two stars. *)
Lemma SetupQStar_no_tolerance :
  (within axis_dist __EPSILON__ toy_q_open (on_axis (- 9 # 20)) = []
   /\ SetupQStar toy_covariant toy_symm_base toy_sgam toy_star_q toy_dist 2 toy_table toy_q_open
      = Some (Ok (toy_discovered, ([[on_axis (9 # 20); on_axis (- 9 # 20)]], [0; 0]%nat))))
  /\ (Qltb (axis_dist (on_axis 0) (on_axis (1 # 1000000))) __EPSILON__ = true
      /\ SetupQStar toy_covariant toy_symm_base toy_sgam toy_star_q toy_dist 2 toy_table
           toy_q_close
         = Some (Ok (toy_discovered,
                     ([[on_axis 0]; [on_axis (1 # 1000000)]], [0; 1]%nat)))).
Proof. split_and!; by vm_compute. Qed.

(** ** Symmetrization across a star *)

Lemma bind_Ok_r {A} (r : res A) : (a ← r; Ok a) = r.
Proof. by destruct r. Qed.

Section ApplyQStarProofs.
Variable covariant_coordinates : (nat -> nat -> Q) -> qvec -> qvec.
Variable symm_base_run :
  Q -> (nat -> nat -> Q) -> (nat -> nat -> Q) -> (nat -> nat -> Q) -> list Z -> nat -> qvec -> symm_base.
Variable sgam_ph_new :
  (nat -> nat -> Q) -> (nat -> nat -> Q) -> Z -> (nat -> nat -> nat -> Z) ->
  (nat -> nat -> Z) -> (nat -> nat -> Q) -> nat -> nat -> nat -> nat -> Q.
Variable star_q :
  qvec -> (nat -> nat -> Q) -> (nat -> nat -> Q) -> Z -> (nat -> nat -> nat -> Z) -> (nat -> Z) ->
  star_out.
Variable q2qstar_out :
  cmatrix -> (nat -> nat -> Q) -> (nat -> nat -> Q) -> Z -> (nat -> nat -> nat -> Z) ->
  (nat -> Z) -> (nat -> nat -> Z) -> (nat -> nat -> nat -> Q) -> star_out -> nat ->
  nat -> cblocks.
Variable get_min_dist_into_cell : (nat -> nat -> Q) -> qvec -> qvec -> Q.

Local Abbreviation discover := (SetupQPoint covariant_coordinates symm_base_run sgam_ph_new).
Local Abbreviation apply_star :=
  (ApplyQStar covariant_coordinates symm_base_run sgam_ph_new star_q q2qstar_out
     get_min_dist_into_cell).
Local Abbreviation member_step := (star_member_step star_q q2qstar_out get_min_dist_into_cell).
Local Abbreviation star_at' := (star_at star_q).
Local Abbreviation matches' := (matches get_min_dist_into_cell).
Local Abbreviation sorting' := (sorting get_min_dist_into_cell).
Local Abbreviation size_ok' := (size_ok star_q).
Local Abbreviation match_ok' := (match_ok star_q get_min_dist_into_cell).
Local Abbreviation member_ok' := (member_ok star_q get_min_dist_into_cell).
Local Abbreviation images' := (images star_q q2qstar_out).
Local Abbreviation contribution' := (contribution star_q q2qstar_out get_min_dist_into_cell).
Local Abbreviation star_average' := (star_average star_q q2qstar_out get_min_dist_into_cell).

(** The table after discovery, the caller's stack and the caller's star. *)
Variable self : QE_Symmetry.
Variable fcq : list cmatrix.
Variable q_point_group : list qvec.

Local Abbreviation nq := (length q_point_group).
Local Abbreviation add_images' :=
  (add_images star_q q2qstar_out get_min_dist_into_cell self fcq q_point_group).
Local Abbreviation dist := (get_min_dist_into_cell (transpose (QE_bg self))).

Lemma identify_steps (s : star_out) (q : qvec) (xq : nat) (ks : list nat)
    (sorting_q : list nat) (count : nat) :
  (xq < length sorting_q)%nat ->
  let hits := filter (fun yq => Qltb (dist (sxq s yq) q) __EPSILON__ = true) ks in
  for_each ks (identify_step dist s q xq) (sorting_q, count)
  = Ok (from_option (fun y => <[ xq := y ]> sorting_q) sorting_q (last hits),
        (count + length hits)%nat).
Proof.
  revert sorting_q count. induction ks as [|k ks IH]; intros sorting_q count Hxq; simpl.
  { by rewrite Nat.add_0_r. }
  destruct (Qltb (dist (sxq s k) q) __EPSILON__) eqn:E.
  - unfold setitem. rewrite decide_True by done. simpl.
    rewrite IH by (by rewrite length_insert).
    rewrite filter_cons_True by done. rewrite last_cons. simpl.
    destruct (last (filter _ ks)) as [y|]; simpl.
    + rewrite list_insert_insert_eq. do 2 f_equal. lia.
    + do 2 f_equal. lia.
  - simpl. rewrite IH by done. rewrite filter_cons_False by (by rewrite E). done.
Qed.

Lemma identify_spec (s : star_out) (xq : nat) (q : qvec) (sorting_q : list nat) :
  q_point_group !! xq = Some q -> (xq < length sorting_q)%nat ->
  identify dist s q_point_group xq sorting_q
  = if (length (matches' self s q) =? 1)%nat
    then Ok (<[ xq := sorting' self s q ]> sorting_q)
    else Raise (ValueError msg_identification).
Proof.
  intros Hq Hxq. unfold identify, getitem. rewrite Hq. simpl.
  rewrite identify_steps by done. simpl.
  unfold sorting. fold (matches' self s q).
  destruct (length (matches' self s q) =? 1)%nat eqn:E; simpl; [|done].
  apply Nat.eqb_eq in E.
  destruct (matches' self s q) as [|y [|z l]]; simpl in E; try done.
Qed.

Lemma identify_prefix (s : star_out) (sorting_q : list nat) (m : nat) :
  (m <= nq)%nat -> length sorting_q = nq ->
  for_each (range m) (identify dist s q_point_group) sorting_q
  = if forallb (fun q' => (length (matches' self s q') =? 1)%nat) (take m q_point_group)
    then Ok ((sorting' self s <$> take m q_point_group) ++ drop m sorting_q)
    else Raise (ValueError msg_identification).
Proof.
  intros Hm Hlen. induction m as [|m IH]; [done|].
  rewrite range_S, for_each_app, IH by lia.
  destruct (lookup_lt_is_Some_2 q_point_group m) as [q Hq]; [lia|].
  destruct (lookup_lt_is_Some_2 sorting_q m) as [x Hx]; [lia|].
  rewrite (take_S_r _ _ q) by done. rewrite forallb_app. simpl.
  destruct (forallb _ (take m q_point_group)); simpl; [|done].
  rewrite bind_Ok_r.
  assert (length (sorting' self s <$> take m q_point_group) = m) as Hpre.
  { rewrite length_fmap, length_take. lia. }
  rewrite (identify_spec s m q) by (done || (rewrite length_app, Hpre, length_drop; lia)).
  rewrite andb_true_r.
  destruct (length (matches' self s q) =? 1)%nat; [|done].
  f_equal. rewrite insert_app_r_alt by lia. rewrite Hpre, Nat.sub_diag.
  rewrite (drop_S _ x) by done. simpl. rewrite fmap_app, <- app_assoc. done.
Qed.

Lemma identify_all (s : star_out) :
  for_each (range nq) (identify dist s q_point_group) (range nq)
  = if forallb (fun q' => (length (matches' self s q') =? 1)%nat) q_point_group
    then Ok (sorting' self s <$> q_point_group)
    else Raise (ValueError msg_identification).
Proof.
  rewrite identify_prefix by (done || (unfold range; by rewrite length_seq)).
  rewrite take_ge by done. rewrite drop_ge by (unfold range; by rewrite length_seq).
  by rewrite app_nil_r.
Qed.

Lemma accumulate_prefix (n : nat) (dyn_star : nat -> cblocks) (sorting_q : list nat)
    (final_fc : list cmatrix) (m : nat) :
  length final_fc = nq -> length sorting_q = nq -> (m <= nq)%nat ->
  for_each (range m) (accumulate n dyn_star sorting_q) final_fc
  = Ok (zip_with (fun M k => add_blocks n M (dyn_star k)) (take m final_fc) (take m sorting_q)
        ++ drop m final_fc).
Proof.
  intros HF Hs Hm. induction m as [|m IH]; [done|].
  rewrite range_S, for_each_app, IH by lia. simpl. rewrite bind_Ok_r.
  destruct (lookup_lt_is_Some_2 final_fc m) as [M HM]; [lia|].
  destruct (lookup_lt_is_Some_2 sorting_q m) as [k Hk]; [lia|].
  set (f := fun (M : cmatrix) (k : nat) => add_blocks n M (dyn_star k)).
  assert (length (zip_with f (take m final_fc) (take m sorting_q)) = m) as Hpre.
  { rewrite length_zip_with, !length_take. lia. }
  unfold accumulate, getitem. rewrite Hk. simpl.
  rewrite lookup_app_r by lia. rewrite Hpre, Nat.sub_diag, lookup_drop, Nat.add_0_r, HM. simpl.
  unfold setitem. rewrite decide_True by (rewrite length_app, Hpre, length_drop; lia).
  f_equal. rewrite insert_app_r_alt by lia. rewrite Hpre, Nat.sub_diag.
  rewrite (drop_S _ M) by done. simpl.
  rewrite (take_S_r _ _ M), (take_S_r _ _ k) by done.
  rewrite zip_with_app by (rewrite !length_take; lia).
  simpl. by rewrite <- app_assoc.
Qed.

Lemma accumulate_all (n : nat) (dyn_star : nat -> cblocks) (sorting_q : list nat)
    (final_fc : list cmatrix) :
  length final_fc = nq -> length sorting_q = nq ->
  for_each (range nq) (accumulate n dyn_star sorting_q) final_fc
  = Ok (zip_with (fun M k => add_blocks n M (dyn_star k)) final_fc sorting_q).
Proof.
  intros HF Hs. rewrite accumulate_prefix by done.
  rewrite !take_ge, drop_ge by lia. by rewrite app_nil_r.
Qed.

Lemma add_images_length (i : nat) (final_fc : list cmatrix) :
  length final_fc = nq -> length (add_images' i final_fc) = nq.
Proof.
  intros HF. unfold add_images. rewrite length_zip_with, length_fmap. lia.
Qed.

(** One turn of the loop over the originating members. *)
Lemma star_member_step_spec (i : nat) (q : qvec) (fc : cmatrix) (final_fc : list cmatrix) :
  q_point_group !! i = Some q -> fcq !! i = Some fc -> length final_fc = nq ->
  member_step self fcq q_point_group i final_fc
  = if negb (size_ok' self q_point_group q) then Raise (ValueError msg_star_mismatch)
    else if negb (match_ok' self q_point_group q) then Raise (ValueError msg_identification)
    else Ok (add_images' i final_fc).
Proof.
  intros Hq Hfc HF. unfold star_member_step, getitem. rewrite Hq. simpl.
  fold (star_at' self q). unfold size_ok.
  destruct (nq_new (star_at' self q) =? nq)%nat; simpl; [|done].
  rewrite Hfc. simpl. rewrite identify_all. unfold match_ok.
  destruct (forallb _ q_point_group); simpl; [|done].
  rewrite accumulate_all by (done || by rewrite length_fmap).
  unfold add_images, images. unfold qvec, cmatrix in *. by rewrite Hq, Hfc.
Qed.

Hypothesis Hstack : length fcq = nq.

(** The loop over the originating members stops at the first member that
    fails one of the two checks. *)
Lemma members_loop (ms : list nat) (final_fc : list cmatrix) :
  (forall i, i ∈ ms -> (i < nq)%nat) -> length final_fc = nq ->
  match for_each ms (member_step self fcq q_point_group) final_fc with
  | Ok final_fc' =>
      (forall i q, i ∈ ms -> q_point_group !! i = Some q ->
                   member_ok' self q_point_group q = true)
      /\ final_fc' = fold_left (fun F i => add_images' i F) ms final_fc
      /\ length final_fc' = nq
  | Raise e =>
      exists pre i post q,
        ms = pre ++ i :: post
        /\ q_point_group !! i = Some q
        /\ (forall i' q', i' ∈ pre -> q_point_group !! i' = Some q' ->
                          member_ok' self q_point_group q' = true)
        /\ member_ok' self q_point_group q = false
        /\ e = ValueError (if size_ok' self q_point_group q then msg_identification
                           else msg_star_mismatch)
  end.
Proof using Hstack.
  revert final_fc. induction ms as [|i ms IH]; intros final_fc Hlt HF; simpl.
  { split_and!; [|done|done]. intros i q Hi. by apply elem_of_nil in Hi. }
  assert (i < nq)%nat as Hi by (apply Hlt, list_elem_of_here).
  destruct (lookup_lt_is_Some_2 q_point_group i) as [q Hq]; [lia|].
  destruct (lookup_lt_is_Some_2 fcq i) as [fc Hfc]; [lia|].
  rewrite (star_member_step_spec i q fc) by done.
  destruct (size_ok' self q_point_group q) eqn:Es; simpl.
  - destruct (match_ok' self q_point_group q) eqn:Em; simpl.
    + specialize (IH (add_images' i final_fc)).
      destruct (for_each ms _ (add_images' i final_fc)) as [F'|e].
      * destruct IH as (Hall & -> & Hlen);
          [intros; apply Hlt; by apply list_elem_of_further|by apply add_images_length|].
        split_and!; [|done|done].
        intros i' q' [-> | Hi']%elem_of_cons Hq'.
        -- assert (q' = q) as -> by congruence. unfold member_ok. by rewrite Es, Em.
        -- by apply (Hall i').
      * destruct IH as (pre & i0 & post & q0 & -> & Hq0 & Hpre & Hbad & ->);
          [intros; apply Hlt; by apply list_elem_of_further|by apply add_images_length|].
        exists (i :: pre), i0, post, q0. split_and!; [done|done| |done|done].
        intros i' q' [-> | Hi']%elem_of_cons Hq'.
        -- assert (q' = q) as -> by congruence. unfold member_ok. by rewrite Es, Em.
        -- by apply (Hpre i').
    + exists [], i, ms, q. split_and!; [done|done| | |by rewrite Es].
      * intros i' q' Hi'. by apply elem_of_nil in Hi'.
      * unfold member_ok. by rewrite Es, Em.
  - exists [], i, ms, q. split_and!; [done|done| | |by rewrite Es].
    + intros i' q' Hi'. by apply elem_of_nil in Hi'.
    + unfold member_ok. by rewrite Es.
Qed.

(** An entry of the accumulator after the members [ms]. *)
Lemma add_images_entry (ms : list nat) (final_fc : list cmatrix) (xq : nat) (q' : qvec)
    (M : cmatrix) :
  q_point_group !! xq = Some q' -> length final_fc = nq ->
  fold_left (fun F i => add_images' i F) ms final_fc !! xq = Some M ->
  exists M0, final_fc !! xq = Some M0
    /\ forall r c, in_range (QE_nat self) r c = true ->
         M r c = fold_left cadd (contribution' self fcq q_point_group q' r c <$> ms) (M0 r c).
Proof.
  intros Hq'. revert final_fc. induction ms as [|i ms IH]; intros final_fc HF HM; simpl in *.
  { by exists M. }
  destruct (IH (add_images' i final_fc)) as (M1 & HM1 & Hsum);
    [by apply add_images_length|done|].
  unfold add_images' in HM1. rewrite lookup_zip_with in HM1.
  destruct (final_fc !! xq) as [M0|] eqn:E0; simpl in HM1; [|done].
  rewrite list_lookup_fmap, Hq' in HM1. simpl in HM1. injection HM1 as <-.
  exists M0. split; [done|]. intros r c Hrc. rewrite (Hsum r c Hrc).
  unfold add_blocks. rewrite Hrc. done.
Qed.

End ApplyQStarProofs.

Section ApplyQStarTheorems.
Variable covariant_coordinates : (nat -> nat -> Q) -> qvec -> qvec.
Variable symm_base_run :
  Q -> (nat -> nat -> Q) -> (nat -> nat -> Q) -> (nat -> nat -> Q) -> list Z -> nat -> qvec -> symm_base.
Variable sgam_ph_new :
  (nat -> nat -> Q) -> (nat -> nat -> Q) -> Z -> (nat -> nat -> nat -> Z) ->
  (nat -> nat -> Z) -> (nat -> nat -> Q) -> nat -> nat -> nat -> nat -> Q.
Variable star_q :
  qvec -> (nat -> nat -> Q) -> (nat -> nat -> Q) -> Z -> (nat -> nat -> nat -> Z) -> (nat -> Z) ->
  star_out.
Variable q2qstar_out :
  cmatrix -> (nat -> nat -> Q) -> (nat -> nat -> Q) -> Z -> (nat -> nat -> nat -> Z) ->
  (nat -> Z) -> (nat -> nat -> Z) -> (nat -> nat -> nat -> Q) -> star_out -> nat ->
  nat -> cblocks.
Variable get_min_dist_into_cell : (nat -> nat -> Q) -> qvec -> qvec -> Q.

Local Abbreviation discover := (SetupQPoint covariant_coordinates symm_base_run sgam_ph_new).
Local Abbreviation apply_star :=
  (ApplyQStar covariant_coordinates symm_base_run sgam_ph_new star_q q2qstar_out
     get_min_dist_into_cell).
Local Abbreviation member_step := (star_member_step star_q q2qstar_out get_min_dist_into_cell).
Local Abbreviation size_ok' := (size_ok star_q).
Local Abbreviation match_ok' := (match_ok star_q get_min_dist_into_cell).
Local Abbreviation member_ok' := (member_ok star_q get_min_dist_into_cell).
Local Abbreviation star_average' := (star_average star_q q2qstar_out get_min_dist_into_cell).
Local Abbreviation loop_outcome := (members_loop star_q q2qstar_out get_min_dist_into_cell).

Lemma range_lt (n i : nat) : i ∈ range n -> (i < n)%nat.
Proof. intros H. apply elem_of_seq in H. lia. Qed.

Lemma lookup_in_range {A} (l : list A) (i : nat) (x : A) : l !! i = Some x -> i ∈ range (length l).
Proof. intros H. apply lookup_lt_Some in H. apply elem_of_seq. lia. Qed.



End ApplyQStarTheorems.




(** ** The acoustic sum rule *)

Lemma sum_n_ext (n : nat) (f g : nat -> R) :
  (forall k, (k < n)%nat -> f k = g k) -> sum_n n f = sum_n n g.
Proof.
  induction n as [|n IH]; intros H; simpl; [done|].
  rewrite IH by (intros k Hk; apply H; lia). rewrite (H n) by lia. done.
Qed.

Lemma sum_n_zero (n : nat) : sum_n n (fun _ => 0%R) = 0%R.
Proof. induction n as [|n IH]; simpl; [done|]. rewrite IH. lra. Qed.

Lemma sum_n_plus (n : nat) (f g : nat -> R) :
  sum_n n (fun k => (f k + g k)%R) = (sum_n n f + sum_n n g)%R.
Proof. induction n as [|n IH]; simpl; [lra|]. rewrite IH. lra. Qed.

Lemma sum_n_minus (n : nat) (f g : nat -> R) :
  sum_n n (fun k => (f k - g k)%R) = (sum_n n f - sum_n n g)%R.
Proof. induction n as [|n IH]; simpl; [lra|]. rewrite IH. lra. Qed.

Lemma sum_n_scal (n : nat) (a : R) (f : nat -> R) :
  sum_n n (fun k => (a * f k)%R) = (a * sum_n n f)%R.
Proof. induction n as [|n IH]; simpl; [lra|]. rewrite IH. lra. Qed.

Lemma sum_n_scal_r (n : nat) (a : R) (f : nat -> R) :
  (sum_n n f * a)%R = sum_n n (fun k => (f k * a)%R).
Proof. induction n as [|n IH]; simpl; [lra|]. rewrite <- IH. lra. Qed.

Lemma sum_n_swap (n m : nat) (f : nat -> nat -> R) :
  sum_n n (fun i => sum_n m (fun j => f i j)) = sum_n m (fun j => sum_n n (fun i => f i j)).
Proof.
  induction n as [|n IH]; simpl.
  - by rewrite sum_n_zero.
  - rewrite IH. by rewrite <- sum_n_plus.
Qed.

Lemma sum_n_eye (n i : nat) (f : nat -> R) :
  (i < n)%nat -> sum_n n (fun k => (eye i k * f k)%R) = f i.
Proof.
  unfold eye. induction n as [|n IH]; intros Hi; simpl; [lia|].
  destruct (decide (i = n)) as [->|Hne].
  - rewrite Nat.eqb_refl.
    rewrite (sum_n_ext n _ (fun _ => 0%R)), sum_n_zero; [lra|].
    intros k Hk. destruct (Nat.eqb_spec n k); [lia|lra].
  - rewrite IH by lia. destruct (Nat.eqb_spec i n); [lia|lra].
Qed.

(** The uniform translations along two directions are orthogonal, and each
    has squared norm the number of atoms. *)
Lemma uniform_translation_dot (n d e : nat) :
  (d < 3)%nat -> (e < 3)%nat ->
  vdot (3 * n) (uniform_translation n e) (uniform_translation n d)
  = if (e =? d)%nat then INR n else 0%R.
Proof.
  intros Hd He. unfold vdot.
  rewrite (sum_n_ext _ _ (fun k => if (k mod 3 =? e)%nat && (k mod 3 =? d)%nat
                                    then 1%R else 0%R)).
  2:{ intros k Hk. unfold uniform_translation.
      destruct (Nat.ltb_spec k (3 * n)); [|lia]. cbn [andb].
      destruct (k mod 3 =? e)%nat, (k mod 3 =? d)%nat; cbn [andb]; lra. }
  induction n as [|n IH]; [by destruct (e =? d)%nat|].
  replace (3 * S n)%nat with (S (S (S (3 * n)))) by lia. cbn [sum_n]. rewrite IH.
  rewrite S_INR.
  assert ((3 * n) mod 3 = 0 /\ (S (3 * n)) mod 3 = 1 /\ (S (S (3 * n))) mod 3 = 2)%nat
    as (-> & -> & ->).
  { split_and!.
    - rewrite Nat.mul_comm. apply Nat.Div0.mod_mul.
    - replace (S (3 * n)) with (1 + n * 3)%nat by lia. by rewrite Nat.Div0.mod_add.
    - replace (S (S (3 * n))) with (2 + n * 3)%nat by lia. by rewrite Nat.Div0.mod_add. }
  destruct d as [|[|[|d]]]; [| | |lia]; destruct e as [|[|[|e]]]; try lia;
    cbn [Nat.eqb andb]; lra.
Qed.

Lemma sqrt_INR_sqr (n : nat) : (sqrt (INR n) * sqrt (INR n))%R = INR n.
Proof. apply sqrt_sqrt, pos_INR. Qed.

Lemma sqrt_INR_neq_0 (n : nat) : (1 <= n)%nat -> sqrt (INR n) <> 0%R.
Proof.
  intros Hn H. pose proof (sqrt_INR_sqr n) as Hs. rewrite H in Hs.
  assert (0 < INR n)%R by (apply lt_0_INR; lia). lra.
Qed.

(** The array [trans] that the loop of [CustomASR] builds is the projector. *)
Lemma CustomASR_trans_projector (n r c : nat) : CustomASR_trans n r c = asr_projector n r c.
Proof.
  unfold CustomASR_trans, asr_projector, project_out, outer, unit_translation.
  cbn [range seq fold_left sum_n].
  rewrite !uniform_translation_dot by lia. cbn [Nat.eqb]. lra.
Qed.

(** The projector sends every uniform translation to zero. *)
Lemma asr_projector_kills (n d l : nat) :
  (1 <= n)%nat -> (d < 3)%nat -> (l < 3 * n)%nat ->
  mvdot (3 * n) (asr_projector n) (uniform_translation n d) l = 0%R.
Proof.
  intros Hn Hd Hl. unfold mvdot.
  pose proof (sqrt_INR_neq_0 n Hn) as Hs. pose proof (sqrt_INR_sqr n) as Hsq.
  assert (INR n <> 0)%R as Hn0 by (apply not_0_INR; lia).
  set (u := uniform_translation n).
  rewrite (sum_n_ext _ _
    (fun k => (eye l k * u d k
               - ((u 0%nat l / INR n) * (u 0%nat k * u d k)
                  + ((u 1%nat l / INR n) * (u 1%nat k * u d k)
                     + (u 2%nat l / INR n) * (u 2%nat k * u d k))))%R)).
  2:{ intros k Hk. unfold asr_projector, unit_translation. cbn [sum_n]. fold u.
      set (s := sqrt (INR n)) in *. rewrite <- Hsq. field. done. }
  rewrite sum_n_minus, !sum_n_plus, !sum_n_scal, sum_n_eye by done.
  fold (vdot (3 * n) (u 0%nat) (u d)) (vdot (3 * n) (u 1%nat) (u d))
       (vdot (3 * n) (u 2%nat) (u d)).
  unfold u. rewrite !uniform_translation_dot by lia.
  destruct d as [|[|[|d]]]; [| | |lia]; cbn [Nat.eqb]; field; done.
Qed.

(** A product [A (F P)] applied to a vector that [P] sends to zero. *)
Lemma mdot_kills (n : nat) (A F P : nat -> nat -> R) (u : nat -> R) (r : nat) :
  (forall l, (l < n)%nat -> mvdot n P u l = 0%R) ->
  mvdot n (mdot n A (mdot n F P)) u r = 0%R.
Proof.
  intros HP. unfold mvdot, mdot.
  rewrite (sum_n_ext _ _ (fun c => sum_n n (fun k =>
             (A r k * sum_n n (fun l => F k l * (P l c * u c)))%R))).
  2:{ intros c Hc. rewrite sum_n_scal_r. apply sum_n_ext. intros k Hk.
      rewrite Rmult_assoc. f_equal. rewrite sum_n_scal_r.
      apply sum_n_ext. intros l Hl. ring. }
  rewrite sum_n_swap.
  rewrite (sum_n_ext _ _ (fun _ => 0%R)); [apply sum_n_zero|].
  intros k Hk. rewrite sum_n_scal.
  rewrite sum_n_swap.
  rewrite (sum_n_ext _ _ (fun _ => 0%R)); [rewrite sum_n_zero; lra|].
  intros l Hl. rewrite sum_n_scal. unfold mvdot in HP. rewrite (HP l Hl). lra.
Qed.

Lemma mdot_ext (n : nat) (A A' B B' : nat -> nat -> R) (r c : nat) :
  (forall k, A r k = A' r k) -> (forall k, B k c = B' k c) ->
  mdot n A B r c = mdot n A' B' r c.
Proof.
  intros HA HB. unfold mdot. apply sum_n_ext. intros k _. by rewrite HA, HB.
Qed.


(** C10. [CustomASR] raises a [ValueError] and leaves the array as it was
    when the array is not square or its side is not divisible by 3; on a
    square array whose side is divisible by 3 and not zero it raises
    nothing. *)
Theorem CustomASR_rejects (fc_matrix : ndarray2) :
  (shape0 fc_matrix <> shape1 fc_matrix \/ (shape0 fc_matrix) mod 3 <> 0%nat ->
   exists msg, CustomASR fc_matrix = (fc_matrix, Some (ValueError msg)))
  /\ (shape0 fc_matrix = shape1 fc_matrix -> (shape0 fc_matrix) mod 3 = 0%nat ->
      shape0 fc_matrix <> 0%nat ->
      (CustomASR fc_matrix).2 = None).
Proof.
  unfold CustomASR. cbv zeta.
  pose proof (Nat.div_mod_eq (shape0 fc_matrix) 3) as Hdm.
  split.
  - intros H.
    destruct (Nat.eqb_spec (shape0 fc_matrix) (shape1 fc_matrix)) as [He|Hne]; cbn [negb].
    + destruct H as [H|H]; [done|].
      destruct (Nat.eqb_spec (shape0 fc_matrix / 3 * 3) (shape0 fc_matrix)) as [E|E];
        cbn [negb].
      * exfalso. lia.
      * by eexists.
    + by eexists.
  - intros He Hm Hz.
    destruct (Nat.eqb_spec (shape0 fc_matrix) (shape1 fc_matrix)) as [_|Hne]; [|done].
    cbn [negb].
    destruct (Nat.eqb_spec (shape0 fc_matrix / 3 * 3) (shape0 fc_matrix)) as [E|E];
      cbn [negb]; [|exfalso; lia].
    destruct (Nat.eqb_spec (shape0 fc_matrix) 0) as [|_]; [done|]. done.
Qed.


(** A 2x3 array and a 4x4 array are refused; a 3x3 array is accepted. *)
Lemma CustomASR_rejects_witness :
  (exists msg, CustomASR array_2x3 = (array_2x3, Some (ValueError msg)))
  /\ (exists msg, CustomASR array_4x4 = (array_4x4, Some (ValueError msg)))
  /\ (CustomASR (array3 1)).2 = None.
Proof.
  split_and!.
  - apply (proj1 (CustomASR_rejects array_2x3)). left. simpl. lia.
  - apply (proj1 (CustomASR_rejects array_4x4)). right. simpl. lia.
  - apply (proj2 (CustomASR_rejects (array3 1))); simpl; [reflexivity|reflexivity|lia].
Defined.

(** C10 fails on the empty array: it is square and its side, zero, is
    divisible by 3, yet reading its entry [0, 0] raises an [IndexError]. *)
Lemma CustomASR_empty_array :
  shape0 array_empty = shape1 array_empty
  /\ (shape0 array_empty) mod 3 = 0%nat
  /\ CustomASR array_empty = (array_empty, Some (IndexError msg_axis0_empty)).
Proof. split_and!; reflexivity. Qed.

(** ** Effective charges under the sum rule *)

Section SumRuleProofs.
Variable set_asr :
  string -> Z -> (nat -> nat -> Q) -> (nat -> nat -> nat -> nat -> R) -> zeu_array ->
  (nat -> nat -> nat -> nat -> R) * zeu_array.

(** C8. In the custom mode [ImposeSumRule] leaves the effective charges as
    they were, whether supplied or not: the call does to the force-constant
    matrix what [CustomASR] does and touches nothing else.  In every other
    mode the call is delegated, and the charges of every atom are
    overwritten with what the delegated routine returns for them. *)
Theorem ImposeSumRule_custom_keeps_charges (self : QE_Symmetry) (force_constant : ndarray2)
    (axis : Z) (zeu : option zeu_array) :
  ImposeSumRule set_asr self force_constant "custom" axis zeu
  = ((CustomASR force_constant).1, zeu, (CustomASR force_constant).2)
  /\ forall asr z, String.eqb asr "custom" = false ->
       exists fc',
         ImposeSumRule set_asr self force_constant asr axis (Some z)
         = (fc',
            Some (fun na a b =>
                    if (na <? QE_nat self)%nat
                    then (set_asr asr axis (QE_tau self)
                            (to_blocks (QE_nat self) (entry force_constant))
                            (einsum_kji z)).2 a b na
                    else z na a b),
            None).
Proof.
  split.
  - unfold ImposeSumRule. cbn [String.eqb Ascii.eqb Bool.eqb negb].
    by destruct (CustomASR force_constant) as [fc' e].
  - intros asr z Hasr. unfold ImposeSumRule. rewrite Hasr. cbn [negb].
    destruct (set_asr asr axis (QE_tau self) _ (einsum_kji z)) as [fc1 z1].
    by eexists.
Qed.

End SumRuleProofs.

(** With a routine that changes the charges, the simple mode changes them
    and the custom mode does not. *)
Lemma ImposeSumRule_custom_keeps_charges_witness :
  (ImposeSumRule toy_set_asr toy_discovered (array3 1) "custom" 1 (Some toy_zeu)).1.2
  = Some toy_zeu
  /\ exists fc' zeu',
       ImposeSumRule toy_set_asr toy_discovered (array3 1) "simple" 1 (Some toy_zeu)
       = (fc', Some zeu', None)
       /\ zeu' 0%nat 0%nat 1%nat = 0%R
       /\ toy_zeu 0%nat 0%nat 1%nat = 3%R.
Proof.
  destruct (ImposeSumRule_custom_keeps_charges toy_set_asr toy_discovered (array3 1) 1
              (Some toy_zeu)) as [Hcustom Hother].
  split.
  - by rewrite Hcustom.
  - destruct (Hother "simple" toy_zeu eq_refl) as (fc' & Hrun).
    exists fc'. eexists. split; [exact Hrun|].
    split.
    + change (QE_nat toy_discovered) with 1%nat. cbn. unfold einsum_kji, toy_zeu. lra.
    + unfold toy_zeu. cbn. lra.
Defined.

(** ** Propagation of the error of a tensor *)

Lemma propagate_error_upd (sym : (nat -> nat -> R) -> nat -> nat -> R)
    (err err_new : nat -> nat -> R) (i j : nat) :
  propagate_error sym err err_new (i, j) = upd2 err_new i j (propagated_error sym err i j).
Proof.
  unfold propagate_error, propagated_error. fold (contributing sym i j).
  by destruct (contributing sym i j).
Qed.

(** A loop of writes, each to its own position with a value that depends
    on the position only, leaves at a position the value written there. *)
Lemma fold_upd2 (v : nat -> nat -> R) (ps : list (nat * nat)) (m0 : nat -> nat -> R)
    (i j : nat) :
  fold_left (fun m (p : nat * nat) => upd2 m p.1 p.2 (v p.1 p.2)) ps m0 i j
  = if bool_decide ((i, j) ∈ ps) then v i j else m0 i j.
Proof.
  revert m0. induction ps as [|[a b] ps IH]; intros m0; [done|].
  cbn [fold_left]. rewrite IH. cbn [fst snd].
  destruct (bool_decide_reflect ((i, j) ∈ ps)) as [Hin|Hnin].
  - rewrite bool_decide_eq_true_2; [done|]. by apply list_elem_of_further.
  - unfold upd2.
    destruct (Nat.eqb_spec i a) as [->|Hi]; destruct (Nat.eqb_spec j b) as [->|Hj]; cbn [andb].
    + rewrite bool_decide_eq_true_2; [done|]. apply list_elem_of_here.
    + rewrite bool_decide_eq_false_2; [done|].
      intros [H|H]%elem_of_cons; [congruence|done].
    + rewrite bool_decide_eq_false_2; [done|].
      intros [H|H]%elem_of_cons; [congruence|done].
    + rewrite bool_decide_eq_false_2; [done|].
      intros [H|H]%elem_of_cons; [congruence|done].
Qed.

Lemma fold_left_pointwise {A B} (f g : A -> B -> A) (l : list B) (a : A) :
  (forall a b, f a b = g a b) -> fold_left f l a = fold_left g l a.
Proof.
  intros H. revert a. induction l as [|b l IH]; intros a; simpl; [done|].
  by rewrite H, IH.
Qed.

Lemma positions3_elem (i j : nat) : (i < 3)%nat -> (j < 3)%nat -> (i, j) ∈ positions3.
Proof.
  intros Hi Hj.
  destruct i as [|[|[|i]]]; [| | |lia]; destruct j as [|[|[|j]]]; try lia;
    apply (bool_decide_unpack _); by vm_compute.
Qed.

Section TensorProofs.
Variable covariant_coordinates : (nat -> nat -> Q) -> qvec -> qvec.
Variable symm_base_run :
  Q -> (nat -> nat -> Q) -> (nat -> nat -> Q) -> (nat -> nat -> Q) -> list Z -> nat -> qvec -> symm_base.
Variable sgam_ph_new :
  (nat -> nat -> Q) -> (nat -> nat -> Q) -> Z -> (nat -> nat -> nat -> Z) ->
  (nat -> nat -> Z) -> (nat -> nat -> Q) -> nat -> nat -> nat -> nat -> Q.
Variable symmatrix :
  (nat -> nat -> R) -> (nat -> nat -> nat -> Z) -> Z -> (nat -> nat -> Q) -> (nat -> nat -> Q) ->
  nat -> nat -> R.

Local Abbreviation discover := (SetupQPoint covariant_coordinates symm_base_run sgam_ph_new).
Local Abbreviation symmetrize_tensor :=
  (ApplySymmetryToMatrix covariant_coordinates symm_base_run sgam_ph_new symmatrix).


End TensorProofs.


(** ** The table before discovery *)

Lemma for_each_exn {A S} (P : exn -> Prop) (xs : list A) (body : A -> S -> res S) (s : S)
    (e : exn) :
  (forall x s e, body x s = Raise e -> P e) -> for_each xs body s = Raise e -> P e.
Proof.
  intros Hbody. revert s. induction xs as [|x xs IH]; intros s; simpl; [done|].
  destruct (body x s) as [s'|e'] eqn:E; simpl.
  - apply IH.
  - intros [= <-]. by eapply Hbody.
Qed.

Lemma getitem_exn {A} (a : list A) (i : nat) (e : exn) :
  getitem a i = Raise e -> e = IndexError msg_index_range.
Proof. unfold getitem. destruct (a !! i); [done|]. by intros [= <-]. Qed.

Lemma setitem_exn {A} (a : list A) (i : nat) (x : A) (e : exn) :
  setitem a i x = Raise e -> e = IndexError msg_index_range.
Proof. unfold setitem. case_decide; [done|]. by intros [= <-]. Qed.

Lemma identify_exn (dist : qvec -> qvec -> Q) (s : star_out) (current_q : list qvec)
    (xq : nat) (sorting_q : list nat) (e : exn) :
  identify dist s current_q xq sorting_q = Raise e -> star_exn e.
Proof.
  unfold identify. destruct (getitem current_q xq) as [q|e'] eqn:Eq; simpl.
  2:{ intros [= <-]. left. by eapply getitem_exn. }
  destruct (for_each _ _ (sorting_q, 0%nat)) as [[sq count]|e'] eqn:Ef; simpl.
  - destruct (count =? 1)%nat; simpl; [done|]. intros [= <-]. right. by right.
  - intros [= <-]. left.
    apply (for_each_exn (fun e => e = IndexError msg_index_range) _ _ _ _) in Ef; [done|].
    intros yq [sq c] e0. unfold identify_step.
    destruct (Qltb _ _); [|done].
    destruct (setitem sq xq yq) eqn:Es; simpl; [done|].
    intros [= <-]. by eapply setitem_exn.
Qed.

Lemma accumulate_exn (n : nat) (dyn_star : nat -> cblocks) (sorting_q : list nat) (xq : nat)
    (final_fc : list cmatrix) (e : exn) :
  accumulate n dyn_star sorting_q xq final_fc = Raise e -> star_exn e.
Proof.
  unfold accumulate. destruct (getitem sorting_q xq) as [k|e'] eqn:Ek; simpl.
  2:{ intros [= <-]. left. by eapply getitem_exn. }
  destruct (getitem final_fc xq) as [m|e'] eqn:Em; simpl.
  2:{ intros [= <-]. left. by eapply getitem_exn. }
  intros H. left. by eapply setitem_exn.
Qed.

Section Uninitialized.
Variable get_reciprocal_vectors : Structure -> nat -> nat -> Q.
Variable covariant_coordinates : (nat -> nat -> Q) -> qvec -> qvec.
Variable symm_base_run :
  Q -> (nat -> nat -> Q) -> (nat -> nat -> Q) -> (nat -> nat -> Q) -> list Z -> nat -> qvec -> symm_base.
Variable sgam_ph_new :
  (nat -> nat -> Q) -> (nat -> nat -> Q) -> Z -> (nat -> nat -> nat -> Z) ->
  (nat -> nat -> Z) -> (nat -> nat -> Q) -> nat -> nat -> nat -> nat -> Q.
Variable cryst_to_cart : (nat -> nat -> Q) -> (nat -> nat -> Q) -> Z -> nat -> nat -> Q.
Variable convert_matrix_cart_cryst :
  (nat -> nat -> complex) -> (nat -> nat -> Q) -> bool -> nat -> nat -> complex.
Variable symdynph_gq_new :
  qvec -> cblocks -> (nat -> nat -> nat -> Z) -> (nat -> Z) -> (nat -> nat -> nat -> Q) ->
  (nat -> nat -> Z) -> Z -> bool -> Z -> nat -> cblocks.
Variable symvector :
  Z -> (nat -> nat -> Z) -> (nat -> nat -> nat -> Z) -> (nat -> nat -> Q) -> (nat -> nat -> Q) ->
  (nat -> nat -> Q) -> nat -> nat -> nat -> Q.
Variable star_q :
  qvec -> (nat -> nat -> Q) -> (nat -> nat -> Q) -> Z -> (nat -> nat -> nat -> Z) -> (nat -> Z) ->
  star_out.
Variable q2qstar_out :
  cmatrix -> (nat -> nat -> Q) -> (nat -> nat -> Q) -> Z -> (nat -> nat -> nat -> Z) ->
  (nat -> Z) -> (nat -> nat -> Z) -> (nat -> nat -> nat -> Q) -> star_out -> nat ->
  nat -> cblocks.
Variable get_min_dist_into_cell : (nat -> nat -> Q) -> qvec -> qvec -> Q.
Variable symmatrix :
  (nat -> nat -> R) -> (nat -> nat -> nat -> Z) -> Z -> (nat -> nat -> Q) -> (nat -> nat -> Q) ->
  nat -> nat -> R.

Local Abbreviation discover := (SetupQPoint covariant_coordinates symm_base_run sgam_ph_new).
Local Abbreviation apply_star :=
  (ApplyQStar covariant_coordinates symm_base_run sgam_ph_new star_q q2qstar_out
     get_min_dist_into_cell).
Local Abbreviation partition :=
  (SetupQStar covariant_coordinates symm_base_run sgam_ph_new star_q get_min_dist_into_cell).
Local Abbreviation symmetrize_tensor :=
  (ApplySymmetryToMatrix covariant_coordinates symm_base_run sgam_ph_new symmatrix).

(** A table is uninitialized when it leaves the constructor. *)
Lemma init_Uninitialized (st : Structure) (thr : Q) (self : QE_Symmetry) :
  QE_Symmetry__init__ get_reciprocal_vectors st thr = Ok self -> Uninitialized self.
Proof.
  unfold QE_Symmetry__init__. destruct (has_unit_cell st); simpl; [|done].
  destruct (for_each _ _ _) as [[[symbs counter] ityp]|e]; simpl; [|done].
  by intros [= <-].
Qed.

(** Neither [SymmetrizeDynQ] nor [SymmetrizeVector] looks at the state of
    the table. *)
Lemma SymmetrizeDynQ_returns (self : QE_Symmetry) (dyn_matrix : cmatrix) (q_point : qvec) :
  length q_point = 3%nat ->
  exists new, SymmetrizeDynQ convert_matrix_cart_cryst symdynph_gq_new self dyn_matrix q_point
              = Ok new.
Proof.
  intros Hq. destruct q_point as [|x [|y [|z [|w l]]]]; try done.
  unfold SymmetrizeDynQ. simpl. by eexists.
Qed.

Lemma SymmetrizeVector_returns (self : QE_Symmetry) (vector : nat -> nat -> Q) :
  exists new, SymmetrizeVector symvector self vector = Ok new.
Proof. unfold SymmetrizeVector. by eexists. Qed.

Lemma star_member_step_exn (self : QE_Symmetry) (fcq : list cmatrix)
    (q_point_group : list qvec) (i : nat) (final_fc : list cmatrix) (e : exn) :
  star_member_step star_q q2qstar_out get_min_dist_into_cell self fcq q_point_group i final_fc
  = Raise e ->
  star_exn e.
Proof.
  unfold star_member_step.
  destruct (getitem q_point_group i) as [q|e'] eqn:Eq; simpl.
  2:{ intros [= <-]. left. by eapply getitem_exn. }
  destruct (nq_new _ =? length q_point_group)%nat; simpl.
  2:{ intros [= <-]. right. by left. }
  destruct (getitem fcq i) as [fc|e'] eqn:Efc; simpl.
  2:{ intros [= <-]. left. by eapply getitem_exn. }
  destruct (for_each _ (identify _ _ _) _) as [sorting_q|e'] eqn:Ei; simpl.
  2:{ intros [= <-]. eapply for_each_exn; [|exact Ei].
      intros x s0 e0. apply identify_exn. }
  intros Ha. eapply for_each_exn; [|exact Ha].
  intros x s0 e0. apply accumulate_exn.
Qed.

Lemma ApplyQStar_exn (self : QE_Symmetry) (fcq : list cmatrix) (q_point_group : list qvec)
    (e : exn) :
  (apply_star self fcq q_point_group).2 = Some e -> star_exn e.
Proof.
  unfold ApplyQStar.
  destruct (SetupQPoint_Gamma covariant_coordinates symm_base_run sgam_ph_new self)
    as [self' ->].
  unfold ApplyQStar_final_fc.
  destruct (for_each _ _ _) as [F|e'] eqn:Ef; simpl; [done|].
  intros [= <-]. eapply for_each_exn; [|exact Ef].
  intros x s0 e0. apply star_member_step_exn.
Qed.

(** C3. On a table in the uninitialized state [ForceSymmetry] fails with
    the [ValueError] that asks for [SetupQPoint].  [ApplySymmetryToMatrix],
    [ApplyQStar] and [SetupQStar] do not fail for that reason: each of them
    runs the discovery at the zero q-point itself before anything else, and
    works with the table so discovered. *)
Theorem uninitialized_table (self : QE_Symmetry) (st : Structure)
    (matrix : nat -> nat -> R) (err : option (nat -> nat -> R))
    (fcq : list cmatrix) (q_point_group q_tot : list qvec) (fuel : nat) :
  Uninitialized self ->
  ForceSymmetry cryst_to_cart self st = Raise (ValueError msg_not_initialized)
  /\ (exists self' new err',
        discover self zeros3 = Ok self'
        /\ symmetrize_tensor self matrix err = Ok (self', new, err'))
  /\ (exists self',
        discover self zeros3 = Ok self'
        /\ (apply_star self fcq q_point_group).1.1 = self'
        /\ (apply_star self fcq q_point_group).2 <> Some (ValueError msg_not_initialized))
  /\ partition fuel self q_tot <> Some (Raise (ValueError msg_not_initialized)).
Proof.
  intros Hun.
  destruct (SetupQPoint_Gamma covariant_coordinates symm_base_run sgam_ph_new self)
    as [self' Hd].
  split_and!.
  - unfold ForceSymmetry. unfold Uninitialized in Hun. by rewrite Hun.
  - exists self'. unfold ApplySymmetryToMatrix. rewrite Hd. simpl. by do 2 eexists.
  - exists self'. split_and!; [done| |].
    + unfold ApplyQStar. rewrite Hd. by destruct (ApplyQStar_final_fc _ _ _ _ _ _).
    + intros H. apply ApplyQStar_exn in H as [H|[H|H]]; discriminate H.
  - intros H.
    apply (SetupQStar_raises covariant_coordinates symm_base_run sgam_ph_new star_q
             get_min_dist_into_cell) in H.
    discriminate H.
Qed.

End Uninitialized.

(** The fresh table of the one-atom crystal refuses [ForceSymmetry] and
    lets the tensor symmetrization discover the operations. *)
Lemma uninitialized_table_witness :
  Uninitialized toy_table
  /\ ForceSymmetry toy_cryst_to_cart toy_table toy_structure
     = Raise (ValueError msg_not_initialized)
  /\ (exists new err',
        ApplySymmetryToMatrix toy_covariant toy_symm_base toy_sgam toy_symmatrix toy_table
          (fun _ _ => 1%R) None = Ok (toy_discovered, new, err')).
Proof.
  assert (Uninitialized toy_table) as Hun by reflexivity.
  split; [exact Hun|].
  destruct (uninitialized_table toy_covariant toy_symm_base toy_sgam toy_cryst_to_cart
              toy_star_q toy_q2qstar toy_dist toy_symmatrix toy_table toy_structure
              (fun _ _ => 1%R) None toy_stack toy_star_pair toy_q_complete 3 Hun)
    as (Hforce & (self' & new & err' & Hd & Htensor) & _).
  split; [exact Hforce|].
  exists new, err'. rewrite Htensor. do 3 f_equal.
  rewrite toy_discovery_eq in Hd. by injection Hd.
Defined.

(** C3 fails on [SymmetrizeDynQ] and [SymmetrizeVector]: on the table that
    the constructor returns for the one-atom crystal, which is in the
    uninitialized state, both return instead of failing. *)
Lemma SymmetrizeDynQ_uninitialized :
  exists self,
    QE_Symmetry__init__ toy_reciprocal toy_structure __EPSILON__ = Ok self
    /\ Uninitialized self
    /\ (exists new, SymmetrizeDynQ toy_convert toy_symdynph self (toy_fc 1) zeros3 = Ok new)
    /\ (exists new, SymmetrizeVector toy_symvector self (fun _ _ => 1%Q) = Ok new).
Proof.
  destruct (QE_Symmetry__init__ toy_reciprocal toy_structure __EPSILON__) as [self|e] eqn:E.
  - exists self. split_and!; [done| | |].
    + by eapply init_Uninitialized.
    + by apply SymmetrizeDynQ_returns.
    + apply SymmetrizeVector_returns.
  - vm_compute in E. discriminate E.
Qed.

(** ** The inverse of an explicit operation *)

Lemma inverse_search_none (inv_sym : nat -> nat -> Q) (symmetries : list symmetry) (k : nat) :
  (forall s, s ∈ symmetries -> Qltb (sqdiff33 inv_sym s) __EPSILON__ = false) ->
  inverse_search inv_sym symmetries k = (k + length symmetries - 1)%nat.
Proof.
  revert k. induction symmetries as [|s l IH]; intros k H; simpl; [lia|].
  rewrite (H s) by apply list_elem_of_here.
  rewrite IH by (intros s' Hs'; apply H; by apply list_elem_of_further). lia.
Qed.

Lemma inverse_search_first (inv_sym : nat -> nat -> Q) (pre post : list symmetry)
    (s : symmetry) (k : nat) :
  (forall s', s' ∈ pre -> Qltb (sqdiff33 inv_sym s') __EPSILON__ = false) ->
  Qltb (sqdiff33 inv_sym s) __EPSILON__ = true ->
  inverse_search inv_sym (pre ++ s :: post) k = (k + length pre)%nat.
Proof.
  revert k. induction pre as [|s0 pre IH]; intros k Hpre Hs; simpl.
  - rewrite Hs. lia.
  - rewrite (Hpre s0) by apply list_elem_of_here.
    rewrite IH by (done || (intros s' Hs'; apply Hpre; by apply list_elem_of_further)). lia.
Qed.

(** What the code stores as inverse index: the position, counted from 1,
    of the first supplied operation whose rotation is within the tolerance
    of the inverse; and the number of supplied operations when there is no
    such operation. *)
Lemma inverse_index_spec (symmetries : list symmetry) (sym : symmetry)
    (inv_sym : nat -> nat -> Q) :
  linalg_inv sym = Ok inv_sym ->
  (forall pre s post, symmetries = pre ++ s :: post ->
     (forall s', s' ∈ pre -> Qltb (sqdiff33 inv_sym s') __EPSILON__ = false) ->
     Qltb (sqdiff33 inv_sym s) __EPSILON__ = true ->
     inverse_index symmetries sym = Ok (Z.of_nat (length pre) + 1)%Z)
  /\ (symmetries <> [] ->
      (forall s, s ∈ symmetries -> Qltb (sqdiff33 inv_sym s) __EPSILON__ = false) ->
      inverse_index symmetries sym = Ok (Z.of_nat (length symmetries))).
Proof.
  intros Hinv. unfold inverse_index. rewrite Hinv. simpl. split.
  - intros pre s post -> Hpre Hs. by rewrite inverse_search_first.
  - intros Hne Hnone. rewrite inverse_search_none by done.
    destruct symmetries; [done|]. simpl. f_equal. lia.
Qed.

(** C9 on the code: the quarter turn about z is supplied without its
    inverse.  No supplied rotation is within the tolerance of the inverse,
    and the call returns with the index of the last supplied operation, the
    quarter turn itself, stored as its inverse. *)
Lemma InitFromSymmetries_missing_inverse :
  (exists inv_sym,
     linalg_inv sym_c4z = Ok inv_sym
     /\ forall s, s ∈ [sym_identity; sym_c4z] ->
          Qltb (sqdiff33 inv_sym s) __EPSILON__ = false)
  /\ inverse_index [sym_identity; sym_c4z] sym_c4z = Ok 2%Z
  /\ match InitFromSymmetries toy_reciprocal toy_covariant toy_put_into_cell
             toy_apply_symmetry toy_equivalent_atoms toy_table [sym_identity; sym_c4z] zeros3
     with
     | Ok self => QE_invs self 1%nat = 2%Z /\ QE_nsymq self = 2%Z
     | Raise _ => False
     end.
Proof.
  split_and!.
  - exists (fun i j => (adj3 sym_c4z i j / det3 sym_c4z)%Q). split; [reflexivity|].
    intros s Hs. rewrite !elem_of_cons, elem_of_nil in Hs.
    destruct Hs as [-> | [-> | []]]; by vm_compute.
  - by vm_compute.
  - by vm_compute.
Qed.

(** With the inverse supplied the index stored is the one of the inverse. *)
Lemma InitFromSymmetries_inverse_present :
  inverse_index [sym_identity; sym_c4z; sym_c4z_inv] sym_c4z = Ok 3%Z
  /\ inverse_index [sym_identity; sym_c4z; sym_c4z_inv] sym_identity = Ok 1%Z.
Proof. split; by vm_compute. Qed.

(** ** The sum rule as a projection *)

Lemma sum_n_eye_r (n c : nat) (f : nat -> R) :
  (c < n)%nat -> sum_n n (fun k => (f k * eye k c)%R) = f c.
Proof.
  intros Hc. rewrite <- (sum_n_eye n c f Hc). apply sum_n_ext. intros k _.
  unfold eye. rewrite (Nat.eqb_sym k c). lra.
Qed.

Lemma asr_projector_sym (n r c : nat) : asr_projector n r c = asr_projector n c r.
Proof.
  unfold asr_projector, eye. rewrite (Nat.eqb_sym r c). cbn [sum_n]. ring.
Qed.

Lemma mdot_ext_lt (n : nat) (A A' B B' : nat -> nat -> R) (r c : nat) :
  (forall k, (k < n)%nat -> A r k = A' r k) -> (forall k, (k < n)%nat -> B k c = B' k c) ->
  mdot n A B r c = mdot n A' B' r c.
Proof.
  intros HA HB. unfold mdot. apply sum_n_ext. intros k Hk. by rewrite HA, HB.
Qed.

Lemma mdot_assoc (n : nat) (A B C : nat -> nat -> R) (r c : nat) :
  mdot n A (mdot n B C) r c = mdot n (mdot n A B) C r c.
Proof.
  unfold mdot.
  rewrite (sum_n_ext _ _ (fun k => sum_n n (fun l => (A r k * B k l * C l c)%R))).
  2:{ intros k _. rewrite <- sum_n_scal. apply sum_n_ext. intros l _. ring. }
  rewrite sum_n_swap. apply sum_n_ext. intros l _.
  by rewrite sum_n_scal_r.
Qed.

Lemma mdot_transpose (n : nat) (A B : nat -> nat -> R) (r c : nat) :
  mdot n (transpose B) (transpose A) r c = mdot n A B c r.
Proof. unfold mdot, transpose. apply sum_n_ext. intros k _. ring. Qed.

(** A matrix whose row [r] is orthogonal to the three uniform translations
    keeps that row when it is multiplied by the projector on the right. *)
Lemma mdot_projector_r (n : nat) (A : nat -> nat -> R) (r c : nat) :
  (c < 3 * n)%nat ->
  (forall d, (d < 3)%nat -> mvdot (3 * n) A (uniform_translation n d) r = 0%R) ->
  mdot (3 * n) A (asr_projector n) r c = A r c.
Proof.
  intros Hc HA. unfold mdot.
  assert (1 <= n)%nat as Hn by lia.
  pose proof (sqrt_INR_neq_0 n Hn) as Hs.
  set (u := uniform_translation n). set (s := sqrt (INR n)) in *.
  set (w := fun d : nat => (u d c / (s * s))%R).
  rewrite (sum_n_ext _ _
    (fun k => (A r k * eye k c
               - ((A r k * u 0%nat k) * w 0%nat
                  + ((A r k * u 1%nat k) * w 1%nat + (A r k * u 2%nat k) * w 2%nat)))%R)).
  2:{ intros k Hk. unfold asr_projector, unit_translation, w. cbn [sum_n]. fold u s.
      field. done. }
  rewrite sum_n_minus, !sum_n_plus, sum_n_eye_r by done.
  rewrite <- (sum_n_scal_r (3 * n) (w 0%nat) (fun k => (A r k * u 0%nat k)%R)).
  rewrite <- (sum_n_scal_r (3 * n) (w 1%nat) (fun k => (A r k * u 1%nat k)%R)).
  rewrite <- (sum_n_scal_r (3 * n) (w 2%nat) (fun k => (A r k * u 2%nat k)%R)).
  pose proof (HA 0%nat ltac:(lia)) as H0. pose proof (HA 1%nat ltac:(lia)) as H1.
  pose proof (HA 2%nat ltac:(lia)) as H2. unfold mvdot in H0, H1, H2. fold u in H0, H1, H2.
  rewrite H0, H1, H2. lra.
Qed.

(** The same on the left, for a column orthogonal to the translations. *)
Lemma mdot_projector_l (n : nat) (A : nat -> nat -> R) (r c : nat) :
  (r < 3 * n)%nat ->
  (forall d, (d < 3)%nat -> mvdot (3 * n) (transpose A) (uniform_translation n d) c = 0%R) ->
  mdot (3 * n) (asr_projector n) A r c = A r c.
Proof.
  intros Hr HA.
  rewrite <- (mdot_transpose (3 * n) (asr_projector n) A c r).
  rewrite (mdot_ext_lt _ _ (transpose A) _ (asr_projector n)).
  - by apply (mdot_projector_r n (transpose A) c r).
  - done.
  - intros k _. unfold transpose. apply asr_projector_sym.
Qed.

(** The projector sends a product that ends with it to a vector orthogonal
    to the translations, on either side. *)
Lemma projected_kills_r (n : nat) (A : nat -> nat -> R) (d r : nat) :
  (1 <= n)%nat -> (d < 3)%nat ->
  mvdot (3 * n) (mdot (3 * n) A (asr_projector n)) (uniform_translation n d) r = 0%R.
Proof.
  intros Hn Hd. unfold mvdot, mdot.
  rewrite (sum_n_ext _ _ (fun c => sum_n (3 * n) (fun k =>
             (A r k * (asr_projector n k c * uniform_translation n d c))%R))).
  2:{ intros c _. rewrite sum_n_scal_r. apply sum_n_ext. intros k _. ring. }
  rewrite sum_n_swap.
  rewrite (sum_n_ext _ _ (fun _ => 0%R)); [apply sum_n_zero|].
  intros k Hk. rewrite sum_n_scal.
  pose proof (asr_projector_kills n d k Hn Hd Hk) as H. unfold mvdot in H. rewrite H. lra.
Qed.

Lemma projected_kills_l (n : nat) (A : nat -> nat -> R) (d c : nat) :
  (1 <= n)%nat -> (d < 3)%nat ->
  mvdot (3 * n) (transpose (mdot (3 * n) (asr_projector n) A)) (uniform_translation n d) c
  = 0%R.
Proof.
  intros Hn Hd.
  rewrite <- (projected_kills_r n (transpose A) d c Hn Hd).
  unfold mvdot. apply sum_n_ext. intros k _. f_equal.
  unfold transpose at 1. rewrite <- mdot_transpose.
  apply mdot_ext_lt; [done|]. intros l _. unfold transpose. apply asr_projector_sym.
Qed.

(** What [CustomASR] does to an array of side 3 nat, nat >= 1. *)
Lemma CustomASR_run (fc_matrix : ndarray2) (n : nat) :
  (1 <= n)%nat -> shape0 fc_matrix = (3 * n)%nat -> shape1 fc_matrix = (3 * n)%nat ->
  (CustomASR fc_matrix).2 = None
  /\ shape0 (CustomASR fc_matrix).1 = (3 * n)%nat
  /\ shape1 (CustomASR fc_matrix).1 = (3 * n)%nat
  /\ (forall r c, (r < 3 * n)%nat -> (c < 3 * n)%nat ->
        entry (CustomASR fc_matrix).1 r c
        = mdot (3 * n) (asr_projector n) (mdot (3 * n) (entry fc_matrix) (asr_projector n)) r c)
  /\ (forall r c, ~ ((r < 3 * n)%nat /\ (c < 3 * n)%nat) ->
        entry (CustomASR fc_matrix).1 r c = entry fc_matrix r c).
Proof.
  intros Hn H0 H1. unfold CustomASR. cbv zeta. rewrite H0, H1, Nat.eqb_refl. cbn [negb].
  assert ((3 * n) / 3 = n)%nat as Hdiv.
  { rewrite Nat.mul_comm. apply Nat.div_mul. lia. }
  rewrite Hdiv. replace (n * 3 =? 3 * n)%nat with true by (symmetry; apply Nat.eqb_eq; lia).
  cbn [negb].
  destruct (Nat.eqb_spec (3 * n) 0) as [Hz|_]; [lia|].
  cbn [fst snd shape0 shape1 entry]. split_and!; [done|done|done| |].
  - intros r c Hr Hc.
    destruct (Nat.ltb_spec r (3 * n)); [|lia]. destruct (Nat.ltb_spec c (3 * n)); [|lia].
    cbn [andb]. apply mdot_ext.
    + intros k. apply CustomASR_trans_projector.
    + intros k. apply mdot_ext; [done|]. intros l. apply CustomASR_trans_projector.
  - intros r c Hrc.
    destruct (Nat.ltb_spec r (3 * n)); destruct (Nat.ltb_spec c (3 * n)); cbn [andb];
      try done. exfalso. apply Hrc. lia.
Qed.







(** ** The grid of q-points *)

Lemma length_bind_const {A B} (f : A -> list B) (l : list A) (m : nat) :
  (forall x, length (f x) = m) -> length (l ≫= f) = (length l * m)%nat.
Proof.
  intros Hf. induction l as [|x l IH]; [done|].
  rewrite bind_cons, length_app, IH, Hf. simpl. lia.
Qed.

Lemma grid_triples_length (supercell_size : nat -> Z) :
  length (grid_triples supercell_size)
  = (Z.to_nat (supercell_size 0%nat) * Z.to_nat (supercell_size 1%nat)
     * Z.to_nat (supercell_size 2%nat))%nat.
Proof.
  unfold grid_triples.
  rewrite (length_bind_const _ _ (Z.to_nat (supercell_size 1%nat)
                                   * Z.to_nat (supercell_size 2%nat))).
  - unfold range. rewrite length_seq. lia.
  - intros ix. rewrite (length_bind_const _ _ (Z.to_nat (supercell_size 2%nat))).
    + unfold range. by rewrite length_seq.
    + intros iy. rewrite (length_bind_const _ _ 1%nat).
      * unfold range. rewrite length_seq. lia.
      * done.
Qed.

Section QGridProofs.
Variable get_reciprocal_vectors : (nat -> nat -> Q) -> res (nat -> nat -> Q).
Variable put_into_cell : (nat -> nat -> Q) -> qvec -> qvec.
Variable get_min_dist_into_cell : (nat -> nat -> Q) -> qvec -> qvec -> Q.

Local Abbreviation grid := (GetQGrid get_reciprocal_vectors put_into_cell get_min_dist_into_cell).
Local Abbreviation check :=
  (CheckSupercellQ get_reciprocal_vectors put_into_cell get_min_dist_into_cell).
Local Abbreviation step := (grid_step put_into_cell get_min_dist_into_cell).
Local Abbreviation point := (grid_point put_into_cell).
Local Abbreviation strike := (strike_out get_min_dist_into_cell).
Local Abbreviation close bg q q' := (Qltb (get_min_dist_into_cell bg q q') __EPSILON__).
Local Abbreviation fresh_points := (fresh_points get_min_dist_into_cell).

(** The loop over the points already found. *)
Lemma check_new_point_loop (bg : nat -> nat -> Q) (q_vect : qvec) (q_list : list qvec) :
  for_each q_list (check_new_point get_min_dist_into_cell bg q_vect) ()
  = if existsb (fun q => close bg q_vect q) q_list then Raise (ValueError msg_q_twice) else Ok ().
Proof.
  induction q_list as [|q l IH]; [done|]. cbn [for_each existsb].
  unfold check_new_point in *.
  destruct (close bg q_vect q); cbn [mbind res_bind orb]; [done|]. exact IH.
Qed.

Lemma grid_steps (bg bg_s : nat -> nat -> Q) (ts : list (nat * nat * nat)) (acc : list qvec) :
  match for_each ts (step bg bg_s) acc with
  | Ok qs => qs = acc ++ (point bg bg_s <$> ts) /\ fresh_points bg acc (point bg bg_s <$> ts)
  | Raise e => e = ValueError msg_q_twice /\ ~ fresh_points bg acc (point bg bg_s <$> ts)
  end.
Proof.
  revert acc. induction ts as [|t ts IH]; intros acc.
  { simpl. split; [by rewrite app_nil_r|].
    intros i j qi qj Hij Hj _ Hqj. rewrite app_nil_r in Hqj.
    apply lookup_lt_Some in Hqj. lia. }
  cbn [for_each fmap list_fmap].
  replace (step bg bg_s t acc) with
    (_ ← for_each acc (check_new_point get_min_dist_into_cell bg (point bg bg_s t)) ();
     Ok (acc ++ [point bg bg_s t])) by done.
  rewrite check_new_point_loop.
  destruct (existsb (fun q => close bg (point bg bg_s t) q) acc) eqn:E; cbn [mbind res_bind].
  - split; [done|]. intros Hfresh.
    apply existsb_exists in E as (q & Hq & Hclose).
    apply list_elem_of_In, list_elem_of_lookup in Hq as [i Hi].
    pose proof (lookup_lt_Some _ _ _ Hi) as Hlt.
    rewrite (Hfresh i (length acc) q (point bg bg_s t)) in Hclose; [done|lia|lia| |].
    + by rewrite lookup_app_l.
    + by rewrite list_lookup_middle.
  - specialize (IH (acc ++ [point bg bg_s t])).
    assert (forall l : list qvec, (acc ++ [point bg bg_s t]) ++ l = acc ++ point bg bg_s t :: l)
      as Happ by (intros l; by rewrite <- app_assoc).
    destruct (for_each ts (step bg bg_s) (acc ++ [point bg bg_s t])) as [qs|e].
    + destruct IH as [-> Hfresh]. split; [apply Happ|].
      intros i j qi qj Hij Hj Hi Hqj.
      destruct (decide (j = length acc)) as [->|Hne].
      * rewrite list_lookup_middle in Hqj by done. injection Hqj as <-.
        rewrite lookup_app_l in Hi by lia.
        destruct (close bg (point bg bg_s t) qi) eqn:C; [|done].
        assert (existsb (fun q => close bg (point bg bg_s t) q) acc = true) as Hex; [|congruence].
        apply existsb_exists. exists qi. split; [|done].
        apply list_elem_of_In, list_elem_of_lookup. by exists i.
      * apply (Hfresh i j); [done| | |].
        -- rewrite length_app. simpl. lia.
        -- by rewrite Happ.
        -- by rewrite Happ.
    + destruct IH as [-> Hnot]. split; [done|]. intros Hfresh. apply Hnot.
      intros i j qi qj Hij Hj Hi Hqj. rewrite Happ in Hi, Hqj.
      apply (Hfresh i j); [done| |done|done].
      rewrite length_app in Hj. lia.
Qed.

(** X4. With the reciprocal vectors [bg] of the cell and [bg_s] of the
    supercell, the grid has one candidate point for every index triple of
    the supercell: the combination of the rows of [bg_s] with the triple
    as coefficients, folded into the cell of [bg].  [GetQGrid] returns
    these N1 N2 N3 points, in the order of the loops, when none of them
    lies within the tolerance of an earlier one, and it raises the
    [ValueError] of a point found twice otherwise. *)
Theorem GetQGrid_points (unit_cell : nat -> nat -> Q) (supercell_size : nat -> Z)
    (bg bg_s : nat -> nat -> Q) :
  get_reciprocal_vectors unit_cell = Ok bg ->
  get_reciprocal_vectors (supercell_of supercell_size unit_cell) = Ok bg_s ->
  let pts := grid_points put_into_cell bg bg_s supercell_size in
  length pts = (Z.to_nat (supercell_size 0%nat) * Z.to_nat (supercell_size 1%nat)
                * Z.to_nat (supercell_size 2%nat))%nat
  /\ (no_point_twice get_min_dist_into_cell bg pts -> grid unit_cell supercell_size = Ok pts)
  /\ (~ no_point_twice get_min_dist_into_cell bg pts ->
      grid unit_cell supercell_size = Raise (ValueError msg_q_twice)).
Proof.
  intros Hbg Hbgs pts. unfold GetQGrid. rewrite Hbg. cbn [mbind res_bind]. rewrite Hbgs.
  cbn [mbind res_bind].
  assert (fresh_points bg [] pts <-> no_point_twice get_min_dist_into_cell bg pts) as Hiff.
  { unfold fresh_points, no_point_twice. simpl. split.
    - intros H i j qi qj Hij. apply H; [done|lia].
    - intros H i j qi qj Hij _. by apply H. }
  pose proof (grid_steps bg bg_s (grid_triples supercell_size) []) as Hrun.
  fold (grid_points put_into_cell bg bg_s supercell_size) in Hrun. fold pts in Hrun.
  split_and!.
  - unfold pts, grid_points. rewrite length_fmap. apply grid_triples_length.
  - intros Hno. destruct (for_each _ _ []) as [qs|e].
    + destruct Hrun as [-> _]. done.
    + destruct Hrun as [_ Hnot]. exfalso. apply Hnot. by apply Hiff.
  - intros Hnot. destruct (for_each _ _ []) as [qs|e].
    + destruct Hrun as [_ Hfresh]. exfalso. apply Hnot. by apply Hiff.
    + by destruct Hrun as [-> _].
Qed.

(** *** Checking a list against the grid *)

Lemma length_delete_le {A} (l : list A) (i : nat) : (length l <= S (length (delete i l)))%nat.
Proof.
  revert i. induction l as [|x l IH]; intros [|i]; simpl; try lia.
  specialize (IH i). lia.
Qed.

Lemma strike_out_length (bg : nat -> nat -> Q) (correct_q : list qvec) (q : qvec) :
  (length correct_q <= S (length (strike bg correct_q q)))%nat.
Proof.
  unfold strike_out. destruct (first_match _ _ _ _ _) as [jq|]; [|lia].
  apply length_delete_le.
Qed.

Lemma strike_all_length (bg : nat -> nat -> Q) (q_list correct_q : list qvec) :
  (length correct_q <= length (fold_left (strike bg) q_list correct_q) + length q_list)%nat.
Proof.
  revert correct_q. induction q_list as [|q l IH]; intros correct_q; simpl; [lia|].
  pose proof (IH (strike bg correct_q q)). pose proof (strike_out_length bg correct_q q). lia.
Qed.

Lemma strike_all_nil (bg : nat -> nat -> Q) (q_list : list qvec) :
  fold_left (strike bg) q_list [] = [].
Proof. induction q_list as [|q l IH]; [done|]. simpl. exact IH. Qed.

Lemma strike_all_self (bg : nat -> nat -> Q) (g : list qvec) :
  (forall q, q ∈ g -> close bg q q = true) -> fold_left (strike bg) g g = [].
Proof.
  induction g as [|q g IH]; intros Hself; [done|].
  cbn [fold_left]. unfold strike_out at 2. cbn [first_match].
  rewrite (Hself q) by apply list_elem_of_here. cbn [delete].
  apply IH. intros q' Hq'. apply Hself. by apply list_elem_of_further.
Qed.

Lemma GetQGrid_Ok_bg (unit_cell : nat -> nat -> Q) (supercell_size : nat -> Z) (g : list qvec) :
  grid unit_cell supercell_size = Ok g -> exists bg, get_reciprocal_vectors unit_cell = Ok bg.
Proof.
  unfold GetQGrid. destruct (get_reciprocal_vectors unit_cell) as [bg|e]; [|done].
  by exists bg.
Qed.

(** X5. [CheckSupercellQ] accepts the list that [GetQGrid] returns for
    the same cell and supercell, as long as every point of the grid is
    within the tolerance of itself. *)
Theorem CheckSupercellQ_accepts_grid (unit_cell : nat -> nat -> Q) (supercell_size : nat -> Z)
    (bg : nat -> nat -> Q) (g : list qvec) :
  grid unit_cell supercell_size = Ok g ->
  get_reciprocal_vectors unit_cell = Ok bg ->
  (forall q, q ∈ g -> close bg q q = true) ->
  check unit_cell supercell_size g = Ok true.
Proof.
  intros Hg Hbg Hself. unfold CheckSupercellQ. rewrite Hg. cbn [mbind res_bind].
  rewrite Hbg. cbn [mbind res_bind]. by rewrite strike_all_self.
Qed.

(** X6. [CheckSupercellQ] raises exactly what [GetQGrid] raises, and when
    the grid exists it answers [False] for every list with fewer points
    than the grid. *)
Theorem CheckSupercellQ_short_list (unit_cell : nat -> nat -> Q) (supercell_size : nat -> Z)
    (q_list : list qvec) :
  (forall e, check unit_cell supercell_size q_list = Raise e
             <-> grid unit_cell supercell_size = Raise e)
  /\ (forall g, grid unit_cell supercell_size = Ok g -> (length q_list < length g)%nat ->
        check unit_cell supercell_size q_list = Ok false).
Proof.
  unfold CheckSupercellQ. split.
  - intros e. destruct (grid unit_cell supercell_size) as [g|e'] eqn:Hg; cbn [mbind res_bind].
    + destruct (GetQGrid_Ok_bg _ _ _ Hg) as [bg ->]. cbn [mbind res_bind].
      by destruct (0 <? _)%nat.
    + split; by intros [= ->].
  - intros g Hg Hlen. rewrite Hg. cbn [mbind res_bind].
    destruct (GetQGrid_Ok_bg _ _ _ Hg) as [bg ->]. cbn [mbind res_bind].
    pose proof (strike_all_length bg q_list g) as H.
    destruct (Nat.ltb_spec 0 (length (fold_left (strike bg) q_list g))); [done|lia].
Qed.

(** X7. Points that match nothing are never reported: a list that
    [CheckSupercellQ] accepts is still accepted with any points appended
    to it. *)
Theorem CheckSupercellQ_surplus (unit_cell : nat -> nat -> Q) (supercell_size : nat -> Z)
    (q_list more : list qvec) :
  check unit_cell supercell_size q_list = Ok true ->
  check unit_cell supercell_size (q_list ++ more) = Ok true.
Proof.
  unfold CheckSupercellQ.
  destruct (grid unit_cell supercell_size) as [g|e]; cbn [mbind res_bind]; [|done].
  destruct (get_reciprocal_vectors unit_cell) as [bg|e]; cbn [mbind res_bind]; [|done].
  rewrite fold_left_app.
  destruct (fold_left (strike bg) q_list g) as [|q l]; [|done].
  intros _. by rewrite strike_all_nil.
Qed.

End QGridProofs.

(** The grid of the doubled cubic cell: the zone centre and the zone
    boundary along x. *)
Lemma GetQGrid_points_witness :
  exists pts,
    GetQGrid toy_cell_reciprocal toy_put_into_cell toy_dist toy_cell toy_size = Ok pts
    /\ length pts = 2%nat.
Proof.
  pose (bg := fun i j : nat => if (i =? j)%nat then (/ toy_cell i i)%Q else 0%Q).
  pose (bg_s := fun i j : nat =>
                  if (i =? j)%nat then (/ supercell_of toy_size toy_cell i i)%Q else 0%Q).
  destruct (GetQGrid_points toy_cell_reciprocal toy_put_into_cell toy_dist toy_cell toy_size
              bg bg_s eq_refl eq_refl) as (Hlen & Hok & _).
  eexists. split; [|exact Hlen]. apply Hok.
  intros i j qi qj Hij Hi Hj.
  destruct i as [|[|i]]; destruct j as [|[|j]]; try lia; try done.
  vm_compute in Hi, Hj. injection Hi as <-. injection Hj as <-. by vm_compute.
Defined.

Lemma CheckSupercellQ_accepts_grid_witness :
  exists g,
    GetQGrid toy_cell_reciprocal toy_put_into_cell toy_dist toy_cell toy_size = Ok g
    /\ CheckSupercellQ toy_cell_reciprocal toy_put_into_cell toy_dist toy_cell toy_size g
       = Ok true.
Proof.
  destruct (GetQGrid toy_cell_reciprocal toy_put_into_cell toy_dist toy_cell toy_size)
    as [g|e] eqn:E; [|by vm_compute in E].
  exists g. split; [done|].
  apply (CheckSupercellQ_accepts_grid toy_cell_reciprocal toy_put_into_cell toy_dist toy_cell
           toy_size (fun i j : nat => if (i =? j)%nat then (/ toy_cell i i)%Q else 0%Q) g E
           eq_refl).
  vm_compute in E. injection E as <-. intros q Hq.
  rewrite !elem_of_cons, elem_of_nil in Hq. destruct Hq as [-> | [-> | []]]; by vm_compute.
Defined.

(** The zone centre alone passes for the single cell, and still passes
    with a stranger appended. *)
Lemma CheckSupercellQ_surplus_witness :
  CheckSupercellQ toy_cell_reciprocal toy_put_into_cell toy_dist toy_cell (fun _ => 1%Z)
    ([on_axis 0] ++ [on_axis (1 # 3)]) = Ok true.
Proof.
  apply (CheckSupercellQ_surplus toy_cell_reciprocal toy_put_into_cell toy_dist toy_cell
           (fun _ => 1%Z) [on_axis 0] [on_axis (1 # 3)]).
  by vm_compute.
Defined.

(** ** Operations converted from spglib *)

Lemma Qfloor_half (m : Z) : Qfloor (inject_Z m * (1 # 2)) = (m / 2)%Z.
Proof. unfold Qfloor, Qmult, inject_Z. simpl. by rewrite Z.mul_1_r. Qed.

Lemma Qfloor_plus_half (k : Z) : Qfloor (inject_Z k + (1 # 2)) = k.
Proof.
  unfold Qfloor, Qplus, inject_Z. simpl.
  symmetry. apply (Z.div_unique _ _ _ 1%Z); lia.
Qed.

Lemma half_split (m : Z) :
  (inject_Z m * (1 # 2) - inject_Z (m / 2) == inject_Z (m mod 2) * (1 # 2))%Q.
Proof.
  rewrite (Z.div_mod m 2) at 1 by lia.
  rewrite inject_Z_plus, inject_Z_mult. ring.
Qed.

(** What the rounding of a translation gives: half the parity of the
    nearest integer to twice the translation. *)
Lemma regolarize_entry_parity (x : Q) :
  (regolarize_entry x == inject_Z (Qfloor (x * 2 + (1 # 2)) mod 2) * (1 # 2))%Q.
Proof. unfold regolarize_entry. rewrite Qfloor_half. apply half_split. Qed.

Lemma regolarize_entry_values (x : Q) :
  (regolarize_entry x == 0)%Q \/ (regolarize_entry x == 1 # 2)%Q.
Proof.
  rewrite regolarize_entry_parity.
  pose proof (Z.mod_pos_bound (Qfloor (x * 2 + (1 # 2))) 2 ltac:(lia)) as H.
  destruct (decide (Qfloor (x * 2 + (1 # 2)) mod 2 = 0)%Z) as [->|Hne]; [by left|].
  right. replace (Qfloor (x * 2 + (1 # 2)) mod 2)%Z with 1%Z by lia. done.
Qed.

Lemma regolarize_entry_keeps (x : Q) :
  (regolarize_entry x == x - inject_Z (Qfloor x))%Q
  <-> exists k : Z, (x == inject_Z k * (1 # 2))%Q.
Proof.
  split.
  - intros H. rewrite regolarize_entry_parity in H.
    exists (2 * Qfloor x + Qfloor (x * 2 + (1 # 2)) mod 2)%Z.
    rewrite inject_Z_plus, inject_Z_mult.
    transitivity (inject_Z (Qfloor x)
                  + inject_Z (Qfloor (x * 2 + (1 # 2)) mod 2) * (1 # 2))%Q; [|ring].
    rewrite H. ring.
  - intros [k Hk]. rewrite regolarize_entry_parity.
    assert (Qfloor (x * 2 + (1 # 2)) = k) as ->.
    { rewrite <- (Qfloor_plus_half k). apply Qfloor_comp. rewrite Hk. ring. }
    assert (Qfloor x = (k / 2)%Z) as ->.
    { rewrite <- Qfloor_half. by apply Qfloor_comp. }
    rewrite Hk. symmetry. apply half_split.
Qed.

Section SpglibProofs.
Variable spglib_sym : gmap string spglib_value.
Variable rotations : list (nat -> nat -> Z).
Variable translations : list (nat -> Q).

Local Abbreviation step regolarize :=
  (spglib_step (IntArray3 rotations) (FloatArray2 translations) regolarize).

Lemma spglib_steps (regolarize : bool) (m : nat) :
  (m <= length translations)%nat -> (m <= length rotations)%nat ->
  exists syms : list symmetry,
    for_each (range m) (step regolarize) [] = Ok syms
    /\ length syms = m
    /\ forall i rot tr, (i < m)%nat -> rotations !! i = Some rot -> translations !! i = Some tr ->
         exists sym, syms !! i = Some sym
           /\ (forall a b, (b < 3)%nat -> sym a b = inject_Z (rot a b))
           /\ (forall a, sym a 3%nat = if regolarize then regolarize_entry (tr a) else tr a).
Proof.
  intros Ht Hr. unfold symmetry in *. induction m as [|m IH].
  { exists []. split_and!; [done|done|]. intros; lia. }
  destruct IH as (syms & Hrun & Hlen & Hsyms); [lia|lia|].
  destruct (lookup_lt_is_Some_2 rotations m) as [rot Hrot]; [lia|].
  destruct (lookup_lt_is_Some_2 translations m) as [tr Htr]; [lia|].
  rewrite range_S, for_each_app, Hrun. cbn [mbind res_bind for_each].
  unfold spglib_step, rotation_at, translation_at, getitem. rewrite Hrot, Htr.
  cbn [mbind res_bind]. unfold symmetry in *. eexists. split_and!; [reflexivity| |].
  - rewrite length_app, Hlen. simpl. lia.
  - intros i rot' tr' Hi Hrot' Htr'.
    destruct (decide (i = m)) as [->|Hne].
    + rewrite Hrot in Hrot'. rewrite Htr in Htr'. injection Hrot' as <-. injection Htr' as <-.
      eexists. split.
      { rewrite lookup_app_r by lia. rewrite Hlen, Nat.sub_diag. reflexivity. }
      split.
      * intros a b Hb. destruct (Nat.ltb_spec b 3); [done|lia].
      * intros a. cbn [Nat.ltb Nat.leb]. by destruct regolarize.
    + destruct (Hsyms i rot' tr' ltac:(lia) Hrot' Htr') as (sym & Hs & H1 & H2).
      exists sym. split; [|done]. rewrite lookup_app_l by lia. done.
Qed.

Lemma spglib_steps_short (regolarize : bool) :
  (length rotations < length translations)%nat ->
  for_each (range (length translations)) (step regolarize) [] = Raise (IndexError msg_index_range).
Proof.
  intros Hlen.
  replace (range (length translations))
    with (range (length rotations)
          ++ length rotations :: seq (S (length rotations))
                                   (length translations - S (length rotations))).
  2:{ unfold range.
      transitivity (seq 0 (length rotations + S (length translations - S (length rotations)))).
      - by rewrite seq_app.
      - f_equal. lia. }
  rewrite for_each_app.
  destruct (spglib_steps regolarize (length rotations) ltac:(lia) ltac:(lia)) as (syms & -> & _).
  cbn [mbind res_bind for_each]. unfold spglib_step, rotation_at, getitem.
  by rewrite lookup_ge_None_2.
Qed.

(** X8. For a dictionary whose translations are an (n, 3) array and
    whose rotations are an (m, 3, 3) array with n <= m,
    [GetSymmetriesFromSPGLIB] returns n operations (rotations beyond the
    n-th are ignored); operation i has rotation i in its first three
    columns and translation i in the last one, as given when [regolarize]
    is off, and rounded when it is on, in which case every component of
    every translation returned is 0 or 1/2. *)
Theorem GetSymmetriesFromSPGLIB_operations (regolarize : bool) :
  spglib_sym !! "translations" = Some (FloatArray2 translations) ->
  spglib_sym !! "rotations" = Some (IntArray3 rotations) ->
  (length translations <= length rotations)%nat ->
  exists syms,
    GetSymmetriesFromSPGLIB spglib_sym regolarize = Ok syms
    /\ length syms = length translations
    /\ forall i rot tr, rotations !! i = Some rot -> translations !! i = Some tr ->
         exists sym, syms !! i = Some sym
           /\ (forall a b, (b < 3)%nat -> sym a b = inject_Z (rot a b))
           /\ (forall a,
                 if regolarize
                 then sym a 3%nat = regolarize_entry (tr a)
                      /\ ((sym a 3%nat == 0)%Q \/ (sym a 3%nat == 1 # 2)%Q)
                 else sym a 3%nat = tr a).
Proof.
  intros Ht Hr Hlen. unfold GetSymmetriesFromSPGLIB. rewrite Ht, Hr. cbn [spglib_shape0].
  destruct (spglib_steps regolarize (length translations) ltac:(lia) Hlen)
    as (syms & Hrun & Hl & Hsyms).
  exists syms. split_and!; [done|done|].
  intros i rot tr Hrot Htr.
  destruct (Hsyms i rot tr (lookup_lt_Some _ _ _ Htr) Hrot Htr) as (sym & Hs & H1 & H2).
  exists sym. split_and!; [done|done|].
  intros a. specialize (H2 a). destruct regolarize; [|done].
  split; [done|]. rewrite H2. apply regolarize_entry_values.
Qed.

(** X9. With [regolarize] on, the translation returned agrees modulo 1
    with the one supplied exactly when the one supplied is a multiple of
    1/2: translations such as 1/3 are changed by the conversion. *)
Theorem GetSymmetriesFromSPGLIB_half_integers (syms : list symmetry) :
  spglib_sym !! "translations" = Some (FloatArray2 translations) ->
  spglib_sym !! "rotations" = Some (IntArray3 rotations) ->
  GetSymmetriesFromSPGLIB spglib_sym true = Ok syms ->
  forall i tr sym a, translations !! i = Some tr -> syms !! i = Some sym ->
    (sym a 3%nat == tr a - inject_Z (Qfloor (tr a)))%Q
    <-> exists k : Z, (tr a == inject_Z k * (1 # 2))%Q.
Proof.
  intros Ht Hr Hrun i tr sym a Htr Hsym.
  assert (sym a 3%nat = regolarize_entry (tr a)) as ->; [|apply regolarize_entry_keeps].
  revert Hrun. unfold GetSymmetriesFromSPGLIB. rewrite Ht, Hr. cbn [spglib_shape0].
  destruct (decide (length translations <= length rotations)%nat) as [Hle|Hgt].
  - destruct (spglib_steps true (length translations) ltac:(lia) Hle)
      as (syms' & Hrun & _ & Hsyms).
    rewrite Hrun. intros [= ->].
    pose proof (lookup_lt_Some _ _ _ Htr) as Hi.
    destruct (lookup_lt_is_Some_2 rotations i) as [rot Hrot]; [lia|].
    destruct (Hsyms i rot tr Hi Hrot Htr) as (sym' & Hs & _ & H2).
    rewrite Hsym in Hs. injection Hs as <-. apply H2.
  - by rewrite spglib_steps_short by lia.
Qed.

(** X10. What makes [GetSymmetriesFromSPGLIB] fail: a dictionary without
    the key of the translations, reported first; one without the key of
    the rotations; and fewer rotations than translations, which ends in an
    [IndexError]. *)
Theorem GetSymmetriesFromSPGLIB_errors (regolarize : bool) :
  (spglib_sym !! "translations" = None ->
   GetSymmetriesFromSPGLIB spglib_sym regolarize = Raise (ValueError msg_no_translations))
  /\ (is_Some (spglib_sym !! "translations") -> spglib_sym !! "rotations" = None ->
      GetSymmetriesFromSPGLIB spglib_sym regolarize = Raise (ValueError msg_no_rotations))
  /\ (spglib_sym !! "translations" = Some (FloatArray2 translations) ->
      spglib_sym !! "rotations" = Some (IntArray3 rotations) ->
      (length rotations < length translations)%nat ->
      GetSymmetriesFromSPGLIB spglib_sym regolarize = Raise (IndexError msg_index_range)).
Proof.
  unfold GetSymmetriesFromSPGLIB. split_and!.
  - by intros ->.
  - by intros [v ->] ->.
  - intros -> -> Hlen. cbn [spglib_shape0]. by apply spglib_steps_short.
Qed.

End SpglibProofs.

(** The two operations of the screw axis are converted. *)
Lemma GetSymmetriesFromSPGLIB_operations_witness :
  exists syms, GetSymmetriesFromSPGLIB toy_spglib true = Ok syms /\ length syms = 2%nat.
Proof.
  destruct (GetSymmetriesFromSPGLIB_operations toy_spglib toy_rotations toy_translations true
              eq_refl eq_refl ltac:(simpl; lia)) as (syms & Hrun & Hlen & _).
  by exists syms.
Defined.

(** The translation 0.49999 along z is no multiple of 1/2, and what is
    returned for it differs from it. *)
Lemma GetSymmetriesFromSPGLIB_half_integers_witness :
  exists syms sym,
    GetSymmetriesFromSPGLIB toy_spglib true = Ok syms
    /\ syms !! 1%nat = Some sym
    /\ ((sym 2%nat 3%nat == (49999 # 100000) - inject_Z (Qfloor (49999 # 100000)))%Q
        <-> exists k : Z, ((49999 # 100000) == inject_Z k * (1 # 2))%Q).
Proof.
  destruct (GetSymmetriesFromSPGLIB toy_spglib true) as [syms|e] eqn:E; [|by vm_compute in E].
  destruct (syms !! 1%nat) as [sym|] eqn:E1.
  - exists syms, sym. split_and!; [done|done|].
    exact (GetSymmetriesFromSPGLIB_half_integers toy_spglib toy_rotations toy_translations syms
             eq_refl eq_refl E 1%nat (fun i => if (i =? 2)%nat then (49999 # 100000)%Q else 0%Q)
             sym 2%nat eq_refl E1).
  - exfalso. vm_compute in E. injection E as <-. done.
Defined.

(** ** The table: construction *)

Lemma range_split (n m : nat) :
  (n < m)%nat -> range m = range n ++ n :: seq (S n) (m - S n).
Proof.
  intros H. unfold range. transitivity (seq 0 (n + S (m - S n))).
  - f_equal. lia.
  - by rewrite seq_app.
Qed.

Section InitProofs.
Variable get_reciprocal_vectors : Structure -> nat -> nat -> Q.
Variable st : Structure.

Local Abbreviation n_at := (N_atoms st).

(** The ranking loop after [k] atoms: every symbol met has a number, equal
    symbols and only they share a number, and the numbers are handed out
    from 1 upwards in the order in which the symbols first appear. *)
Lemma rank_atoms (k : nat) :
  (k <= n_at)%nat -> (k <= length (atoms st))%nat ->
  exists (symbs : gmap string Z) (counter : Z) (ityp : list Z),
    for_each (range k) (rank_atom st) (∅, 1%Z, replicate n_at 0%Z) = Ok (symbs, counter, ityp)
    /\ length ityp = n_at
    /\ (1 <= counter)%Z
    /\ (forall a t, symbs !! a = Some t -> (1 <= t < counter)%Z)
    /\ (forall a b t, symbs !! a = Some t -> symbs !! b = Some t -> a = b)
    /\ (forall j a, (j < k)%nat -> atoms st !! j = Some a ->
          exists t, symbs !! a = Some t /\ ityp !! j = Some t)
    /\ (forall t, (1 <= t < counter)%Z -> exists j, (j < k)%nat /\ ityp !! j = Some t)
    /\ (forall j tj, (j < k)%nat -> ityp !! j = Some tj ->
          forall t, (1 <= t < tj)%Z -> exists j', (j' < j)%nat /\ ityp !! j' = Some t).
Proof.
  intros Hk Hat. induction k as [|k IH].
  { exists ∅, 1%Z, (replicate n_at 0%Z).
    split_and!; [done|by rewrite length_replicate|lia| | |intros; lia|intros; lia|intros; lia].
    - intros a t H. by rewrite lookup_empty in H.
    - intros a b t H. by rewrite lookup_empty in H. }
  destruct IH as (symbs & counter & ityp & Hrun & Hlen & Hc & Hrange & Hinj & Hseen & Hall & Hgap);
    [lia|lia|].
  destruct (lookup_lt_is_Some_2 (atoms st) k) as [a Ha]; [lia|].
  rewrite range_S, for_each_app, Hrun. cbn [mbind res_bind for_each].
  unfold rank_atom, getitem. rewrite Ha. cbn [mbind res_bind].
  destruct (symbs !! a) as [t0|] eqn:Ea.
  - rewrite Ea. cbn [default]. unfold setitem. rewrite decide_True by lia. cbn [mbind res_bind].
    exists symbs, counter, (<[ k := t0 ]> ityp).
    split_and!; [done|by rewrite length_insert|done|done|done| | |].
    + intros j b Hj Hb. destruct (decide (j = k)) as [->|Hne].
      * rewrite Ha in Hb. injection Hb as <-. exists t0. split; [done|].
        apply list_lookup_insert_eq. lia.
      * destruct (Hseen j b ltac:(lia) Hb) as (t & Ht & Hi). exists t. split; [done|].
        by rewrite list_lookup_insert_ne.
    + intros t Ht. destruct (Hall t Ht) as (j & Hj & Hi). exists j. split; [lia|].
      rewrite list_lookup_insert_ne by lia. done.
    + intros j tj Hj Hi t Ht. destruct (decide (j = k)) as [->|Hne].
      * rewrite list_lookup_insert_eq in Hi by lia. injection Hi as <-.
        pose proof (Hrange a t0 Ea) as Hr.
        destruct (Hall t ltac:(lia)) as (j' & Hj' & Hi'). exists j'. split; [done|].
        rewrite list_lookup_insert_ne by lia. done.
      * rewrite list_lookup_insert_ne in Hi by done.
        destruct (Hgap j tj ltac:(lia) Hi t Ht) as (j' & Hj' & Hi'). exists j'. split; [done|].
        rewrite list_lookup_insert_ne by lia. done.
  - rewrite lookup_insert_eq. cbn [default]. unfold setitem. rewrite decide_True by lia.
    cbn [mbind res_bind].
    exists (<[ a := counter ]> symbs), (counter + 1)%Z, (<[ k := counter ]> ityp).
    split_and!; [done|by rewrite length_insert|lia| | | | |].
    + intros b t Hb. destruct (decide (a = b)) as [<-|Hne].
      * rewrite lookup_insert_eq in Hb. injection Hb as <-. lia.
      * rewrite lookup_insert_ne in Hb by done. pose proof (Hrange b t Hb). lia.
    + intros b c t Hb Hc'.
      destruct (decide (a = b)) as [<-|Hnb]; destruct (decide (a = c)) as [<-|Hnc]; [done| | |].
      * rewrite lookup_insert_eq in Hb. injection Hb as <-.
        rewrite lookup_insert_ne in Hc' by done. pose proof (Hrange c _ Hc'). lia.
      * rewrite lookup_insert_eq in Hc'. injection Hc' as <-.
        rewrite lookup_insert_ne in Hb by done. pose proof (Hrange b _ Hb). lia.
      * rewrite lookup_insert_ne in Hb, Hc' by done. by eapply Hinj.
    + intros j b Hj Hb. destruct (decide (j = k)) as [->|Hne].
      * rewrite Ha in Hb. injection Hb as <-. exists counter.
        split; [apply lookup_insert_eq|]. apply list_lookup_insert_eq. lia.
      * destruct (Hseen j b ltac:(lia) Hb) as (t & Ht & Hi). exists t.
        split; [|by rewrite list_lookup_insert_ne].
        rewrite lookup_insert_ne; [done|]. intros <-. by rewrite Ea in Ht.
    + intros t Ht. destruct (decide (t = counter)) as [->|Hne].
      * exists k. split; [lia|]. apply list_lookup_insert_eq. lia.
      * destruct (Hall t ltac:(lia)) as (j & Hj & Hi). exists j. split; [lia|].
        rewrite list_lookup_insert_ne by lia. done.
    + intros j tj Hj Hi t Ht. destruct (decide (j = k)) as [->|Hne].
      * rewrite list_lookup_insert_eq in Hi by lia. injection Hi as <-.
        destruct (Hall t Ht) as (j' & Hj' & Hi'). exists j'. split; [done|].
        rewrite list_lookup_insert_ne by lia. done.
      * rewrite list_lookup_insert_ne in Hi by done.
        destruct (Hgap j tj ltac:(lia) Hi t Ht) as (j' & Hj' & Hi'). exists j'. split; [done|].
        rewrite list_lookup_insert_ne by lia. done.
Qed.

(** X11. The constructor needs a unit cell and a symbol for each of the
    [N_atoms] atoms: without the first it raises a [ValueError], without
    the second an [IndexError].  Otherwise it returns a table whose
    [QE_ityp] gives every atom a species number such that two atoms have the
    same number exactly when they have the same symbol, the numbers start
    at 1, and a number is used only after all the smaller ones. *)
Theorem QE_Symmetry_init_species (thr : Q) :
  (has_unit_cell st = false ->
   QE_Symmetry__init__ get_reciprocal_vectors st thr = Raise (ValueError msg_no_unit_cell))
  /\ (has_unit_cell st = true -> (length (atoms st) < n_at)%nat ->
      QE_Symmetry__init__ get_reciprocal_vectors st thr = Raise (IndexError msg_index_range))
  /\ (has_unit_cell st = true -> (n_at <= length (atoms st))%nat ->
      exists self,
        QE_Symmetry__init__ get_reciprocal_vectors st thr = Ok self
        /\ length (QE_ityp self) = n_at
        /\ (forall i j ai aj ti tj,
              atoms st !! i = Some ai -> atoms st !! j = Some aj ->
              QE_ityp self !! i = Some ti -> QE_ityp self !! j = Some tj ->
              (ti = tj <-> ai = aj))
        /\ (forall i ti, QE_ityp self !! i = Some ti ->
              (1 <= ti)%Z
              /\ forall t, (1 <= t < ti)%Z ->
                   exists j, (j < i)%nat /\ QE_ityp self !! j = Some t)).
Proof.
  unfold QE_Symmetry__init__. split_and!.
  - by intros ->.
  - intros -> Hshort. cbn [negb].
    rewrite (range_split (length (atoms st)) n_at) by done. rewrite for_each_app.
    destruct (rank_atoms (length (atoms st)) ltac:(lia) ltac:(lia))
      as (symbs & counter & ityp & -> & _).
    cbn [mbind res_bind for_each]. unfold rank_atom, getitem.
    by rewrite lookup_ge_None_2.
  - intros -> Hlong. cbn [negb].
    destruct (rank_atoms n_at ltac:(lia) Hlong)
      as (symbs & counter & ityp & -> & Hlen & _ & Hrange & Hinj & Hseen & _ & Hgap).
    cbn [mbind res_bind]. eexists. split; [reflexivity|]. cbn [QE_ityp].
    split_and!; [done| |].
    + intros i j ai aj ti tj Hai Haj Hti Htj.
      pose proof (lookup_lt_Some _ _ _ Hti) as Hi. pose proof (lookup_lt_Some _ _ _ Htj) as Hj.
      destruct (Hseen i ai ltac:(lia) Hai) as (t & Ht & Hit).
      destruct (Hseen j aj ltac:(lia) Haj) as (t' & Ht' & Hjt).
      rewrite Hti in Hit. rewrite Htj in Hjt. injection Hit as <-. injection Hjt as <-.
      split.
      * intros <-. by eapply Hinj.
      * intros <-. rewrite Ht in Ht'. by injection Ht'.
    + intros i ti Hti. pose proof (lookup_lt_Some _ _ _ Hti) as Hi.
      split; [|by apply (Hgap i ti ltac:(lia) Hti)].
      destruct (lookup_lt_is_Some_2 (atoms st) i) as [a Ha]; [lia|].
      destruct (Hseen i a ltac:(lia) Ha) as (t & Ht & Hit).
      rewrite Hti in Hit. injection Hit as <-. by apply (Hrange a ti).
Qed.

End InitProofs.

(** Hydrogen, oxygen, hydrogen: species 1, 2, 1. *)
Lemma QE_Symmetry_init_species_witness :
  exists self,
    QE_Symmetry__init__ toy_reciprocal toy_water __EPSILON__ = Ok self
    /\ length (QE_ityp self) = 3%nat.
Proof.
  destruct (QE_Symmetry_init_species toy_reciprocal toy_water __EPSILON__) as (_ & _ & H).
  destruct (H eq_refl ltac:(simpl; lia)) as (self & Hrun & Hlen & _).
  by exists self.
Defined.

(** ** The table: discovery *)

Lemma find_irotmq_spec (aq : nat -> Q) (syms : list (nat -> nat -> Q)) (k0 : nat) :
  match find_irotmq aq syms k0 with
  | Some z =>
      exists k sym,
        z = (Z.of_nat (k0 + k) + 1)%Z /\ syms !! k = Some sym
        /\ sends_to_itself aq sym = true
        /\ forall k' sym', (k' < k)%nat -> syms !! k' = Some sym' ->
             sends_to_itself aq sym' = false
  | None => forall sym, sym ∈ syms -> sends_to_itself aq sym = false
  end.
Proof.
  revert k0. induction syms as [|s syms IH]; intros k0; cbn [find_irotmq].
  { intros sym H. by apply elem_of_nil in H. }
  fold (sends_to_itself aq s). destruct (sends_to_itself aq s) eqn:E.
  - exists 0%nat, s. split_and!; [f_equal; lia|done|done|intros; lia].
  - specialize (IH (S k0)). destruct (find_irotmq aq syms (S k0)) as [z|].
    + destruct IH as (k & sym & -> & Hk & Hs & Hfirst).
      exists (S k), sym. split_and!; [f_equal; lia|done|done|].
      intros [|k'] sym' Hlt Hk'; simpl in Hk'.
      * by injection Hk' as <-.
      * apply (Hfirst k'); [lia|done].
    + intros sym [->|H]%elem_of_cons; [done|by apply IH].
Qed.

Section DiscoveryProofs.
Variable covariant_coordinates : (nat -> nat -> Q) -> qvec -> qvec.
Variable symm_base_run :
  Q -> (nat -> nat -> Q) -> (nat -> nat -> Q) -> (nat -> nat -> Q) -> list Z -> nat -> qvec -> symm_base.
Variable sgam_ph_new :
  (nat -> nat -> Q) -> (nat -> nat -> Q) -> Z -> (nat -> nat -> nat -> Z) ->
  (nat -> nat -> Z) -> (nat -> nat -> Q) -> nat -> nat -> nat -> nat -> Q.

Local Abbreviation discover := (SetupQPoint covariant_coordinates symm_base_run sgam_ph_new).


(** X13. What [SetupQPoint] leaves in [QE_irotmq].  When the small group
    has no operation that sends q to -q, the field keeps the value it had.
    When it has one, the field becomes the position, counted from 1, of the
    first operation returned by [GetSymmetries] that sends the q-point,
    taken in crystal coordinates and folded into the first cell, to itself,
    and it keeps its old value when no operation does so. *)
Theorem SetupQPoint_irotmq (self self' : QE_Symmetry) (q_point : qvec) :
  discover self q_point = Ok self' ->
  let aq := fun i =>
    fix_in_BZ (vget (covariant_coordinates (transpose (QE_bg self)) q_point) i) in
  if QE_minus_q self'
  then (exists k sym,
          QE_irotmq self' = (Z.of_nat k + 1)%Z
          /\ GetSymmetries self' !! k = Some sym
          /\ sends_to_itself aq sym = true
          /\ forall k' sym', (k' < k)%nat -> GetSymmetries self' !! k' = Some sym' ->
               sends_to_itself aq sym' = false)
       \/ (QE_irotmq self' = QE_irotmq self
           /\ forall sym, sym ∈ GetSymmetries self' -> sends_to_itself aq sym = false)
  else QE_irotmq self' = QE_irotmq self.
Proof.
  unfold SetupQPoint. destruct (length q_point =? 3)%nat; cbn [negb]; [|done].
  cbv zeta. cbn [QE_minus_q].
  set (sb := symm_base_run (threshold self) (QE_at self) (QE_bg self) (QE_tau self)
               (QE_ityp self) (QE_nat self)
               (covariant_coordinates (transpose (QE_bg self)) q_point)).
  destruct (sb_minus_q sb) eqn:Em.
  - match goal with |- context [find_irotmq ?a ?s 0] =>
      pose proof (find_irotmq_spec a s 0) as Hspec; destruct (find_irotmq a s 0) end.
    + intros [= <-]. cbn [QE_minus_q QE_irotmq]. left.
      destruct Hspec as (k & sym & -> & Hk & Hs & Hfirst).
      exists k, sym. split_and!; [done|exact Hk|exact Hs|exact Hfirst].
    + intros [= <-]. cbn [QE_minus_q QE_irotmq]. right. split; [done|exact Hspec].
  - intros [= <-]. by cbn [QE_minus_q QE_irotmq].
Qed.

End DiscoveryProofs.


(** At the zero q-point of the one-atom crystal the operation recorded is
    the first one, the identity. *)
Lemma SetupQPoint_irotmq_witness :
  QE_minus_q toy_discovered = true
  /\ ((exists k sym,
         QE_irotmq toy_discovered = (Z.of_nat k + 1)%Z
         /\ GetSymmetries toy_discovered !! k = Some sym
         /\ sends_to_itself (fun i => fix_in_BZ (vget (toy_covariant (transpose (QE_bg toy_table))
                                                         zeros3) i)) sym = true
         /\ forall k' sym', (k' < k)%nat -> GetSymmetries toy_discovered !! k' = Some sym' ->
              sends_to_itself (fun i => fix_in_BZ (vget (toy_covariant
                                                           (transpose (QE_bg toy_table))
                                                           zeros3) i)) sym' = false)
      \/ (QE_irotmq toy_discovered = QE_irotmq toy_table
          /\ forall sym, sym ∈ GetSymmetries toy_discovered ->
               sends_to_itself (fun i => fix_in_BZ (vget (toy_covariant
                                                            (transpose (QE_bg toy_table))
                                                            zeros3) i)) sym = false)).
Proof.
  split; [reflexivity|].
  exact (SetupQPoint_irotmq toy_covariant toy_symm_base toy_sgam toy_table toy_discovered
           zeros3 toy_discovery_eq).
Defined.

(** ** The table: explicit operations *)

Lemma find_minus_q_range (self : QE_Symmetry) (q target : nat -> Q) (ks : list nat) (z : Z) :
  find_minus_q self q target ks = Some z -> exists k, k ∈ ks /\ z = (Z.of_nat k + 1)%Z.
Proof.
  induction ks as [|k ks IH]; cbn [find_minus_q]; [done|].
  match goal with |- context [if ?b then _ else _] => destruct b end.
  - intros [= <-]. exists k. split; [apply list_elem_of_here|done].
  - intros H. destruct (IH H) as (k' & Hk' & ->). exists k'.
    split; [by apply list_elem_of_further|done].
Qed.

Section InitFromSymmetriesProofs.
Variable get_reciprocal_vectors : Structure -> nat -> nat -> Q.
Variable covariant_coordinates : (nat -> nat -> Q) -> qvec -> qvec.
Variable put_into_cell : (nat -> nat -> Q) -> qvec -> qvec.
Variable apply_symmetry : Structure -> symmetry -> Structure.
Variable get_equivalent_atoms : Structure -> Structure -> list nat.

Local Abbreviation operation := (init_operation apply_symmetry get_equivalent_atoms).
Local Abbreviation init :=
  (InitFromSymmetries get_reciprocal_vectors covariant_coordinates put_into_cell apply_symmetry
     get_equivalent_atoms).

(** What one turn of the loop over the operations keeps and what it
    writes. *)
Lemma init_operation_Ok (symmetries : list symmetry) (i : nat) (sym : symmetry)
    (self self' : QE_Symmetry) :
  operation symmetries (i, sym) self = Ok self' ->
  (i < 48)%nat
  /\ QE_ft self' = QE_ft self /\ QE_minus_q self' = QE_minus_q self
  /\ QE_irotmq self' = QE_irotmq self /\ QE_nsymq self' = QE_nsymq self
  /\ structure self' = structure self
  /\ (forall a b k, QE_s self' a b k
                    = if (k =? i)%nat then int_of_float (sym b a) else QE_s self a b k).
Proof.
  unfold init_operation.
  destruct (Nat.ltb_spec i 48); cbn [negb]; [|done].
  match goal with |- context [if negb ?b then _ else _] => destruct b end; cbn [negb]; [|done].
  destruct (inverse_index symmetries sym) as [inv|e]; cbn [mbind res_bind]; [|done].
  intros [= <-]. by cbn.
Qed.

(** The loop over the operations: the rotations are stored, transposed and
    truncated to integers, at the positions of the operations. *)
Lemma init_operations (symmetries l : list symmetry) (self self' : QE_Symmetry) :
  for_each (imap pair l) (operation symmetries) self = Ok self' ->
  (length l <= 48)%nat
  /\ QE_ft self' = QE_ft self /\ QE_minus_q self' = QE_minus_q self
  /\ QE_irotmq self' = QE_irotmq self /\ QE_nsymq self' = QE_nsymq self
  /\ structure self' = structure self
  /\ (forall i sym, l !! i = Some sym ->
        forall a b, QE_s self' a b i = int_of_float (sym b a)).
Proof.
  revert self'. induction l as [|sym l IH] using rev_ind; intros self'.
  { simpl. intros [= <-]. split_and!; try done. lia. }
  rewrite imap_app, for_each_app. cbn [imap for_each].
  destruct (for_each (imap pair l) (operation symmetries) self) as [mid|e];
    cbn [mbind res_bind]; [|done].
  destruct (IH mid eq_refl) as (Hlen & Hft & Hmq & Hirot & Hnsym & Hst & Hs).
  destruct (operation symmetries (length l + 0, sym)%nat mid) as [self''|e] eqn:E;
    cbn [mbind res_bind]; [|done].
  intros [= <-].
  apply init_operation_Ok in E as (Hi & Hft' & Hmq' & Hirot' & Hnsym' & Hst' & Hs').
  rewrite length_app. cbn [length].
  split_and!; [lia|congruence|congruence|congruence|congruence|congruence|].
  intros i sym' Hi' a b. rewrite Hs'.
  destruct (Nat.eqb_spec i (length l + 0)) as [->|Hne].
  - rewrite Nat.add_0_r in Hi'. rewrite list_lookup_middle in Hi' by done.
    by injection Hi' as <-.
  - apply Hs. rewrite lookup_app_l in Hi'; [done|].
    apply lookup_lt_Some in Hi'. rewrite length_app in Hi'. cbn [length] in Hi'.
    unfold symmetry in *. lia.
Qed.


(** X15. [InitFromSymmetries] and the operation that sends q to -q.  The
    call never clears the flag [QE_minus_q]; it looks for the operation
    among the first three positions of the table only, so that
    [QE_irotmq] is 1, 2 or 3 when the call sets the flag, and flag and
    position are left as they were when it does not. *)
Theorem InitFromSymmetries_minus_q (self self' : QE_Symmetry) (symmetries : list symmetry)
    (q_point : qvec) :
  init self symmetries q_point = Ok self' ->
  (QE_minus_q self = true -> QE_minus_q self' = true)
  /\ ((QE_minus_q self' = true /\ (1 <= QE_irotmq self' <= 3)%Z)
      \/ (QE_minus_q self' = QE_minus_q self /\ QE_irotmq self' = QE_irotmq self)).
Proof.
  unfold InitFromSymmetries. cbv zeta.
  match goal with |- context [for_each ?xs ?f ?s0] =>
    destruct (for_each xs f s0) as [self1|e] eqn:Eloop end; cbn [mbind res_bind]; [|done].
  apply init_operations in Eloop as (_ & _ & Hmq & Hirot & _).
  cbn [QE_minus_q QE_irotmq] in Hmq, Hirot.
  match goal with |- context [find_minus_q ?s ?q ?t ?ks] =>
    destruct (find_minus_q s q t ks) as [z|] eqn:Ef end; intros [= <-];
    cbn [QE_minus_q QE_irotmq].
  - split; [done|]. left. split; [done|].
    apply find_minus_q_range in Ef as (k & Hk & ->).
    unfold range in Hk. apply elem_of_seq in Hk. lia.
  - split; [by rewrite Hmq|]. right. by split.
Qed.

End InitFromSymmetriesProofs.


Lemma InitFromSymmetries_minus_q_witness :
  exists self',
    InitFromSymmetries toy_reciprocal toy_covariant toy_put_into_cell toy_apply_symmetry
      toy_equivalent_atoms toy_discovered [sym_identity; sym_c4z] zeros3 = Ok self'
    /\ QE_minus_q self' = true.
Proof.
  destruct (InitFromSymmetries toy_reciprocal toy_covariant toy_put_into_cell toy_apply_symmetry
              toy_equivalent_atoms toy_discovered [sym_identity; sym_c4z] zeros3)
    as [self'|e] eqn:E; [|by vm_compute in E].
  exists self'. split; [done|].
  exact (proj1 (InitFromSymmetries_minus_q toy_reciprocal toy_covariant toy_put_into_cell
                  toy_apply_symmetry toy_equivalent_atoms toy_discovered self'
                  [sym_identity; sym_c4z] zeros3 E) eq_refl).
Defined.

(** ** Forcing the symmetry on a structure *)

Lemma py_index_Ok (n : nat) (z : Z) :
  (- Z.of_nat n <= z < Z.of_nat n)%Z -> exists c, py_index n z = Ok c.
Proof.
  intros H. unfold py_index.
  destruct (Z.leb_spec 0 z); destruct (Z.ltb_spec z (Z.of_nat n)); cbn [andb];
    try (by eexists); try lia.
  destruct (Z.ltb_spec z 0); destruct (Z.leb_spec (- Z.of_nat n) z); cbn [andb];
    try (by eexists); lia.
Qed.

Lemma py_index_Raise (n : nat) (z : Z) :
  ~ (- Z.of_nat n <= z < Z.of_nat n)%Z -> py_index n z = Raise (IndexError msg_index_range).
Proof.
  intros H. unfold py_index.
  destruct (Z.leb_spec 0 z); destruct (Z.ltb_spec z (Z.of_nat n)); cbn [andb]; try lia;
    destruct (Z.ltb_spec z 0); destruct (Z.leb_spec (- Z.of_nat n) z); cbn [andb];
    try done; lia.
Qed.

Lemma force_pairs_elem (a b s_i i : nat) :
  (s_i, i) ∈ (x ← range a; y ← range b; [(x, y)]) <-> (s_i < a)%nat /\ (i < b)%nat.
Proof.
  rewrite list_elem_of_bind. split.
  - intros (x & Hin & Hx). apply list_elem_of_bind in Hin as (y & Hin & Hy).
    apply list_elem_of_singleton in Hin. injection Hin as -> ->.
    unfold range in *. apply elem_of_seq in Hx, Hy. lia.
  - intros [Hs Hi]. exists s_i. split; [|unfold range; apply elem_of_seq; lia].
    apply list_elem_of_bind. exists i. split; [apply list_elem_of_here|].
    unfold range. apply elem_of_seq. lia.
Qed.

Section ForceProofs.
Variable cryst_to_cart : (nat -> nat -> Q) -> (nat -> nat -> Q) -> Z -> nat -> nat -> Q.
Variable self : QE_Symmetry.

Lemma force_step (n : nat) (cr : nat -> nat -> Q) (s_i i : nat) (new_coords : nat -> nat -> Q) :
  (column_ok self n s_i i ->
   exists new', force_accumulate self n cr (s_i, i) new_coords = Ok new')
  /\ (~ column_ok self n s_i i ->
      force_accumulate self n cr (s_i, i) new_coords = Raise (IndexError msg_index_range)).
Proof.
  unfold force_accumulate, column_ok. split.
  - intros Hok. destruct (py_index_Ok n _ Hok) as [c ->]. by eexists.
  - intros Hbad. by rewrite (py_index_Raise n _ Hbad).
Qed.

Lemma force_loop (n : nat) (cr : nat -> nat -> Q) (ps : list (nat * nat))
    (new_coords : nat -> nat -> Q) :
  ((forall p, p ∈ ps -> column_ok self n p.1 p.2) ->
   exists new', for_each ps (force_accumulate self n cr) new_coords = Ok new')
  /\ ((exists p, p ∈ ps /\ ~ column_ok self n p.1 p.2) ->
      for_each ps (force_accumulate self n cr) new_coords = Raise (IndexError msg_index_range)).
Proof.
  revert new_coords. induction ps as [|[s_i i] ps IH]; intros new_coords.
  { split; [by eexists|]. intros (p & Hp & _). by apply elem_of_nil in Hp. }
  cbn [for_each]. destruct (force_step n cr s_i i new_coords) as [Hstep Hstep'].
  unfold column_ok in *.
  destruct (decide (- Z.of_nat n <= QE_irt self s_i i - 1 < Z.of_nat n)%Z) as [Hok|Hbad].
  - destruct (Hstep Hok) as [c ->]. cbn [mbind res_bind]. split.
    + intros Hall. apply IH. intros p Hp. apply Hall. by apply list_elem_of_further.
    + intros (p & Hp & Hnot). apply IH. exists p. split; [|done].
      apply elem_of_cons in Hp as [->|Hp]; [done|done].
  - rewrite (Hstep' Hbad). cbn [mbind res_bind]. split; [|done].
    intros Hall. exfalso. apply Hbad. apply (Hall (s_i, i)). apply list_elem_of_here.
Qed.


End ForceProofs.


(** ** The partition into stars: termination *)

Section QStarTermination.
Variable star_q : qvec -> star_out.
Variable get_min_dist_into_cell : qvec -> qvec -> Q.
Variable q_tot : list qvec.

Local Abbreviation member := (pop_star_member get_min_dist_into_cell q_tot).
Local Abbreviation step := (star_step star_q get_min_dist_into_cell q_tot).
Local Abbreviation loop := (SetupQStar_loop star_q get_min_dist_into_cell).

Lemma loop_terminates (fuel : nat) (st : qstar_state) :
  (forall q, (1 <= nq_new (star_q q))%nat) ->
  run_inv q_tot st -> (length (q_list st) <= fuel)%nat ->
  exists r, loop fuel q_tot st = Some r.
Proof.
  intros Hstar. revert st. induction fuel as [|fuel IH]; intros st Hinv Hlen.
  - destruct (q_list st) eqn:E; simpl in Hlen; [|lia]. simpl. rewrite E. by eexists.
  - simpl. destruct (q_list st) as [|q ql] eqn:E; [by eexists|].
    pose proof (step_run star_q get_min_dist_into_cell q_tot q st Hinv) as Hs.
    destruct (step q st) as [st'|e]; [|by eexists].
    destruct Hs as (Hinv' & _ & Hdec). apply IH; [done|].
    rewrite E in Hdec. simpl in Hdec, Hlen. pose proof (Hstar q). unfold qvec in *. lia.
Qed.

Lemma loop_empty_star (fuel : nat) (q : qvec) (rest : list qvec) (st : qstar_state) :
  nq_new (star_q q) = 0%nat -> q_list st = q :: rest -> loop fuel q_tot st = None.
Proof.
  intros Hz. revert st. induction fuel as [|fuel IH]; intros st E; simpl; rewrite E; [done|].
  unfold star_step. rewrite Hz. cbn [range seq for_each]. by apply IH.
Qed.

(** More members than points left: the pops run out. *)
Lemma members_overrun (s : star_out) (ks : list nat) (st : qstar_state) :
  run_inv q_tot st -> (length (q_list st) < length ks)%nat ->
  for_each ks (member s) st = Raise (ValueError msg_argmin_empty).
Proof.
  revert st. induction ks as [|k ks IH]; intros st Hinv Hlen; simpl in *; [lia|].
  pose proof (member_run get_min_dist_into_cell q_tot s k st Hinv) as Hm.
  destruct (member s k st) as [st'|e]; simpl.
  - destruct Hm as (Hinv' & Hdec & _). apply IH; [done|lia].
  - by destruct Hm as [-> _].
Qed.

End QStarTermination.

Section QStarMethodTermination.
Variable covariant_coordinates : (nat -> nat -> Q) -> qvec -> qvec.
Variable symm_base_run :
  Q -> (nat -> nat -> Q) -> (nat -> nat -> Q) -> (nat -> nat -> Q) -> list Z -> nat -> qvec -> symm_base.
Variable sgam_ph_new :
  (nat -> nat -> Q) -> (nat -> nat -> Q) -> Z -> (nat -> nat -> nat -> Z) ->
  (nat -> nat -> Z) -> (nat -> nat -> Q) -> nat -> nat -> nat -> nat -> Q.
Variable star_q :
  qvec -> (nat -> nat -> Q) -> (nat -> nat -> Q) -> Z -> (nat -> nat -> nat -> Z) -> (nat -> Z) ->
  star_out.
Variable get_min_dist_into_cell : (nat -> nat -> Q) -> qvec -> qvec -> Q.

Local Abbreviation discover := (SetupQPoint covariant_coordinates symm_base_run sgam_ph_new).
Local Abbreviation partition :=
  (SetupQStar covariant_coordinates symm_base_run sgam_ph_new star_q get_min_dist_into_cell).

(** X17. The loop of [SetupQStar] ends.  When the star computed for every
    q-point has at least one member, the call on N q-points is over after
    at most N turns of the [while] loop, with a result or an exception.
    When the star computed for the first q-point has no member, no number
    of turns ends it. *)
Theorem SetupQStar_terminates (self self' : QE_Symmetry) (q_tot : list qvec) :
  discover self zeros3 = Ok self' ->
  let sq := fun q => star_q q (QE_at self') (QE_bg self') (QE_nsymq self') (QE_s self')
                       (QE_invs self') in
  ((forall q, (1 <= nq_new (sq q))%nat) ->
   forall fuel, (length q_tot <= fuel)%nat -> exists r, partition fuel self q_tot = Some r)
  /\ (forall q rest, q_tot = q :: rest -> nq_new (sq q) = 0%nat ->
        forall fuel, partition fuel self q_tot = None).
Proof.
  intros Hd sq. unfold SetupQStar. rewrite Hd. fold sq. unfold SetupQStar_fuel. split.
  - intros Hstar fuel Hfuel.
    destruct (loop_terminates sq (get_min_dist_into_cell (transpose (QE_bg self'))) q_tot fuel
                (SetupQStar_init q_tot) Hstar (init_run q_tot) Hfuel) as [r ->].
    destruct r as [r|e]; by eexists.
  - intros q rest -> Hz fuel.
    by rewrite (loop_empty_star sq _ _ fuel q rest (SetupQStar_init (q :: rest)) Hz eq_refl).
Qed.

(** X18. A list that lacks members of a star is refused by way of numpy:
    when the star computed for the first q-point has more members than the
    list has q-points, [SetupQStar] raises the [ValueError] of [np.argmin]
    on an empty sequence. *)
Theorem SetupQStar_oversize_star (self self' : QE_Symmetry) (q : qvec) (rest : list qvec)
    (fuel : nat) :
  discover self zeros3 = Ok self' ->
  (length (q :: rest)
   < nq_new (star_q q (QE_at self') (QE_bg self') (QE_nsymq self') (QE_s self')
               (QE_invs self')))%nat ->
  (1 <= fuel)%nat ->
  partition fuel self (q :: rest) = Some (Raise (ValueError msg_argmin_empty)).
Proof.
  intros Hd Hbig Hfuel. unfold SetupQStar. rewrite Hd. unfold SetupQStar_fuel.
  destruct fuel as [|fuel]; [lia|]. cbn [SetupQStar_loop SetupQStar_init q_list].
  unfold star_step. rewrite members_overrun; [done| |].
  - unfold run_inv. simpl. by rewrite length_replicate.
  - cbn [q_list]. unfold range. by rewrite length_seq.
Qed.

End QStarMethodTermination.

(** The complete list of three points is partitioned within three turns. *)
Lemma SetupQStar_terminates_witness :
  exists r,
    SetupQStar toy_covariant toy_symm_base toy_sgam toy_star_q toy_dist 3 toy_table
      toy_q_complete = Some r.
Proof.
  destruct (SetupQStar_terminates toy_covariant toy_symm_base toy_sgam toy_star_q toy_dist
              toy_table toy_discovered toy_q_complete toy_discovery_eq) as [Hend _].
  apply Hend; [|simpl; lia].
  intros q. unfold toy_star_q, axis_star. destruct (Qltb _ _); simpl; lia.
Defined.

(** The point 9/20 alone: its star has two members. *)
Lemma SetupQStar_oversize_star_witness :
  SetupQStar toy_covariant toy_symm_base toy_sgam toy_star_q toy_dist 1 toy_table
    [on_axis (9 # 20)] = Some (Raise (ValueError msg_argmin_empty)).
Proof.
  apply (SetupQStar_oversize_star toy_covariant toy_symm_base toy_sgam toy_star_q toy_dist
           toy_table toy_discovered (on_axis (9 # 20)) [] 1 toy_discovery_eq).
  - vm_compute. lia.
  - lia.
Defined.

(** ** The propagated error of a tensor is bounded *)

Lemma positions3_lt (p : nat * nat) : p ∈ positions3 -> (p.1 < 3)%nat /\ (p.2 < 3)%nat.
Proof.
  unfold positions3. intros (i & Hin & Hi)%list_elem_of_bind.
  apply list_elem_of_bind in Hin as (j & Hin & Hj).
  apply list_elem_of_singleton in Hin as ->.
  unfold range in *. apply elem_of_seq in Hi, Hj. simpl. lia.
Qed.

Lemma Rsum_squares (err : nat -> nat -> R) (cs : list (nat * nat)) (M : R) :
  (forall p, p ∈ cs -> (Rabs (err p.1 p.2) <= M)%R) ->
  (0 <= Rsum ((fun p : nat * nat => (err p.1 p.2) ^ 2)%R <$> cs) <= INR (length cs) * (M * M))%R.
Proof.
  induction cs as [|p cs IH]; intros Hb.
  { simpl. lra. }
  destruct IH as [IH0 IH1].
  { intros q Hq. apply Hb. by apply list_elem_of_further. }
  pose proof (Hb p ltac:(apply list_elem_of_here)) as Hp.
  pose proof (pow2_ge_0 (err p.1 p.2)) as Hsq.
  pose proof (pow_maj_Rabs M (err p.1 p.2) 2 Hp) as Hle.
  unfold Rsum in *. cbn [fmap list_fmap fold_right length]. rewrite S_INR.
  fold (fmap (M:=list) (fun p0 : nat * nat => (err p0.1 p0.2) ^ 2)%R cs).
  split; [lra|]. simpl in Hle. lra.
Qed.

Lemma propagated_error_bound (sym : (nat -> nat -> R) -> nat -> nat -> R)
    (err : nat -> nat -> R) (M : R) (i j : nat) :
  (forall a b, (a < 3)%nat -> (b < 3)%nat -> (Rabs (err a b) <= M)%R) ->
  (0 <= propagated_error sym err i j <= M)%R.
Proof.
  intros Hb.
  assert (0 <= M)%R as HM.
  { eapply Rle_trans; [apply Rabs_pos|]. apply (Hb 0%nat 0%nat); lia. }
  unfold propagated_error.
  destruct (contributing sym i j) as [|p cs] eqn:E; [lra|].
  rewrite <- E.
  assert (forall q, q ∈ contributing sym i j -> (Rabs (err q.1 q.2) <= M)%R) as Hcs.
  { intros q Hq. unfold contributing in Hq. apply list_elem_of_filter in Hq as [_ Hq].
    apply positions3_lt in Hq as [H1 H2]. by apply Hb. }
  destruct (Rsum_squares err (contributing sym i j) M Hcs) as [H0 H1].
  set (S := Rsum _) in *. set (N := INR (length (contributing sym i j))) in *.
  assert (1 <= N)%R as HN.
  { unfold N. rewrite E. cbn [length]. rewrite S_INR. pose proof (pos_INR (length cs)). lra. }
  assert (sqrt S <= N * M)%R as Hsqrt.
  { rewrite <- (sqrt_square (N * M)) by (apply Rmult_le_pos; lra).
    apply sqrt_le_1_alt. eapply Rle_trans; [exact H1|]. nra. }
  pose proof (sqrt_pos S) as Hpos.
  split.
  - apply Rmult_le_pos; [done|]. apply Rlt_le, Rinv_0_lt_compat. lra.
  - apply (Rmult_le_reg_r N); [lra|]. unfold Rdiv. rewrite Rmult_assoc, Rinv_l by lra. lra.
Qed.

Section TensorBound.
Variable covariant_coordinates : (nat -> nat -> Q) -> qvec -> qvec.
Variable symm_base_run :
  Q -> (nat -> nat -> Q) -> (nat -> nat -> Q) -> (nat -> nat -> Q) -> list Z -> nat -> qvec -> symm_base.
Variable sgam_ph_new :
  (nat -> nat -> Q) -> (nat -> nat -> Q) -> Z -> (nat -> nat -> nat -> Z) ->
  (nat -> nat -> Z) -> (nat -> nat -> Q) -> nat -> nat -> nat -> nat -> Q.
Variable symmatrix :
  (nat -> nat -> R) -> (nat -> nat -> nat -> Z) -> Z -> (nat -> nat -> Q) -> (nat -> nat -> Q) ->
  nat -> nat -> R.

Local Abbreviation discover := (SetupQPoint covariant_coordinates symm_base_run sgam_ph_new).
Local Abbreviation symmetrize_tensor :=
  (ApplySymmetryToMatrix covariant_coordinates symm_base_run sgam_ph_new symmatrix).

(** X19. The error tensor that [ApplySymmetryToMatrix] writes is not
    negative and never exceeds the largest input error: when no entry of
    the error tensor supplied is larger than M in magnitude, every entry of
    the one returned lies between 0 and M. *)
Theorem ApplySymmetryToMatrix_error_bound (self self' : QE_Symmetry)
    (matrix err : nat -> nat -> R) (M : R) :
  discover self zeros3 = Ok self' ->
  (forall a b, (a < 3)%nat -> (b < 3)%nat -> (Rabs (err a b) <= M)%R) ->
  exists new err',
    symmetrize_tensor self matrix (Some err) = Ok (self', new, Some err')
    /\ forall i j, (i < 3)%nat -> (j < 3)%nat -> (0 <= err' i j <= M)%R.
Proof.
  intros Hd Hb. unfold ApplySymmetryToMatrix. rewrite Hd. cbn [mbind res_bind].
  set (sym := fun m => symmatrix m (QE_s self') (QE_nsymq self') (QE_at self') (QE_bg self')).
  do 2 eexists. split; [reflexivity|].
  intros i j Hi Hj.
  rewrite (fold_left_pointwise _ (fun m (p : nat * nat) =>
             upd2 m p.1 p.2 (propagated_error sym err p.1 p.2))).
  - rewrite fold_upd2. rewrite bool_decide_eq_true_2 by (by apply positions3_elem).
    by apply propagated_error_bound.
  - intros m [a b]. apply propagate_error_upd.
Qed.

End TensorBound.

Lemma ApplySymmetryToMatrix_error_bound_witness :
  exists new err',
    ApplySymmetryToMatrix toy_covariant toy_symm_base toy_sgam toy_symmatrix toy_table
      (fun _ _ => 1%R) (Some (fun _ _ => 2%R)) = Ok (toy_discovered, new, Some err')
    /\ forall i j, (i < 3)%nat -> (j < 3)%nat -> (0 <= err' i j <= 2)%R.
Proof.
  apply (ApplySymmetryToMatrix_error_bound toy_covariant toy_symm_base toy_sgam toy_symmatrix
           toy_table toy_discovered (fun _ _ => 1%R) (fun _ _ => 2%R) 2%R toy_discovery_eq).
  intros a b _ _. rewrite Rabs_right; lra.
Defined.
